(** * mini-python: lexer, runtime object model and statement evaluator

    A shallow embedding of the interpreter's C++ sources:

    - [token_type], [parse]: lexer.h / lexer.cpp (tokens, [Lexer::NextToken]
      and its helpers);
    - [ast], [runtime]: runtime.h / runtime.cpp / statement.h / statement.cpp
      (the object model, [ClassInstance::Call], the comparison functions and
      every [Execute] method).

    Modelling conventions.

    - The input stream is the string of bytes not yet read; every read at the
      end of the stream yields EOF and leaves the stream exhausted.
    - [int] is the 32-bit signed integer of the usual targets.  Overflowing
      signed arithmetic and dereferencing a null pointer have no defined
      behaviour in C++; both are an explicit outcome ([UB]) of the model.
    - An [ObjectHolder] is [option Object]; [None] is the empty holder.
      Class instances live in a store indexed by address, so that aliasing
      through [self], variables and fields is shared state and the pointer
      comparison of [ClassInstance::Call] is a comparison of addresses.
      Objects of the other kinds are immutable and are held by value.  The
      reference counts of [std::shared_ptr] are not modelled: an instance
      stays in the store once allocated, an address being the name of an
      instance and never used again.
    - Where the code reads an object through a raw pointer after the holder
      it took the pointer from is destroyed (the operands of [Sub], [Mult]
      and [Div]), the owner of the object is told from the node that
      returned the holder: the read has no defined behaviour when only
      that holder owned the object.  Where holders as values cannot tell,
      and where the outcome rests on the order in which the compiler
      evaluates the arguments of a call, the outcome is [Undetermined]: the
      model then says nothing of the program.
    - Method bodies can recurse, so [Execute] takes a fuel argument; every
      evaluation step of the source is an equation between
      [Execute (S n)] and [Execute n] on the sub-statements. *)

From Stdlib Require Import ZArith Ascii String.
From stdpp Require Import base option list strings gmap pretty.

Local Open Scope Z_scope.

(** ** Outcomes of a computation that may throw *)

Inductive Exception : Type :=
| LexerError (what : string)       (* parse::LexerError *)
| runtime_error (what : string)    (* std::runtime_error *)
| out_of_range (what : string)     (* std::out_of_range: stoi, map::at *)
| invalid_argument (what : string) (* std::invalid_argument: stoi *)
| bad_alloc   (* std::bad_alloc, or std::length_error: a std::string that
                 is appended to without end can grow no more *).

Inductive Outcome (A : Type) : Type :=
| Ok (a : A)
| Throw (e : Exception)
| UB        (* no defined behaviour: null dereference, signed overflow,
               a read of a destroyed object *)
| Diverge   (* the source loops forever, or the fuel of the model ran out *)
| Undetermined
            (* the model of values does not settle the outcome: it rests on
               which holders own an object, or on the order in which the
               compiler evaluates the arguments of a call *).

Arguments Ok {A} a.
Arguments Throw {A} e.
Arguments UB {A}.
Arguments Diverge {A}.
Arguments Undetermined {A}.

#[global] Instance Outcome_ret : MRet Outcome := @Ok.

#[global] Instance Outcome_bind : MBind Outcome := fun A B k m =>
  match m with
  | Ok a => k a
  | Throw e => Throw e
  | UB => UB
  | Diverge => Diverge
  | Undetermined => Undetermined
  end.

#[global] Instance Exception_eq_dec : EqDecision Exception.
Proof. solve_decision. Defined.

Definition raises {A} (m : Outcome A) : Prop := exists e, m = Throw e.

(** [int]: 32-bit two's complement. *)
Definition INT_MIN : Z := - 2 ^ 31.
Definition INT_MAX : Z := 2 ^ 31 - 1.
Definition in_int (z : Z) : bool := (INT_MIN <=? z) && (z <=? INT_MAX).

(** ** Tokens (lexer.h, namespace parse::token_type) *)

Module token_type.
Inductive Token : Type :=
| Number (value : Z)
| Id (value : string)
| Char (value : ascii)
| String (value : string)
| Class | Return | If | Else | Def | Newline | Print | Indent | Dedent
| And | Or | Not | Eq | NotEq | LessOrEq | GreaterOrEq
| None | True | False | Eof.
End token_type.

Abbreviation Token := token_type.Token.

#[global] Instance Token_eq_dec : EqDecision Token.
Proof. solve_decision. Defined.

(** ** The lexer (lexer.cpp, namespace parse) *)

Module parse.

(** <cctype> in the "C" locale. *)
Definition isdigit (c : ascii) : bool :=
  let n := nat_of_ascii c in ((48 <=? n) && (n <=? 57))%nat.
Definition isalpha (c : ascii) : bool :=
  let n := nat_of_ascii c in
  (((65 <=? n) && (n <=? 90)) || ((97 <=? n) && (n <=? 122)))%nat.

Definition keyword_to_token : gmap string Token :=
  list_to_map
    [ ("class", token_type.Class); ("return", token_type.Return);
      ("if", token_type.If); ("else", token_type.Else);
      ("def", token_type.Def); ("print", token_type.Print);
      ("and", token_type.And); ("or", token_type.Or);
      ("not", token_type.Not); ("None", token_type.None);
      ("True", token_type.True); ("False", token_type.False) ]%string.

Definition comparison_symbols : list ascii :=
  ["="; "!"; "<"; ">"]%char.
Definition special_symbols : list ascii :=
  ["."; ","; ":"; "+"; "-"; "*"; "/"; "("; ")"; "="; "<"; ">"]%char.

Definition newline : ascii := "010"%char.
Definition double_quote : ascii := "034"%char.
Definition tab : ascii := "009"%char.

(** *** The input stream *)

(** [input_.peek()]; [None] is EOF. *)
Definition peek (s : string) : option ascii :=
  match s with
  | String.String c _ => Some c
  | EmptyString => Datatypes.None
  end.

(** [input_.ignore()]. *)
Definition ignore (s : string) : string :=
  match s with
  | String.String _ r => r
  | EmptyString => EmptyString
  end.

(** [input_.ignore(max_size, '\n')]: drops up to and including the next
    line feed. *)
Fixpoint ignore_line (s : string) : string :=
  match s with
  | String.String c r => if Ascii.eqb c newline then r else ignore_line r
  | EmptyString => EmptyString
  end.

(** [for (; input_.peek() == ' '; input_.ignore(), ++spaces)]: the number
    of blanks dropped and the rest of the stream. *)
Fixpoint skip_spaces (s : string) : nat * string :=
  match s with
  | String.String c r =>
      if Ascii.eqb c " " then
        let '(n, rest) := skip_spaces r in (S n, rest)
      else (O, s)
  | EmptyString => (O, EmptyString)
  end.

(** *** Lexer state *)

Record Lexer : Type := mkLexer {
  indent_ : Z;
  indent_diff_ : Z;
  token_ : Token;
  input_ : string
}.

Definition set_input (lx : Lexer) (s : string) : Lexer :=
  mkLexer (indent_ lx) (indent_diff_ lx) (token_ lx) s.
Definition set_token (lx : Lexer) (t : Token) : Lexer :=
  mkLexer (indent_ lx) (indent_diff_ lx) t (input_ lx).

Definition CurrentToken (lx : Lexer) : Token := token_ lx.

(** *** SkipUselessSymbols

    The function calls itself once per comment or blank line it drops;
    [fuel] bounds these calls and [S (length input)] is always enough. *)
Fixpoint SkipUselessSymbols_ (fuel : nat) (lx : Lexer) : Lexer :=
  let '(spaces, rest) := skip_spaces (input_ lx) in
  let indented :=
    mkLexer (Z.of_nat spaces `quot` 2)
            (Z.of_nat spaces `quot` 2 - indent_ lx)
            (token_ lx) rest in
  match fuel with
  | O => indented
  | S fuel' =>
      match peek rest with
      | Some c =>
          if Ascii.eqb c "#" then
            SkipUselessSymbols_ fuel' (set_input lx (ignore_line rest))
          else if Ascii.eqb c newline then
            SkipUselessSymbols_ fuel' (set_input lx (ignore rest))
          else indented
      | Datatypes.None => indented
      end
  end.

Definition SkipUselessSymbols (lx : Lexer) : Lexer :=
  SkipUselessSymbols_ (S (String.length (input_ lx))) lx.

(** *** GetIndentDedent *)
Definition GetIndentDedent (lx : Lexer) : Token * Lexer :=
  if 0 <? indent_diff_ lx then
    (token_type.Indent,
     mkLexer (indent_ lx) (indent_diff_ lx - 1) (token_ lx) (input_ lx))
  else
    (token_type.Dedent,
     mkLexer (indent_ lx) (indent_diff_ lx + 1) (token_ lx) (input_ lx)).

(** *** GetNumber *)

(** [for (; isdigit(ch); number += ch, ch = input_.get())] followed by
    [input_.putback(ch)]: the digits read and the rest of the stream. *)
Fixpoint read_digits (s : string) : string * string :=
  match s with
  | String.String c r =>
      if isdigit c then
        let '(ds, rest) := read_digits r in (String.String c ds, rest)
      else (EmptyString, s)
  | EmptyString => (EmptyString, EmptyString)
  end.

Definition digit_value (c : ascii) : Z := Z.of_nat (nat_of_ascii c) - 48.

(** Value of a string of decimal digits, most significant first. *)
Fixpoint decimal (acc : Z) (s : string) : Z :=
  match s with
  | String.String c r => decimal (10 * acc + digit_value c) r
  | EmptyString => acc
  end.

(** [std::stoi] on a string of decimal digits (the only strings
    [GetNumber] passes): the value when it fits an [int]. *)
Definition stoi (number : string) : Outcome Z :=
  match number with
  | EmptyString => Throw (invalid_argument "stoi")
  | _ =>
      if decimal 0 number <=? INT_MAX then Ok (decimal 0 number)
      else Throw (out_of_range "stoi")
  end.

Definition GetNumber (lx : Lexer) : Outcome (Token * Lexer) :=
  let '(number, rest) := read_digits (input_ lx) in
  v ← stoi number;
  Ok (token_type.Number v, set_input lx rest).

(** *** GetStrLiteral

    [read_literal open s text] is the [while (true)] loop, [None] when the
    end of the stream is reached before the closing quote.  There [get]
    keeps returning EOF, which is neither the quote nor a backslash when the
    literal was opened by a byte: one more byte is appended to [text] each
    turn, until the string can grow no more and throws. *)
Fixpoint read_literal (open_ch : ascii) (s : string) (text : string)
  : option (string * string) :=
  match s with
  | EmptyString => Datatypes.None
  | String.String ch r =>
      if negb (Ascii.eqb ch open_ch) && negb (Ascii.eqb ch "\") then
        read_literal open_ch r (text +:+ String.String ch EmptyString)
      else if Ascii.eqb ch "\" then
        match r with
        | EmptyString => Datatypes.None
        | String.String e r' =>
            let c := if Ascii.eqb e "n" then newline
                     else if Ascii.eqb e "t" then tab
                     else e in
            read_literal open_ch r' (text +:+ String.String c EmptyString)
        end
      else Some (text, r)
  end.

Definition GetStrLiteral (lx : Lexer) : Outcome (Token * Lexer) :=
  match input_ lx with
  | EmptyString =>
      (* [open_ch] is EOF and so is the next [get]: the loop breaks at
         once *)
      Ok (token_type.String "", lx)
  | String.String open_ch r =>
      match read_literal open_ch r EmptyString with
      | Some (text, rest) => Ok (token_type.String text, set_input lx rest)
      | Datatypes.None => Throw bad_alloc
      end
  end.

(** *** GetName *)
Fixpoint read_word (s : string) : string * string :=
  match s with
  | String.String c r =>
      if Ascii.eqb c "_" || isdigit c || isalpha c then
        let '(w, rest) := read_word r in (String.String c w, rest)
      else (EmptyString, s)
  | EmptyString => (EmptyString, EmptyString)
  end.

Definition GetName (lx : Lexer) : Token * Lexer :=
  let '(word, rest) := read_word (input_ lx) in
  match keyword_to_token !! word with
  | Some t => (t, set_input lx rest)
  | Datatypes.None => (token_type.Id word, set_input lx rest)
  end.

(** *** GetCompOperator

    [input_.get(&op[0], 3)] reads two bytes unless a line feed or the end
    of the stream comes first, and then [op] equals none of the four
    operators. *)
Definition GetCompOperator (lx : Lexer) : Outcome (Token * Lexer) :=
  match input_ lx with
  | String.String a (String.String b rest) =>
      let op := String.String a (String.String b EmptyString) in
      if String.eqb op "<=" then
        Ok (token_type.LessOrEq, set_input lx rest)
      else if String.eqb op ">=" then
        Ok (token_type.GreaterOrEq, set_input lx rest)
      else if String.eqb op "==" then
        Ok (token_type.Eq, set_input lx rest)
      else if String.eqb op "!=" then
        Ok (token_type.NotEq, set_input lx rest)
      else Throw (LexerError "Expected two chars long comparison operator")
  | _ => Throw (LexerError "Expected two chars long comparison operator")
  end.

(** *** NextToken *)

Definition is_block_token (t : Token) : bool :=
  bool_decide (t = token_type.Indent) || bool_decide (t = token_type.Dedent)
  || bool_decide (t = token_type.Newline).

(** [return token_ = t]. *)
Definition emit (t : Token) (lx : Lexer) : Outcome (Token * Lexer) :=
  Ok (t, set_token lx t).

Definition emit_from (r : Outcome (Token * Lexer))
  : Outcome (Token * Lexer) :=
  '(t, lx) ← r; emit t lx.

(** [fuel] bounds the one recursive call, in the comment branch. *)
Fixpoint NextToken_ (fuel : nat) (lx : Lexer) : Outcome (Token * Lexer) :=
  match fuel with
  | O => Diverge
  | S fuel' =>
      if bool_decide (token_ lx = token_type.Eof) then Ok (token_type.Eof, lx)
      else
        let lx :=
          if bool_decide (token_ lx = token_type.Newline)
          then SkipUselessSymbols lx else lx in
        if negb (indent_diff_ lx =? 0) then
          emit_from (Ok (GetIndentDedent lx))
        else
          let lx := set_input lx (skip_spaces (input_ lx)).2 in
          match input_ lx with
          | EmptyString =>
              if is_block_token (token_ lx) then emit token_type.Eof lx
              else emit token_type.Newline lx
          | String.String ch rest =>
              if Ascii.eqb ch newline then
                emit token_type.Newline (set_input lx rest)
              else if isdigit ch then emit_from (GetNumber lx)
              else if Ascii.eqb ch "'" || Ascii.eqb ch double_quote then
                emit_from (GetStrLiteral lx)
              else if Ascii.eqb ch "#" then
                let lx := SkipUselessSymbols
                            (set_input lx (ignore_line rest)) in
                match peek (input_ lx) with
                | Datatypes.None => emit token_type.Eof lx
                | Some c =>
                    if Ascii.eqb c "#" then
                      emit_from (NextToken_ fuel' lx)
                    else emit token_type.Newline lx
                end
              else if Ascii.eqb ch "="
                      && negb (bool_decide (peek rest = Some "="%char)) then
                emit (token_type.Char "=") (set_input lx rest)
              else if bool_decide (ch ∈ comparison_symbols)
                      && bool_decide (peek rest = Some "="%char) then
                emit_from (GetCompOperator lx)
              else if isalpha ch || Ascii.eqb ch "_" then
                emit_from (Ok (GetName lx))
              else if bool_decide (ch ∈ special_symbols) then
                emit (token_type.Char ch) (set_input lx rest)
              else
                Throw (LexerError "Error occurred in token generation process")
          end
  end.

(** The recursive call is made only when a comment starts right after
    [SkipUselessSymbols], which never happens: the fuel of the call itself
    is enough ([NextToken_fuel] below). *)
Definition NextToken (lx : Lexer) : Outcome (Token * Lexer) :=
  NextToken_ 1 lx.

(** *** Lexer::Lexer

    [token_] starts as the first alternative of the variant, [Number{0}]. *)
Definition new_Lexer (input : string) : Outcome Lexer :=
  let lx := SkipUselessSymbols (mkLexer 0 0 (token_type.Number 0) input) in
  let lx := set_token lx token_type.Newline in
  '(_, lx) ← NextToken lx;
  Ok lx.

(** The tokens returned by [n] successive calls of [NextToken]. *)
Fixpoint advance (n : nat) (lx : Lexer) : Outcome (list Token * Lexer) :=
  match n with
  | O => Ok ([], lx)
  | S n' =>
      '(t, lx1) ← NextToken lx;
      '(ts, lx2) ← advance n' lx1;
      Ok (t :: ts, lx2)
  end.

(** The driver loop of the entry point: the current token, then
    [NextToken] until [Eof] comes; the list ends with that [Eof]. *)
Fixpoint drain (fuel : nat) (lx : Lexer) : Outcome (list Token) :=
  match fuel with
  | O => Diverge
  | S fuel' =>
      if bool_decide (CurrentToken lx = token_type.Eof)
      then Ok [token_type.Eof]
      else
        '(_, lx') ← NextToken lx;
        ts ← drain fuel' lx';
        Ok (CurrentToken lx :: ts)
  end.

Definition tokens (input : string) : Outcome (list Token) :=
  lx ← new_Lexer input;
  drain (2 * String.length input + 4) lx.

End parse.

(** ** The syntax tree (statement.h) and the classes it refers to (runtime.h)

    A [Method] owns its body and a [NewInstance] or [ClassDefinition] node
    refers to a [Class], so the three types are declared together.  Classes
    are immutable once built and are held by value. *)

Module ast.

(** The functions a [Comparison] node is built with. *)
Inductive Comparator : Type :=
| cmp_Equal | cmp_NotEqual | cmp_Less
| cmp_Greater | cmp_LessOrEqual | cmp_GreaterOrEqual.

Unset Elimination Schemes.
Inductive Statement : Type :=
| NumericConst (value : Z)
| StringConst (value : string)
| BoolConst (value : bool)
| None
| VariableValue (ids : list string)
| Assignment (var : string) (rv : Statement)
| FieldAssignment (object : list string) (field_name : string)
                  (rv : Statement)
| Print (args : list Statement)
| MethodCall (object : Statement) (method : string)
             (args : list Statement)
| NewInstance (class_ : Class) (args : list Statement)
| Stringify (argument : Statement)
| Add (lhs rhs : Statement)
| Sub (lhs rhs : Statement)
| Mult (lhs rhs : Statement)
| Div (lhs rhs : Statement)
| Or (lhs rhs : Statement)
| And (lhs rhs : Statement)
| Not (argument : Statement)
| Comparison (cmp : Comparator) (lhs rhs : Statement)
| Compound (statements : list Statement)
| MethodBody (body : Statement)
| Return (statement : Statement)
| ClassDefinition (cls : Class)
| IfElse (condition if_body : Statement) (else_body : option Statement)
with Class : Type :=
| mkClass (name_ : string) (methods_ : list Method)
          (parent_ : option Class)
with Method : Type :=
| mkMethod (name : string) (formal_params : list string)
           (body : Statement).
Set Elimination Schemes.

End ast.

Abbreviation Statement := ast.Statement.
Abbreviation Class := ast.Class.
Abbreviation Method := ast.Method.

Definition name (m : Method) : string :=
  match m with ast.mkMethod n _ _ => n end.
Definition formal_params (m : Method) : list string :=
  match m with ast.mkMethod _ ps _ => ps end.
Definition body (m : Method) : Statement :=
  match m with ast.mkMethod _ _ b => b end.

(** ** Runtime objects (runtime.h) *)

Module runtime.
Inductive Object : Type :=
| Number (value : Z)
| Bool (value : bool)
| String (value : string)
| Class (cls : ast.Class)
| ClassInstance (this : nat)   (* the instance stored at address [this] *).
End runtime.

Abbreviation Object := runtime.Object.
Abbreviation ObjectHolder := (option runtime.Object).
Abbreviation Closure := (gmap string (option runtime.Object)).

(** The data of a class instance: [class_] and [fields_]. *)
Record Instance : Type := mkInstance {
  class_ : Class;
  fields_ : Closure
}.

(** What evaluation acts on besides the current closure: the class
    instances allocated so far, by address, and the text written to the
    output stream of the [Context]. *)
Record World : Type := mkWorld {
  instances : list Instance;
  output : string
}.

Definition write (text : string) (w : World) : World :=
  mkWorld (instances w) (output w +:+ text).

Definition set_fields (this : nat) (fields : Closure) (w : World) : World :=
  match instances w !! this with
  | Some inst =>
      mkWorld (<[this := mkInstance (class_ inst) fields]> (instances w))
              (output w)
  | None => w
  end.

(** [ObjectHolder::Own(ClassInstance(cls))]: a new instance, at a new
    address, with no fields. *)
Definition Own_ClassInstance (cls : Class) (w : World) : nat * World :=
  (length (instances w),
   mkWorld (instances w ++ [mkInstance cls ∅]) (output w)).

(** [closure.at(key)]. *)
Definition at_ (closure : Closure) (key : string) : Outcome ObjectHolder :=
  match closure !! key with
  | Some h => Ok h
  | None => Throw (out_of_range "unordered_map::at")
  end.

(** [closure[key]] read: an absent key is first bound to an empty holder. *)
Definition index (closure : Closure) (key : string) : ObjectHolder * Closure :=
  match closure !! key with
  | Some h => (h, closure)
  | None => (None, <[key := None]> closure)
  end.

(** [closure.count(key)]. *)
Definition count (closure : Closure) (key : string) : bool :=
  bool_decide (is_Some (closure !! key)).

(** [IsTrue] *)
Definition IsTrue (object : ObjectHolder) : bool :=
  match object with
  | None => false
  | Some (runtime.Number v) => negb (v =? 0)
  | Some (runtime.Bool v) => v
  | Some (runtime.String v) => negb (String.eqb v "")
  | Some _ => false
  end.

(** [Class::Class] fills [name_to_method_] in order, so that of several
    methods of one name the last is kept. *)
Fixpoint name_to_method (methods : list Method) (n : string) : option Method :=
  match methods with
  | [] => None
  | m :: rest =>
      match name_to_method rest n with
      | Some m' => Some m'
      | None => if String.eqb (name m) n then Some m else None
      end
  end.

Definition GetName (c : Class) : string :=
  match c with ast.mkClass n _ _ => n end.

(** [Class::GetMethod] *)
Fixpoint GetMethod (c : Class) (n : string) : option Method :=
  match c with
  | ast.mkClass _ methods parent =>
      match name_to_method methods n with
      | Some m => Some m
      | None =>
          match parent with
          | Some p => GetMethod p n
          | None => None
          end
      end
  end.

(** [ClassInstance::HasMethod], on the class of the instance. *)
Definition HasMethod (c : Class) (method : string) (argc : nat) : bool :=
  match GetMethod c method with
  | Some m => bool_decide (length (formal_params m) = argc)
  | None => false
  end.

(** [closure.at("self").Get() != this], negated. *)
Definition points_to (h : ObjectHolder) (this : nat) : bool :=
  match h with
  | Some (runtime.ClassInstance p) => bool_decide (p = this)
  | _ => false
  end.

(** [closure[formal_params[i]] = args[i]] for every argument. *)
Fixpoint bind_params (closure : Closure) (params : list string)
  (args : list ObjectHolder) : Closure :=
  match params, args with
  | p :: params', a :: args' => bind_params (<[p := a]> closure) params' args'
  | _, _ => closure
  end.

(** Signed arithmetic on [int]: a result that does not fit overflows. *)
Definition int_result (z : Z) : Outcome ObjectHolder :=
  if in_int z then Ok (Some (runtime.Number z)) else UB.

(** [os << this]: the text an address prints as is the implementation's. *)
Definition address_text (this : nat) : string := "0x" +:+ pretty this.

(** ** Nodes that only read

    [ValueStatement<T>::Execute] returns [Share(value_)] and [None] the
    empty holder: evaluating them reads and writes nothing.  A
    [VariableValue] reads the closure and the fields on its way, and writes
    nothing but the empty field that [Fields()[id]] adds where there is
    none. *)
Definition constant (s : Statement) : bool :=
  match s with
  | ast.NumericConst _ | ast.StringConst _ | ast.BoolConst _ | ast.None =>
      true
  | _ => false
  end.

Definition reads_only (s : Statement) : bool :=
  constant s || match s with ast.VariableValue _ => true | _ => false end.

(** Two outcomes that are not two different failures. *)
Definition agree {A B : Type} (a : Outcome A) (b : Outcome B) : bool :=
  match a, b with
  | Ok _, _ | _, Ok _ => true
  | Throw e1, Throw e2 => bool_decide (e1 = e2)
  | UB, UB | Diverge, Diverge | Undetermined, Undetermined => true
  | _, _ => false
  end.

(** ** Owners of the object a holder shares

    [Sub], [Mult] and [Div] keep a raw pointer to the [Number] of each
    operand and read it once the temporary holder that [Execute] returned
    is destroyed, at the end of the initializer.  The object is still there
    when something else owns it.  Holders are values here, so the owner is
    told from the node that returned the holder, as far as that goes. *)
Inductive Owner : Type :=
| in_node      (* [Share(value_)]: the object is a member of the node *)
| in_binding   (* a copy of a holder that the closure or a field has *)
| holder_alone (* [Own(...)]: only the returned holder owns the object *)
| untracked    (* what a method call returned: owned by whatever the
                  method took it from *).

(** Reading through the pointer, [v] being the value of the object while
    it lived. *)
Definition read (o : Owner) (v : Z) : Outcome Z :=
  match o with
  | in_node | in_binding => Ok v
  | holder_alone => UB
  | untracked => Undetermined
  end.

(** Both reads of [left->GetValue() - right->GetValue()]. *)
Definition both (a b : Outcome Z) : Outcome (Z * Z) :=
  match a, b with
  | Ok x, Ok y => Ok (x, y)
  | UB, _ | _, UB => UB
  | _, _ => Undetermined
  end.

(** ** One layer of evaluation

    Everything below runs statements only through [exec], the evaluator of
    the sub-statements and of method bodies; [Execute] ties the knot. *)

Section Evaluation.

Variable exec :
  Statement -> Closure -> World -> Outcome (ObjectHolder * Closure * World).

(** *** runtime.cpp *)

(** [ClassInstance::Call], on the instance at address [this]. *)
Definition Call (this : nat) (method : string) (args : list ObjectHolder)
  (w : World) : Outcome (ObjectHolder * World) :=
  match instances w !! this with
  | None => UB
  | Some inst =>
      if negb (HasMethod (class_ inst) method (length args)) then
        Throw (runtime_error "Method does not exist")
      else
        match GetMethod (class_ inst) method with
        | None => UB
        | Some method_ptr =>
            let closure :=
              bind_params {["self" := Some (runtime.ClassInstance this)]}
                          (formal_params method_ptr) args in
            '(res, closure, w) ← exec (body method_ptr) closure w;
            self ← at_ closure "self";
            if negb (points_to self this) then Ok (self, w)
            else Ok (res, w)
        end
  end.

(** [Object::Print]: the text written to [os], and the world after the
    call of [__str__] an instance makes first. *)
Definition Object_Print (o : Object) (w : World) : Outcome (string * World) :=
  match o with
  | runtime.Number v => Ok (pretty v, w)
  | runtime.Bool v => Ok (if v then "True" else "False", w)
  | runtime.String v => Ok (v, w)
  | runtime.Class c => Ok ("Class " +:+ GetName c, w)
  | runtime.ClassInstance this =>
      match instances w !! this with
      | None => UB
      | Some inst =>
          match GetMethod (class_ inst) "__str__" with
          | Some _ =>
              '(r, w) ← Call this "__str__" [] w;
              match r with
              | Some (runtime.String v) => Ok (v, w)
              | _ => UB
              end
          | None => Ok (address_text this, w)
          end
      end
  end.

Definition Equal (lhs rhs : ObjectHolder) (w : World)
  : Outcome (bool * World) :=
  let not_applicable :=
    Throw (runtime_error "Equality operator is not applicable") in
  match lhs, rhs with
  | None, None => Ok (true, w)
  | Some (runtime.Bool left_), _ =>
      match rhs with
      | Some (runtime.Bool right_) => Ok (Bool.eqb left_ right_, w)
      | _ => not_applicable
      end
  | Some (runtime.Number left_), _ =>
      match rhs with
      | Some (runtime.Number right_) => Ok (left_ =? right_, w)
      | _ => not_applicable
      end
  | Some (runtime.String left_), _ =>
      match rhs with
      | Some (runtime.String right_) => Ok (String.eqb left_ right_, w)
      | _ => not_applicable
      end
  | Some (runtime.ClassInstance left_), _ =>
      match instances w !! left_ with
      | None => UB
      | Some inst =>
          if HasMethod (class_ inst) "__eq__" 1 then
            '(r, w) ← Call left_ "__eq__" [rhs] w;
            Ok (IsTrue r, w)
          else not_applicable
      end
  | _, _ => not_applicable
  end.

Definition Less (lhs rhs : ObjectHolder) (w : World)
  : Outcome (bool * World) :=
  let not_applicable :=
    Throw (runtime_error "Less operator is not applicable") in
  match lhs with
  | Some (runtime.Bool left_) =>
      match rhs with
      | Some (runtime.Bool right_) => Ok (negb left_ && right_, w)
      | _ => not_applicable
      end
  | Some (runtime.Number left_) =>
      match rhs with
      | Some (runtime.Number right_) => Ok (left_ <? right_, w)
      | _ => not_applicable
      end
  | Some (runtime.String left_) =>
      match rhs with
      | Some (runtime.String right_) => Ok (String.ltb left_ right_, w)
      | _ => not_applicable
      end
  | Some (runtime.ClassInstance left_) =>
      match instances w !! left_ with
      | None => UB
      | Some inst =>
          if HasMethod (class_ inst) "__lt__" 1 then
            '(r, w) ← Call left_ "__lt__" [rhs] w;
            Ok (IsTrue r, w)
          else not_applicable
      end
  | _ => not_applicable
  end.

Definition NotEqual (lhs rhs : ObjectHolder) (w : World)
  : Outcome (bool * World) :=
  '(e, w) ← Equal lhs rhs w;
  Ok (negb e, w).

Definition Greater (lhs rhs : ObjectHolder) (w : World)
  : Outcome (bool * World) :=
  '(e, w) ← Equal lhs rhs w;
  let eq := negb e in
  '(l, w) ← Less lhs rhs w;
  let ls := negb l in
  Ok (eq && ls, w).

Definition LessOrEqual (lhs rhs : ObjectHolder) (w : World)
  : Outcome (bool * World) :=
  '(g, w) ← Greater lhs rhs w;
  Ok (negb g, w).

Definition GreaterOrEqual (lhs rhs : ObjectHolder) (w : World)
  : Outcome (bool * World) :=
  '(l, w) ← Less lhs rhs w;
  Ok (negb l, w).

Definition comparator (cmp : ast.Comparator)
  : ObjectHolder -> ObjectHolder -> World -> Outcome (bool * World) :=
  match cmp with
  | ast.cmp_Equal => Equal
  | ast.cmp_NotEqual => NotEqual
  | ast.cmp_Less => Less
  | ast.cmp_Greater => Greater
  | ast.cmp_LessOrEqual => LessOrEqual
  | ast.cmp_GreaterOrEqual => GreaterOrEqual
  end.

(** *** statement.cpp *)

(** The loop of [VariableValue::Execute] over [ids_[1..]]. *)
Fixpoint walk_fields (obj : ObjectHolder) (ids : list string) (w : World)
  : Outcome (ObjectHolder * World) :=
  match ids with
  | [] => Ok (obj, w)
  | id :: ids' =>
      match obj with
      | Some (runtime.ClassInstance ptr) =>
          match instances w !! ptr with
          | None => UB
          | Some inst =>
              let '(obj', fields) := index (fields_ inst) id in
              walk_fields obj' ids' (set_fields ptr fields w)
          end
      | _ => Throw (runtime_error ("Unknown variable - " +:+ id))
      end
  end.

Definition VariableValue_Execute (ids : list string) (closure : Closure)
  (w : World) : Outcome (ObjectHolder * Closure * World) :=
  match ids with
  | [] => UB
  | id0 :: ids' =>
      if negb (count closure id0) then
        Throw (runtime_error ("Unknown variable - " +:+ id0))
      else
        obj ← at_ closure id0;
        '(obj, w) ← walk_fields obj ids' w;
        Ok (obj, closure, w)
  end.

(** [for (auto &arg : args_) curr_args.push_back(arg->Execute(...))]. *)
Fixpoint Execute_args (args : list Statement) (closure : Closure)
  (w : World) : Outcome (list ObjectHolder * Closure * World) :=
  match args with
  | [] => Ok ([], closure, w)
  | arg :: args' =>
      '(v, closure, w) ← exec arg closure w;
      '(vs, closure, w) ← Execute_args args' closure w;
      Ok (v :: vs, closure, w)
  end.

(** The loop of [Print::Execute]. *)
Fixpoint Print_args (args : list Statement) (closure : Closure) (w : World)
  : Outcome (Closure * World) :=
  match args with
  | [] => Ok (closure, w)
  | arg :: args' =>
      '(tmp_obj, closure, w) ← exec arg closure w;
      w ← match tmp_obj with
          | Some o => '(text, w) ← Object_Print o w; Ok (write text w)
          | None => Ok (write "None" w)
          end;
      let w := match args' with [] => w | _ => write " " w end in
      Print_args args' closure w
  end.

(** The loop of [Compound::Execute]. *)
Fixpoint Compound_loop (statements : list Statement) (closure : Closure)
  (w : World) : Outcome (Closure * World) :=
  match statements with
  | [] => Ok (closure, w)
  | st :: rest =>
      '(_, closure, w) ← exec st closure w;
      if count closure "returned_value" then Ok (closure, w)
      else Compound_loop rest closure w
  end.

(** The owner of the [Number] that the holder returned by [s] shares,
    [s] being evaluated in [closure] and [w].  [Add] returns a new object
    unless its left operand is a class instance, when it returns what
    [__add__] returned.  The nodes of the last line return a new object, an
    empty holder or nothing that is a [Number]. *)
Definition owner (s : Statement) (closure : Closure) (w : World) : Owner :=
  match s with
  | ast.NumericConst _ | ast.StringConst _ | ast.BoolConst _ => in_node
  | ast.VariableValue _ | ast.Assignment _ _ | ast.FieldAssignment _ _ _
  | ast.MethodBody _ => in_binding
  | ast.MethodCall _ _ _ | ast.NewInstance _ _ => untracked
  | ast.Add lhs _ =>
      match exec lhs closure w with
      | Ok (Some (runtime.ClassInstance _), _, _) => untracked
      | _ => holder_alone
      end
  | _ => holder_alone
  end.

(** The left object is read after the right operand was evaluated: an
    object that a binding owns is still there when the right operand only
    reads; when it assigns or calls, the binding may be gone. *)
Definition left_owner (lhs rhs : Statement) (closure : Closure) (w : World)
  : Owner :=
  match owner lhs closure w with
  | in_binding => if reads_only rhs then in_binding else untracked
  | o => o
  end.

(** [Sub], [Mult] and [Div] evaluate both operands, each in an initializer
    of its own, and test the two pointers; the values are read, through
    the pointers, only when both point to a [Number]. *)
Definition Number_operands (lhs rhs : Statement) (closure : Closure)
  (w : World) : Outcome (option (Outcome Z * Outcome Z) * Closure * World) :=
  '(l, c1, w1) ← exec lhs closure w;
  '(r, c2, w2) ← exec rhs c1 w1;
  match l, r with
  | Some (runtime.Number left_), Some (runtime.Number right_) =>
      Ok (Some (read (left_owner lhs rhs closure w) left_,
                read (owner rhs c1 w1) right_), c2, w2)
  | _, _ => Ok (None, c2, w2)
  end.

(** [cmp_(left_->Execute(...), right_->Execute(...), context)]: which
    argument is evaluated first is the compiler's choice.  Either order
    gives the same outcome when one operand is a constant, and when both
    only read and do not fail in two different ways. *)
Definition order_free (lhs rhs : Statement) (closure : Closure) (w : World)
  : bool :=
  constant lhs || constant rhs
  || (reads_only lhs && reads_only rhs
      && agree (exec lhs closure w) (exec rhs closure w)).

Definition Execute_step (s : Statement) (closure : Closure) (w : World)
  : Outcome (ObjectHolder * Closure * World) :=
  match s with
  | ast.NumericConst v => Ok (Some (runtime.Number v), closure, w)
  | ast.StringConst v => Ok (Some (runtime.String v), closure, w)
  | ast.BoolConst v => Ok (Some (runtime.Bool v), closure, w)
  | ast.None => Ok (None, closure, w)
  | ast.VariableValue ids => VariableValue_Execute ids closure w
  | ast.Assignment var rv =>
      '(v, closure, w) ← exec rv closure w;
      let closure := <[var := v]> closure in
      r ← at_ closure var;
      Ok (r, closure, w)
  | ast.FieldAssignment object field_name rv =>
      '(obj, closure, w) ← VariableValue_Execute object closure w;
      match obj with
      | Some (runtime.ClassInstance ptr) =>
          '(v, closure, w) ← exec rv closure w;
          match instances w !! ptr with
          | None => UB
          | Some inst =>
              let fields := <[field_name := v]> (fields_ inst) in
              r ← at_ fields field_name;
              Ok (r, closure, set_fields ptr fields w)
          end
      | _ => UB
      end
  | ast.Print args =>
      '(closure, w) ← Print_args args closure w;
      Ok (None, closure, write (String.String parse.newline "") w)
  | ast.MethodCall object method args =>
      '(curr_args, closure, w) ← Execute_args args closure w;
      '(obj, closure, w) ← exec object closure w;
      match obj with
      | Some (runtime.ClassInstance ptr) =>
          '(r, w) ← Call ptr method curr_args w;
          Ok (r, closure, w)
      | _ => UB
      end
  | ast.Stringify argument =>
      '(obj, closure, w) ← exec argument closure w;
      match obj with
      | None => Ok (Some (runtime.String "None"), closure, w)
      | Some o =>
          let default :=
            '(text, w) ← Object_Print o w;
            Ok (Some (runtime.String text), closure, w) in
          match o with
          | runtime.ClassInstance ptr =>
              match instances w !! ptr with
              | None => UB
              | Some inst =>
                  if HasMethod (class_ inst) "__str__" 0 then
                    '(r, w) ← Call ptr "__str__" [] w;
                    match r with
                    | None => UB
                    | Some ro =>
                        '(text, w) ← Object_Print ro w;
                        Ok (Some (runtime.String text), closure, w)
                    end
                  else default
              end
          | _ => default
          end
      end
  | ast.Add lhs rhs =>
      '(left_, closure, w) ← exec lhs closure w;
      '(right_, closure, w) ← exec rhs closure w;
      let incorrect := Throw (runtime_error "Incorrect addition") in
      match left_ with
      | Some (runtime.String lp) =>
          match right_ with
          | Some (runtime.String rp) =>
              Ok (Some (runtime.String (lp +:+ rp)), closure, w)
          | _ => incorrect
          end
      | Some (runtime.Number lp) =>
          match right_ with
          | Some (runtime.Number rp) =>
              r ← int_result (rp + lp); Ok (r, closure, w)
          | _ => incorrect
          end
      | Some (runtime.ClassInstance lp) =>
          match instances w !! lp with
          | None => UB
          | Some inst =>
              if HasMethod (class_ inst) "__add__" 1 then
                '(r, w) ← Call lp "__add__" [right_] w;
                Ok (r, closure, w)
              else incorrect
          end
      | _ => incorrect
      end
  | ast.Sub lhs rhs =>
      '(operands, closure, w) ← Number_operands lhs rhs closure w;
      match operands with
      | Some (left_, right_) =>
          '(a, b) ← both left_ right_;
          r ← int_result (a - b); Ok (r, closure, w)
      | None => Throw (runtime_error "Incorrect subtraction")
      end
  | ast.Mult lhs rhs =>
      '(operands, closure, w) ← Number_operands lhs rhs closure w;
      match operands with
      | Some (left_, right_) =>
          '(a, b) ← both left_ right_;
          r ← int_result (a * b); Ok (r, closure, w)
      | None => Throw (runtime_error "Incorrect multiplication")
      end
  | ast.Div lhs rhs =>
      '(operands, closure, w) ← Number_operands lhs rhs closure w;
      match operands with
      | Some (left_, right_) =>
          b ← right_;
          if negb (b =? 0) then
            a ← left_;
            r ← int_result (a `quot` b); Ok (r, closure, w)
          else Throw (runtime_error "Incorrect division")
      | None => Throw (runtime_error "Incorrect division")
      end
  | ast.Compound statements =>
      '(closure, w) ← Compound_loop statements closure w;
      Ok (None, closure, w)
  | ast.Return statement =>
      '(v, closure, w) ← exec statement closure w;
      Ok (None, <["returned_value" := v]> closure, w)
  | ast.ClassDefinition cls =>
      Ok (None, <[GetName cls := Some (runtime.Class cls)]> closure, w)
  | ast.IfElse condition if_body else_body =>
      '(c, closure, w) ← exec condition closure w;
      if IsTrue c then
        '(_, closure, w) ← exec if_body closure w;
        Ok (None, closure, w)
      else
        match else_body with
        | Some e =>
            '(_, closure, w) ← exec e closure w;
            Ok (None, closure, w)
        | None => Ok (None, closure, w)
        end
  | ast.Or lhs rhs =>
      '(l, closure, w) ← exec lhs closure w;
      if negb (IsTrue l) then
        '(r, closure, w) ← exec rhs closure w;
        Ok (Some (runtime.Bool (IsTrue r)), closure, w)
      else Ok (Some (runtime.Bool true), closure, w)
  | ast.And lhs rhs =>
      '(l, closure, w) ← exec lhs closure w;
      if IsTrue l then
        '(r, closure, w) ← exec rhs closure w;
        Ok (Some (runtime.Bool (IsTrue r)), closure, w)
      else Ok (Some (runtime.Bool false), closure, w)
  | ast.Not argument =>
      '(v, closure, w) ← exec argument closure w;
      Ok (Some (runtime.Bool (negb (IsTrue v))), closure, w)
  | ast.Comparison cmp lhs rhs =>
      if order_free lhs rhs closure w then
        '(l, closure, w) ← exec lhs closure w;
        '(r, closure, w) ← exec rhs closure w;
        '(b, w) ← comparator cmp l r w;
        Ok (Some (runtime.Bool b), closure, w)
      else Undetermined
  | ast.NewInstance cls args =>
      let '(ptr, w) := Own_ClassInstance cls w in
      let obj := Some (runtime.ClassInstance ptr) in
      match GetMethod cls "__init__" with
      | None => Ok (obj, closure, w)
      | Some method =>
          if negb (bool_decide (length (formal_params method) = length args))
          then Ok (obj, closure, w)
          else
            '(actual, closure, w) ← Execute_args args closure w;
            '(post_init_obj, w) ← Call ptr "__init__" actual w;
            match post_init_obj with
            | Some _ => Ok (post_init_obj, closure, w)
            | None => Ok (obj, closure, w)
            end
      end
  | ast.MethodBody body =>
      '(_, closure, w) ← exec body closure w;
      if count closure "returned_value" then
        r ← at_ closure "returned_value"; Ok (r, closure, w)
      else Ok (None, closure, w)
  end.

End Evaluation.

(** [Statement::Execute]: [fuel] bounds the depth of the nesting of
    statements and method calls. *)
Fixpoint Execute (fuel : nat) (s : Statement) (closure : Closure) (w : World)
  : Outcome (ObjectHolder * Closure * World) :=
  match fuel with
  | O => Diverge
  | S fuel' => Execute_step (Execute fuel') s closure w
  end.

Definition empty_world : World := mkWorld [] "".


(** ** Notions the statements below are phrased with *)

(** The state [NextToken] goes on with once the start of a line is handled:
    [if (token_ == Newline) SkipUselessSymbols()]. *)
Definition at_line (lx : parse.Lexer) : parse.Lexer :=
  if bool_decide (parse.token_ lx = token_type.Newline)
  then parse.SkipUselessSymbols lx else lx.

(** Number of [Indent] tokens minus number of [Dedent] tokens. *)
Fixpoint balance (ts : list Token) : Z :=
  match ts with
  | [] => 0
  | token_type.Indent :: ts' => balance ts' + 1
  | token_type.Dedent :: ts' => balance ts' - 1
  | _ :: ts' => balance ts'
  end.

(** The tokens before the first [Eof]. *)
Fixpoint before_Eof (ts : list Token) : list Token :=
  match ts with
  | [] => []
  | t :: ts' =>
      if bool_decide (t = token_type.Eof) then [] else t :: before_Eof ts'
  end.

(** A string of [k] blanks. *)
Fixpoint blanks (k : nat) : string :=
  match k with
  | O => ""
  | S k' => String.String " " (blanks k')
  end.

Fixpoint all_digits (s : string) : bool :=
  match s with
  | String.String c r => parse.isdigit c && all_digits r
  | EmptyString => true
  end.

(** The stream does not go on with one more digit. *)
Definition no_digit_ahead (s : string) : bool :=
  match s with
  | String.String c _ => negb (parse.isdigit c)
  | EmptyString => true
  end.

(** Well-formed indentation of a source text: every line that is neither
    blank nor a comment starts with an even number of blanks, the first one
    with none, and is at most one level deeper than the line before it. *)
Fixpoint split_lines (s : string) (line : string) : list string :=
  match s with
  | EmptyString => [line]
  | String.String c r =>
      if Ascii.eqb c parse.newline then line :: split_lines r ""
      else split_lines r (line +:+ String.String c "")
  end.

Fixpoint well_indented (depth : nat) (first : bool) (lines : list string)
  : bool :=
  match lines with
  | [] => true
  | line :: rest =>
      let '(spaces, text) := parse.skip_spaces line in
      match parse.peek text with
      | None => well_indented depth first rest
      | Some c =>
          if Ascii.eqb c "#" then well_indented depth first rest
          else
            Nat.even spaces
            && (if first then Nat.eqb spaces 0
                else Nat.leb (Nat.div2 spaces) (S depth))
            && well_indented (Nat.div2 spaces) false rest
      end
  end.

Definition well_formed_source (src : string) : bool :=
  well_indented 0 true (split_lines src "").

(** [reaches w obj path this]: starting from the holder [obj], the fields
    named by [path] all exist and hold class instances (as [obj] itself
    does), the last of them the instance at [this]. *)
Inductive reaches (w : World) : ObjectHolder -> list string -> nat -> Prop :=
| reaches_here this inst :
    instances w !! this = Some inst ->
    reaches w (Some (runtime.ClassInstance this)) [] this
| reaches_field ptr inst id h path this :
    instances w !! ptr = Some inst ->
    fields_ inst !! id = Some h ->
    reaches w h path this ->
    reaches w (Some (runtime.ClassInstance ptr)) (id :: path) this.

(** [exec] leaves every name of the scope it runs in bound. *)
Definition keeps_names
  (exec : Statement -> Closure -> World
          -> Outcome (ObjectHolder * Closure * World)) : Prop :=
  forall s (c c' : Closure) w w' v k,
    exec s c w = Ok (v, c', w') -> is_Some (c !! k) -> is_Some (c' !! k).

(** Operands of one primitive kind. *)
Definition same_primitive_kind (lhs rhs : ObjectHolder) : Prop :=
  (exists a b, lhs = Some (runtime.Bool a) /\ rhs = Some (runtime.Bool b))
  \/ (exists a b, lhs = Some (runtime.Number a) /\ rhs = Some (runtime.Number b))
  \/ (exists a b, lhs = Some (runtime.String a) /\ rhs = Some (runtime.String b)).

(** [lhs] is a class instance whose class has [method] with one parameter. *)
Definition overloads (w : World) (lhs : ObjectHolder) (method : string)
  : Prop :=
  exists this inst,
    lhs = Some (runtime.ClassInstance this)
    /\ instances w !! this = Some inst
    /\ HasMethod (class_ inst) method 1 = true.

(** A holder of a class instance refers to an instance of the store. *)
Definition live (w : World) (h : ObjectHolder) : Prop :=
  forall this, h = Some (runtime.ClassInstance this) ->
               is_Some (instances w !! this).

(** ** Sample inputs *)

(** [x], a digit run just above [INT_MAX]. *)
Definition source_big_number : string := "2147483648".

(** Two lines, the second one level deeper, no line feed at the end. *)
Definition source_open_block : string := "a
  b".

(** A comment after the header of a block. *)
Definition source_comment_after_header : string := "if x: # c
  y
".

(** A comment after the last statement of a block. *)
Definition source_comment_at_end : string := "if x:
  y # c
".

(** The block of the two sources above, without the comment. *)
Definition source_block : string := "if x:
  y
".

(** A comment after a statement, at the end of the input. *)
Definition source_trailing_comment : string := "x # c".

(** The lexer in the middle of [x = 42 ], about to read the number. *)
Definition lexer_before_number : parse.Lexer :=
  parse.mkLexer 0 0 (token_type.Char "=") " 42 ".

(** The lexer at the end of [source_open_block], after [b]. *)
Definition lexer_after_b : parse.Lexer :=
  parse.mkLexer 1 0 (token_type.Id "b") "".

(** A class whose method [become] rebinds [self] and then returns 1. *)
Definition become : Method :=
  ast.mkMethod "become" ["other"]
    (ast.MethodBody
       (ast.Compound
          [ast.Assignment "self" (ast.VariableValue ["other"]);
           ast.Return (ast.NumericConst 1)])).
Definition Rebinder : Class := ast.mkClass "Rebinder" [become] None.

(** A class with [__init__(self, v)] and [__eq__(self, o)]. *)
Definition Box_init : Method :=
  ast.mkMethod "__init__" ["v"]
    (ast.MethodBody
       (ast.Compound
          [ast.FieldAssignment ["self"] "v" (ast.VariableValue ["v"])])).
Definition Box_eq : Method :=
  ast.mkMethod "__eq__" ["o"]
    (ast.MethodBody
       (ast.Compound
          [ast.Return
             (ast.Comparison ast.cmp_Equal
                (ast.VariableValue ["self"; "v"])
                (ast.VariableValue ["o"; "v"]))])).
Definition Box : Class := ast.mkClass "Box" [Box_init; Box_eq] None.

(** A class whose [__eq__] returns the Integer 2, and one instance of it. *)
Definition Always_eq : Method :=
  ast.mkMethod "__eq__" ["o"]
    (ast.MethodBody (ast.Compound [ast.Return (ast.NumericConst 2)])).
Definition Always : Class := ast.mkClass "Always" [Always_eq] None.
Definition world_Always : World := mkWorld [mkInstance Always ∅] "".

(** A subclass of [Box] with no method of its own. *)
Definition Derived : Class := ast.mkClass "Derived" [] (Some Box).

(** One instance of [Rebinder], at address 0. *)
Definition world_Rebinder : World := mkWorld [mkInstance Rebinder ∅] "".

(** The call scope of [become] called with 7, when the body is done. *)
Definition scope_after_become : Closure :=
  <["returned_value" := Some (runtime.Number 1)]>
    (<["self" := Some (runtime.Number 7)]>
       (<["other" := Some (runtime.Number 7)]>
          {["self" := Some (runtime.ClassInstance 0)]})).

(** Two instances of [Box], with [v] bound to 1 and to 2. *)
Definition world_Boxes : World :=
  mkWorld [mkInstance Box {["v" := Some (runtime.Number 1)]};
           mkInstance Box {["v" := Some (runtime.Number 2)]}] "".

(** [a] holds an instance that has no field: instance 0 has the field [a],
    bound to instance 1. *)
Definition world_chain : World :=
  mkWorld [mkInstance Rebinder {["a" := Some (runtime.ClassInstance 1)]};
           mkInstance Rebinder ∅] "".
Definition scope_x : Closure := {["x" := Some (runtime.ClassInstance 0)]}.

(** [world_chain] once [x.a.f] has been read. *)
Definition world_chain_read : World :=
  mkWorld [mkInstance Rebinder {["a" := Some (runtime.ClassInstance 1)]};
           mkInstance Rebinder {["f" := None]}] "".

(** The world after [Derived(3)] in the empty world. *)
Definition world_Derived_3 : World :=
  mkWorld [mkInstance Derived {["v" := Some (runtime.Number 3)]}] "".

(** [world_chain] once [x.a.f] and [x.b] have been read. *)
Definition world_chain_both : World :=
  mkWorld [mkInstance Rebinder
             (<["b" := None]> {["a" := Some (runtime.ClassInstance 1)]});
           mkInstance Rebinder {["f" := None]}] "".

(** [x = 1] followed by [x.f()], and by [x.f = 2]. *)
Definition call_on_number : Statement :=
  ast.Compound
    [ast.Assignment "x" (ast.NumericConst 1);
     ast.MethodCall (ast.VariableValue ["x"]) "f" []].
Definition field_of_number : Statement :=
  ast.Compound
    [ast.Assignment "x" (ast.NumericConst 1);
     ast.FieldAssignment ["x"] "f" (ast.NumericConst 2)].

(** The lexer after [x], before a byte no rule matches. *)
Definition lexer_before_dollar : parse.Lexer :=
  parse.mkLexer 0 0 (token_type.Id "x") " $".

(** The lexer at the start of a line of a block, before [return x1]. *)
Definition lexer_before_return : parse.Lexer :=
  parse.mkLexer 1 0 token_type.Newline "  return x1".

(** The lexer before a literal with an escaped quote in it, and before a
    literal that is not closed. *)
Definition lexer_before_literal : parse.Lexer :=
  parse.mkLexer 0 0 (token_type.Char "=") " 'it\'s' ".
Definition lexer_before_open_literal : parse.Lexer :=
  parse.mkLexer 0 0 (token_type.Char "=") " 'abc".

(** [scope_x] once [y = 1] has run in it. *)
Definition scope_x_y : Closure :=
  <["y" := Some (runtime.Number 1)]> scope_x.

(** The scope of a body that ran [y = 1] and then [return y]. *)
Definition scope_y : Closure := {["y" := Some (runtime.Number 1)]}.
Definition scope_y_returned : Closure :=
  <["returned_value" := Some (runtime.Number 1)]> scope_y.

(** The output of [print 1, 'a', None, True]. *)
Definition world_printed : World := mkWorld [] "1 a None True
".

(** ** Further definitions from the sources *)

(** [Token::index()]: the position of the alternative in [TokenBase]. *)
Definition Token_index (t : Token) : nat :=
  match t with
  | token_type.Number _ => 0 | token_type.Id _ => 1
  | token_type.Char _ => 2 | token_type.String _ => 3
  | token_type.Class => 4 | token_type.Return => 5
  | token_type.If => 6 | token_type.Else => 7
  | token_type.Def => 8 | token_type.Newline => 9
  | token_type.Print => 10 | token_type.Indent => 11
  | token_type.Dedent => 12 | token_type.And => 13
  | token_type.Or => 14 | token_type.Not => 15
  | token_type.Eq => 16 | token_type.NotEq => 17
  | token_type.LessOrEq => 18 | token_type.GreaterOrEq => 19
  | token_type.None => 20 | token_type.True => 21
  | token_type.False => 22 | token_type.Eof => 23
  end%nat.

(** [operator==(const Token &, const Token &)] of lexer.cpp.  [As<T>] on
    the right operand is reached only when both indices are equal. *)
Definition Token_eqb (lhs rhs : Token) : bool :=
  if negb (Nat.eqb (Token_index lhs) (Token_index rhs)) then false
  else
    match lhs, rhs with
    | token_type.Char a, token_type.Char b => Ascii.eqb a b
    | token_type.Number a, token_type.Number b => a =? b
    | token_type.String a, token_type.String b => String.eqb a b
    | token_type.Id a, token_type.Id b => String.eqb a b
    | _, _ => true
    end.

(** [operator!=(const Token &, const Token &)]. *)
Definition Token_neqb (lhs rhs : Token) : bool := negb (Token_eqb lhs rhs).

(** The indentation depth the tokens emitted so far amount to: the depth
    of the current line less the [Indent]/[Dedent] tokens still due. *)
Definition announced (lx : parse.Lexer) : Z :=
  parse.indent_ lx - parse.indent_diff_ lx.

(** What [NextToken] keeps true of the lexer, comments aside: the depth
    and the depth announced so far are not negative, and right after a
    [Newline] no [Indent] or [Dedent] is due. *)
Definition lexer_inv (lx : parse.Lexer) : Prop :=
  0 <= parse.indent_ lx
  /\ 0 <= announced lx
  /\ (parse.token_ lx = token_type.Newline -> parse.indent_diff_ lx = 0).

(** The stream is empty or ends with a line feed. *)
Fixpoint ends_with_newline (s : string) : bool :=
  match s with
  | EmptyString => true
  | String.String c r =>
      match r with
      | EmptyString => Ascii.eqb c parse.newline
      | _ => ends_with_newline r
      end
  end.

(** What [NextToken] keeps true when the source ends with a line feed:
    the rest of the stream ends with one too; the stream is exhausted only
    right after a [Newline] or at depth 0; and when [Eof] is reached every
    [Indent] has had its [Dedent]. *)
Definition lexer_end_inv (lx : parse.Lexer) : Prop :=
  ends_with_newline (parse.input_ lx) = true
  /\ (parse.input_ lx = "" ->
      parse.token_ lx = token_type.Newline \/ parse.indent_ lx = 0)
  /\ (parse.token_ lx = token_type.Eof -> announced lx = 0).

(** [w'] comes after [w]: every instance of [w] is still at its address,
    with its class, and the output of [w] is the start of the output of
    [w']. *)
Definition world_le (w w' : World) : Prop :=
  (forall p inst,
     instances w !! p = Some inst ->
     exists inst', instances w' !! p = Some inst'
                   /\ class_ inst' = class_ inst)
  /\ exists text, output w' = output w +:+ text.

(** [exec] only moves the world forward. *)
Definition moves_forward
  (exec : Statement -> Closure -> World
          -> Outcome (ObjectHolder * Closure * World)) : Prop :=
  forall s (c c' : Closure) w w' v,
    exec s c w = Ok (v, c', w') -> world_le w w'.

(** The text [Print] writes for a holder that is not a class instance. *)
Definition holder_text (h : ObjectHolder) : option string :=
  match h with
  | None => Some "None"
  | Some (runtime.Number v) => Some (pretty v)
  | Some (runtime.Bool v) => Some (if v then "True" else "False")
  | Some (runtime.String v) => Some v
  | Some (runtime.Class cls) => Some ("Class " +:+ GetName cls)
  | Some (runtime.ClassInstance _) => None
  end.

(** The value of a literal node. *)
Definition literal_value (s : Statement) : option ObjectHolder :=
  match s with
  | ast.NumericConst v => Some (Some (runtime.Number v))
  | ast.StringConst v => Some (Some (runtime.String v))
  | ast.BoolConst v => Some (Some (runtime.Bool v))
  | ast.None => Some None
  | _ => None
  end.

(** The texts, one blank between two of them. *)
Fixpoint join_spaces (texts : list string) : string :=
  match texts with
  | [] => ""
  | [t] => t
  | t :: ts => t +:+ " " +:+ join_spaces ts
  end.

(** The byte [c] does not occur in [s]. *)
Fixpoint absent (c : ascii) (s : string) : bool :=
  match s with
  | String.String c' r => negb (Ascii.eqb c' c) && absent c r
  | EmptyString => true
  end.

(** [s1] is what is left of [s2] after some bytes were read. *)
Definition rest_of (s1 s2 : string) : Prop := exists pre, s2 = pre +:+ s1.

(** The bytes [GetName] reads on. *)
Definition is_word_char (c : ascii) : bool :=
  Ascii.eqb c "_" || parse.isdigit c || parse.isalpha c.

Fixpoint all_word (s : string) : bool :=
  match s with
  | String.String c r => is_word_char c && all_word r
  | EmptyString => true
  end.

Definition no_word_ahead (s : string) : bool :=
  match s with
  | String.String c _ => negb (is_word_char c)
  | EmptyString => true
  end.

(** The bytes a name starts with: [isalpha(ch) || ch == '_']. *)
Definition word_start (c : ascii) : bool :=
  parse.isalpha c || Ascii.eqb c "_".

Definition starts_word (s : string) : bool :=
  match s with
  | String.String c _ => word_start c
  | EmptyString => false
  end.

(** The lexer is about to read a token that starts after [k] blanks: at
    the start of a line whose depth is the current one, or inside a line
    with no [Indent] or [Dedent] due. *)
Definition token_may_start (lx : parse.Lexer) (k : nat) : Prop :=
  parse.token_ lx <> token_type.Eof
  /\ ((parse.token_ lx = token_type.Newline
       /\ Z.of_nat k `quot` 2 = parse.indent_ lx)
      \/ (parse.token_ lx <> token_type.Newline
          /\ parse.indent_diff_ lx = 0)).

(** A literal body that [GetStrLiteral] reads back as [text]: the quote
    [q], the backslash, the line feed and the tab are written as escapes. *)
Fixpoint escape (q : ascii) (text : string) : string :=
  match text with
  | EmptyString => EmptyString
  | String.String c r =>
      if Ascii.eqb c parse.newline then
        String.String "\" (String.String "n" (escape q r))
      else if Ascii.eqb c parse.tab then
        String.String "\" (String.String "t" (escape q r))
      else if Ascii.eqb c q || Ascii.eqb c "\" then
        String.String "\" (String.String c (escape q r))
      else String.String c (escape q r)
  end.

(** ** Properties of the lexer *)

Section Lexer_facts.
Import parse.

Lemma skip_spaces_length s :
  (String.length (skip_spaces s).2 <= String.length s)%nat.
Proof.
  induction s as [|c r IH]; simpl; [lia|].
  destruct (Ascii.eqb c " "); simpl; [|lia].
  destruct (skip_spaces r); simpl in *; lia.
Qed.

Lemma ignore_line_length s :
  (String.length (ignore_line s) <= String.length s)%nat.
Proof.
  induction s as [|c r IH]; simpl; [lia|].
  destruct (Ascii.eqb c newline); simpl; lia.
Qed.

Lemma skip_spaces_peek s : peek (skip_spaces s).2 <> Some " "%char.
Proof.
  induction s as [|c r IH]; simpl; [done|].
  destruct (Ascii.eqb c " ") eqn:E.
  - destruct (skip_spaces r); simpl in *; done.
  - simpl. intros [= ->]. done.
Qed.

(** What [SkipUselessSymbols] stops at is not the start of a comment. *)
Lemma SkipUselessSymbols__peek fuel lx :
  (String.length (input_ lx) < fuel)%nat ->
  peek (input_ (SkipUselessSymbols_ fuel lx)) <> Some "#"%char.
Proof.
  revert lx. induction fuel as [|fuel IH]; intros lx Hlen; [lia|].
  simpl. pose proof (skip_spaces_length (input_ lx)) as Hsp.
  destruct (skip_spaces (input_ lx)) as [spaces rest] eqn:E. simpl in Hsp.
  destruct rest as [|c rest']; simpl; [done|].
  destruct (Ascii.eqb c "#") eqn:Ec.
  - apply IH. simpl. pose proof (ignore_line_length rest').
    destruct (Ascii.eqb c newline); simpl in *; lia.
  - destruct (Ascii.eqb c newline) eqn:En.
    + apply IH. simpl in *. lia.
    + simpl. intros [= ->]. done.
Qed.

Lemma SkipUselessSymbols_peek lx :
  peek (input_ (SkipUselessSymbols lx)) <> Some "#"%char.
Proof. apply SkipUselessSymbols__peek. lia. Qed.

(** More fuel than the length of the input changes nothing. *)
Lemma SkipUselessSymbols_fuel fuel lx :
  (String.length (input_ lx) < fuel)%nat ->
  SkipUselessSymbols_ fuel lx = SkipUselessSymbols lx.
Proof.
  unfold SkipUselessSymbols.
  remember (S (String.length (input_ lx))) as m eqn:Hm.
  assert (Hlt : (String.length (input_ lx) < m)%nat) by lia. clear Hm.
  revert lx m Hlt.
  induction fuel as [|fuel IH]; intros lx m Hm Hlen; [lia|].
  destruct m as [|m]; [lia|].
  simpl. pose proof (skip_spaces_length (input_ lx)) as Hsp.
  destruct (skip_spaces (input_ lx)) as [spaces rest] eqn:E. simpl in Hsp.
  destruct rest as [|c rest']; simpl; [done|].
  destruct (Ascii.eqb c "#").
  - pose proof (ignore_line_length rest').
    apply IH; simpl in *; destruct (Ascii.eqb c newline); simpl in *; lia.
  - destruct (Ascii.eqb c newline); [|done]. apply IH; simpl in *; lia.
Qed.

(** The fuel of [NextToken_] is never used up. *)
Lemma NextToken_fuel n lx : NextToken_ (S n) lx = NextToken lx.
Proof.
  unfold NextToken. simpl.
  destruct (bool_decide (token_ lx = token_type.Eof)); [done|].
  set (lx1 := if bool_decide (token_ lx = token_type.Newline)
              then SkipUselessSymbols lx else lx).
  destruct (negb (indent_diff_ lx1 =? 0)); [done|].
  destruct (skip_spaces (input_ lx1)).2 as [|ch rest] eqn:E; simpl; [done|].
  repeat (match goal with
          | |- (if ?b then _ else _) = (if ?b then _ else _) =>
              destruct b eqn:?; [try done|]
          end).
  - pose proof (SkipUselessSymbols_peek
                  (set_input (set_input lx1 (String.String ch rest))
                             (ignore_line rest))) as Hp.
    destruct (peek _) as [c|] eqn:Ec; [|done].
    destruct (Ascii.eqb c "#") eqn:Eh; [|done].
    apply Ascii.eqb_eq in Eh. subst c. done.
  - done.
Qed.

End Lexer_facts.

Section Numbers.
Import parse.

Lemma isdigit_not (d c : ascii) :
  isdigit d = true -> isdigit c = false -> Ascii.eqb d c = false.
Proof.
  intros Hd Hc. destruct (Ascii.eqb_spec d c) as [->|]; [congruence|done].
Qed.

Lemma skip_spaces_blanks k s :
  peek s <> Some " "%char -> skip_spaces (blanks k +:+ s) = (k, s).
Proof.
  intros Hs. induction k as [|k IH]; simpl.
  - destruct s as [|c r]; [done|]. simpl.
    destruct (Ascii.eqb_spec c " ") as [->|]; [by destruct Hs|done].
  - by rewrite IH.
Qed.

Lemma read_digits_app ds rest :
  all_digits ds = true -> no_digit_ahead rest = true ->
  read_digits (ds +:+ rest) = (ds, rest).
Proof.
  intros Hds Hrest. induction ds as [|d ds IH]; simpl in *.
  - destruct rest as [|c r]; [done|]. simpl in *.
    by destruct (isdigit c).
  - apply andb_prop in Hds as [-> Hds]. by rewrite IH.
Qed.

(** [SkipUselessSymbols] at the first byte of a line's text, and at the
    end of the stream. *)
Lemma SkipUselessSymbols_text lx k c s :
  input_ lx = blanks k +:+ String.String c s ->
  Ascii.eqb c " " = false -> Ascii.eqb c "#" = false ->
  Ascii.eqb c newline = false ->
  SkipUselessSymbols lx
  = mkLexer (Z.of_nat k `quot` 2) (Z.of_nat k `quot` 2 - indent_ lx)
            (token_ lx) (String.String c s).
Proof.
  intros Hin Hsp Hhash Hnl. unfold SkipUselessSymbols. simpl.
  rewrite Hin, skip_spaces_blanks.
  - simpl. by rewrite Hhash, Hnl.
  - simpl. intros [= ->]. done.
Qed.

Lemma SkipUselessSymbols_end lx :
  input_ lx = "" ->
  SkipUselessSymbols lx = mkLexer 0 (0 - indent_ lx) (token_ lx) "".
Proof. intros Hin. unfold SkipUselessSymbols. simpl. by rewrite Hin. Qed.

Lemma NextToken_Eof lx :
  token_ lx = token_type.Eof -> NextToken lx = Ok (token_type.Eof, lx).
Proof.
  intros H. unfold NextToken, NextToken_. by rewrite bool_decide_true.
Qed.

Lemma NextToken_indent lx :
  token_ lx <> token_type.Eof ->
  indent_diff_ (at_line lx) <> 0 ->
  NextToken lx = emit_from (Ok (GetIndentDedent (at_line lx))).
Proof.
  intros Hne Hd. unfold NextToken, NextToken_.
  rewrite bool_decide_false by done. fold (at_line lx).
  apply Z.eqb_neq in Hd. by rewrite Hd.
Qed.

Lemma NextToken_end lx :
  token_ lx <> token_type.Eof ->
  indent_diff_ (at_line lx) = 0 ->
  (skip_spaces (input_ (at_line lx))).2 = "" ->
  NextToken lx
  = emit (if is_block_token (token_ (at_line lx))
          then token_type.Eof else token_type.Newline)
         (set_input (at_line lx) "").
Proof.
  intros Hne Hd Hin. unfold NextToken, NextToken_.
  rewrite bool_decide_false by done. fold (at_line lx).
  rewrite Hd, Hin. cbn [Z.eqb negb input_ set_input token_].
  by destruct (is_block_token _).
Qed.

Lemma NextToken_digit lx ch rest :
  token_ lx <> token_type.Eof ->
  indent_diff_ (at_line lx) = 0 ->
  (skip_spaces (input_ (at_line lx))).2 = String.String ch rest ->
  isdigit ch = true ->
  NextToken lx
  = emit_from (GetNumber (set_input (at_line lx) (String.String ch rest))).
Proof.
  intros Hne Hd Hin Hch. unfold NextToken, NextToken_.
  rewrite bool_decide_false by done. fold (at_line lx).
  rewrite Hd, Hin. cbn [Z.eqb negb input_ set_input token_].
  by rewrite (isdigit_not ch newline Hch eq_refl), Hch.
Qed.

(** C7, as the code has it: a maximal run of decimal digits, read where a
    token may start (no [Indent] or [Dedent] due first), lexes to a
    [Number] token holding the value of the digits when that value fits
    the 32-bit [int] the token holds; when it does not, [std::stoi] throws
    [std::out_of_range] and no token is produced. *)
Theorem NextToken_Number lx k ds rest :
  token_ lx <> token_type.Eof ->
  (token_ lx = token_type.Newline /\ Z.of_nat k `quot` 2 = indent_ lx)
  \/ (token_ lx <> token_type.Newline /\ indent_diff_ lx = 0) ->
  input_ lx = blanks k +:+ ds +:+ rest ->
  ds <> "" -> all_digits ds = true -> no_digit_ahead rest = true ->
  (decimal 0 ds <= INT_MAX ->
     exists lx',
       NextToken lx = Ok (token_type.Number (decimal 0 ds), lx')
       /\ token_ lx' = token_type.Number (decimal 0 ds)
       /\ input_ lx' = rest)
  /\ (INT_MAX < decimal 0 ds -> NextToken lx = Throw (out_of_range "stoi")).
Proof.
  intros Hne Htok Hin Hds Hdig Hrest.
  pose proof (read_digits_app ds rest Hdig Hrest) as Hrd.
  destruct ds as [|d ds']; [done|]. simpl in Hdig.
  apply andb_prop in Hdig as [Hd Hds'].
  assert (Hsp : forall j, skip_spaces (blanks j +:+ String.String d ds' +:+ rest)
                 = (j, String.String d ds' +:+ rest)).
  { intros j. apply skip_spaces_blanks. simpl. intros [= ->]. done. }
  pose proof (isdigit_not d "#" Hd eq_refl) as Hhash.
  pose proof (isdigit_not d newline Hd eq_refl) as Hnl.
  assert (Hd0 : Ascii.eqb d " " = false) by (by apply isdigit_not).
  assert (Hat : at_line lx
                = mkLexer (indent_ (at_line lx)) 0 (token_ lx)
                          (blanks (if bool_decide (token_ lx = token_type.Newline)
                                   then 0 else k)
                           +:+ String.String d ds' +:+ rest)).
  { unfold at_line. destruct Htok as [[Ht Hk] | [Hn Hdiff]].
    - rewrite bool_decide_true by done.
      rewrite (SkipUselessSymbols_text lx k d (ds' +:+ rest)) by done.
      simpl. by rewrite Hk, Z.sub_diag, Ht.
    - rewrite bool_decide_false by done.
      destruct lx; simpl in *; by subst. }
  assert (Hstep : NextToken lx
                  = emit_from (GetNumber (set_input (at_line lx)
                                 (String.String d ds' +:+ rest)))).
  { apply NextToken_digit; [done| by rewrite Hat | | done].
    rewrite Hat. cbn [input_]. by rewrite Hsp. }
  rewrite Hstep. unfold GetNumber. cbn [input_ set_input].
  rewrite Hrd. unfold stoi.
  split; intros Hv.
  - apply Z.leb_le in Hv. rewrite Hv. simpl. eexists. split; [done|].
    by rewrite Hat.
  - apply Z.leb_gt in Hv. by rewrite Hv.
Qed.

End Numbers.

Section End_of_input.
Import parse.

Lemma advance_S n lx t lx1 ts lx2 :
  NextToken lx = Ok (t, lx1) -> advance n lx1 = Ok (ts, lx2) ->
  advance (S n) lx = Ok (t :: ts, lx2).
Proof. intros H1 H2. simpl. rewrite H1. simpl. by rewrite H2. Qed.

(** Once [Eof] is the current token, it stays. *)
Lemma advance_Eof n lx :
  token_ lx = token_type.Eof ->
  advance n lx = Ok (repeat token_type.Eof n, lx).
Proof.
  intros H. induction n as [|n IH]; [done|].
  eapply advance_S; [by apply NextToken_Eof | exact IH].
Qed.

(** At the end of the stream, after a [Dedent], the [Dedent] tokens still
    due come one by one, and [Eof] after them. *)
Lemma dedent_run k lx :
  input_ lx = "" -> token_ lx = token_type.Dedent ->
  indent_diff_ lx = - Z.of_nat k ->
  exists lx',
    advance (S k) lx = Ok (repeat token_type.Dedent k ++ [token_type.Eof], lx')
    /\ token_ lx' = token_type.Eof.
Proof.
  revert lx. induction k as [|k IH]; intros lx Hin Htok Hdiff;
    (assert (Hat : at_line lx = lx) by (unfold at_line; by rewrite Htok)).
  - eexists. split.
    + eapply advance_S; [|reflexivity].
      rewrite NextToken_end; rewrite ?Hat, ?Htok, ?Hin; done.
    + done.
  - destruct (IH (mkLexer (indent_ lx) (- Z.of_nat k) token_type.Dedent ""))
      as (lx' & Hadv & Hlx'); [done..|].
    exists lx'. split; [|done].
    eapply advance_S; [|exact Hadv].
    rewrite NextToken_indent; rewrite ?Hat, ?Htok, ?Hdiff; [|done|lia].
    unfold GetIndentDedent. rewrite Hdiff, Htok, Hin.
    replace (0 <? - Z.of_nat (S k)) with false by (symmetry; apply Z.ltb_ge; lia).
    simpl. replace (- Z.of_nat (S k) + 1) with (- Z.of_nat k) by lia. done.
Qed.

(** At the end of the stream, after a [Newline], one [Dedent] comes for
    each open level of indentation, and [Eof] after them. *)
Lemma newline_run k lx :
  input_ lx = "" -> token_ lx = token_type.Newline ->
  indent_ lx = Z.of_nat k ->
  exists lx',
    advance (S k) lx = Ok (repeat token_type.Dedent k ++ [token_type.Eof], lx')
    /\ token_ lx' = token_type.Eof.
Proof.
  intros Hin Htok Hind.
  assert (Hat : at_line lx = mkLexer 0 (- Z.of_nat k) token_type.Newline "").
  { unfold at_line. rewrite bool_decide_true by done.
    rewrite SkipUselessSymbols_end by done. rewrite Hind, Htok.
    f_equal. }
  destruct k as [|k].
  - eexists. split.
    + eapply advance_S; [|reflexivity].
      rewrite NextToken_end; rewrite ?Hat; simpl; try done.
      by rewrite Htok.
    + done.
  - destruct (dedent_run k (mkLexer 0 (- Z.of_nat k) token_type.Dedent ""))
      as (lx' & Hadv & Hlx'); [done..|].
    exists lx'. split; [|done].
    eapply advance_S; [|exact Hadv].
    rewrite NextToken_indent; rewrite ?Hat; simpl; [| by rewrite Htok | lia].
    unfold GetIndentDedent. cbn [indent_diff_].
    replace (0 <? - Z.of_nat (S k)) with false by (symmetry; apply Z.ltb_ge; lia).
    simpl. replace (- Z.of_nat (S k) + 1) with (- Z.of_nat k) by lia. done.
Qed.

(** C8, as the code has it.  The stream is exhausted and the lexer holds
    [k] open levels of indentation.  Once [Eof] is the current token every
    advance returns [Eof].  After a [Newline] the lexer emits one [Dedent]
    per open level and then [Eof] (so [Eof] at once when no level is
    open).  With no [Indent] or [Dedent] pending it emits [Eof] at once
    after an [Indent] or [Dedent]; after any other token it emits a
    synthetic [Newline], then one [Dedent] per open level, then [Eof].
    (The end of the stream met while a trailing comment is skipped is
    outside this statement.) *)
Theorem NextToken_end_of_input lx k :
  input_ lx = "" -> indent_ lx = Z.of_nat k ->
  (forall n lx0, token_ lx0 = token_type.Eof ->
     advance n lx0 = Ok (repeat token_type.Eof n, lx0))
  /\ (token_ lx = token_type.Newline ->
      exists lx',
        advance (S k) lx
        = Ok (repeat token_type.Dedent k ++ [token_type.Eof], lx')
        /\ token_ lx' = token_type.Eof)
  /\ (indent_diff_ lx = 0 ->
      token_ lx = token_type.Indent \/ token_ lx = token_type.Dedent ->
      NextToken lx = Ok (token_type.Eof, set_token lx token_type.Eof))
  /\ (indent_diff_ lx = 0 ->
      is_block_token (token_ lx) = false ->
      token_ lx <> token_type.Eof ->
      exists lx',
        advance (S (S k)) lx
        = Ok (token_type.Newline
                :: repeat token_type.Dedent k ++ [token_type.Eof], lx')
        /\ token_ lx' = token_type.Eof).
Proof.
  intros Hin Hind. split; [|split; [|split]].
  - intros n lx0. apply advance_Eof.
  - intros Htok. by apply newline_run.
  - intros Hdiff Htok.
    assert (Hat : at_line lx = lx).
    { unfold at_line. rewrite bool_decide_false; [done|].
      destruct Htok as [-> | ->]; done. }
    rewrite NextToken_end; rewrite ?Hat; try done.
    + replace (is_block_token (token_ lx)) with true
        by (destruct Htok as [-> | ->]; done).
      unfold emit. destruct lx; simpl in *; by subst.
    + destruct Htok as [-> | ->]; done.
    + by rewrite Hin.
  - intros Hdiff Hblock Hne.
    assert (Hnl : token_ lx <> token_type.Newline).
    { intros E. rewrite E in Hblock. done. }
    assert (Hat : at_line lx = lx).
    { unfold at_line. by rewrite bool_decide_false. }
    destruct (newline_run k (mkLexer (indent_ lx) 0 token_type.Newline ""))
      as (lx' & Hadv & Hlx'); [done..|].
    exists lx'. split; [|done].
    eapply advance_S; [|exact Hadv].
    rewrite NextToken_end; rewrite ?Hat; try done.
    + rewrite Hblock. unfold emit, set_token, set_input. simpl.
      by rewrite Hdiff.
    + by rewrite Hin.
Qed.

End End_of_input.

Section Lexer_samples.
Import parse.

Lemma NextToken_Number_witness :
  exists lx',
    NextToken lexer_before_number = Ok (token_type.Number 42, lx')
    /\ token_ lx' = token_type.Number 42
    /\ input_ lx' = " ".
Proof.
  apply (proj1 (NextToken_Number lexer_before_number 1 "42" " "
                  ltac:(done) ltac:(right; done) eq_refl ltac:(done)
                  eq_refl eq_refl)).
  done.
Defined.

(** C7 as stated fails: the digits of 2147483648 are a value that fits in
    64 bits, and lexing them throws instead of producing a token. *)
Lemma digit_run_beyond_int_throws :
  decimal 0 source_big_number = 2147483648
  /\ - 2 ^ 63 <= 2147483648 <= 2 ^ 63 - 1
  /\ tokens source_big_number = Throw (out_of_range "stoi").
Proof. split; [|split]; [reflexivity | lia | reflexivity]. Qed.

Lemma NextToken_end_of_input_witness :
  exists lx',
    advance 3 lexer_after_b
    = Ok ([token_type.Newline; token_type.Dedent; token_type.Eof], lx')
    /\ token_ lx' = token_type.Eof.
Proof.
  destruct (NextToken_end_of_input lexer_after_b 1 eq_refl eq_refl)
    as (_ & _ & _ & H).
  apply H; done.
Defined.

(** C8 as stated fails: at the end of [source_open_block] the stream is
    exhausted and the previous token is an identifier; the synthetic
    [Newline] is followed by [Dedent], not by [Eof]. *)
Lemma synthetic_Newline_then_Dedent :
  exists lx lx1 lx2,
    (lx0 ← new_Lexer source_open_block; advance 3 lx0)
    = Ok ([token_type.Newline; token_type.Indent; token_type.Id "b"], lx)
    /\ input_ lx = "" /\ token_ lx = token_type.Id "b"
    /\ NextToken lx = Ok (token_type.Newline, lx1)
    /\ NextToken lx1 = Ok (token_type.Dedent, lx2)
    /\ NextToken lx1 <> Ok (token_type.Eof, set_token lx1 token_type.Eof).
Proof.
  exists lexer_after_b. do 2 eexists.
  split; [reflexivity|]. split; [reflexivity|]. split; [reflexivity|].
  split; [reflexivity|]. split; [reflexivity|]. done.
Qed.

(** End of input met while a trailing comment is skipped: [Eof] comes at
    once, with no [Newline] after the identifier. *)
Lemma trailing_comment_skips_Newline :
  tokens source_trailing_comment = Ok [token_type.Id "x"; token_type.Eof].
Proof. reflexivity. Qed.

(** C9 fails on the code.  The sources are well-formed.  Without a comment
    the block lexes with one [Indent] and one [Dedent].  With a comment
    after the block header the lexer emits a [Dedent] where the block
    opens: the prefix of five tokens has more [Dedent] than [Indent]
    tokens.  With a comment after the last statement of the block the lexer
    emits [Eof] at once: the [Indent] is never matched by a [Dedent]. *)
Theorem comment_breaks_indent_balance :
  (well_formed_source source_block = true
   /\ tokens source_block
       = Ok [token_type.If; token_type.Id "x"; token_type.Char ":";
             token_type.Newline; token_type.Indent; token_type.Id "y";
             token_type.Newline; token_type.Dedent; token_type.Eof])
  /\ (well_formed_source source_comment_after_header = true
   /\ tokens source_comment_after_header
       = Ok [token_type.If; token_type.Id "x"; token_type.Char ":";
             token_type.Newline; token_type.Dedent; token_type.Id "y";
             token_type.Newline; token_type.Eof]
   /\ balance [token_type.If; token_type.Id "x"; token_type.Char ":";
               token_type.Newline; token_type.Dedent] = -1)
  /\ (well_formed_source source_comment_at_end = true
      /\ tokens source_comment_at_end
          = Ok [token_type.If; token_type.Id "x"; token_type.Char ":";
                token_type.Newline; token_type.Indent; token_type.Id "y";
                token_type.Eof]
      /\ balance (before_Eof
                    [token_type.If; token_type.Id "x"; token_type.Char ":";
                     token_type.Newline; token_type.Indent;
                     token_type.Id "y"; token_type.Eof]) = 1).
Proof. repeat split; reflexivity. Qed.

End Lexer_samples.

(** ** Properties of the evaluator *)

(** The [Number] of a literal or of a name is there when it is read. *)
Lemma reads_only_owner n s (c c' : Closure) (v v' : World) a :
  reads_only s = true ->
  Execute n s c v = Ok (Some (runtime.Number a), c', v') ->
  read (owner (Execute n) s c v) a = Ok a.
Proof.
  intros Hs He. destruct s; try discriminate Hs; try done.
  destruct n; [done|]. simpl in He. discriminate He.
Qed.

Section Arithmetic.

Variables (n : nat) (lhs rhs : Statement).
Variables (closure c1 c2 : Closure) (w w1 w2 : World) (l r : ObjectHolder).
Hypothesis Hl : Execute n lhs closure w = Ok (l, c1, w1).
Hypothesis Hr : Execute n rhs c1 w1 = Ok (r, c2, w2).

Lemma Number_operands_both a b :
  l = Some (runtime.Number a) -> r = Some (runtime.Number b) ->
  Number_operands (Execute n) lhs rhs closure w
  = Ok (Some (read (left_owner (Execute n) lhs rhs closure w) a,
              read (owner (Execute n) rhs c1 w1) b), c2, w2).
Proof.
  intros -> ->. unfold Number_operands. rewrite Hl. simpl. by rewrite Hr.
Qed.

Lemma Number_operands_other :
  (forall a b, ~ (l = Some (runtime.Number a) /\ r = Some (runtime.Number b))) ->
  Number_operands (Execute n) lhs rhs closure w = Ok (None, c2, w2).
Proof.
  intros H. unfold Number_operands. rewrite Hl. simpl. rewrite Hr. simpl.
  destruct l as [[]|], r as [[]|]; try done.
  by destruct (H value value0).
Qed.

Lemma reads_only_left_owner a :
  reads_only lhs = true -> reads_only rhs = true ->
  l = Some (runtime.Number a) ->
  read (left_owner (Execute n) lhs rhs closure w) a = Ok a.
Proof.
  intros Hlhs Hrhs ->. pose proof (reads_only_owner _ _ _ _ _ _ _ Hlhs Hl) as H.
  unfold left_owner. rewrite Hrhs.
  by destruct (owner (Execute n) lhs closure w).
Qed.

Lemma quot_truncates a b :
  b <> 0 ->
  Z.abs (a `quot` b) * Z.abs b <= Z.abs a
  < Z.abs (a `quot` b) * Z.abs b + Z.abs b.
Proof.
  intros Hb. rewrite <- Z.quot_abs by done.
  assert (0 < Z.abs b) by lia.
  rewrite Z.quot_div_nonneg by lia.
  pose proof (Z.div_mod (Z.abs a) (Z.abs b)).
  pose proof (Z.mod_pos_bound (Z.abs a) (Z.abs b)).
  nia.
Qed.

(** C4, as the code has it.  Both operands are evaluated, left then right.
    Unless both values are Integers the node raises a runtime error.  With
    operands that are literals or names, whose Integers the node, the
    closure or a field keeps while the node reads them, a division by zero
    raises a runtime error, and otherwise the result is the exact
    difference, product or quotient (truncated toward zero) whenever that
    number fits the 32-bit [int] an Integer holds. *)
Theorem arithmetic_Execute :
  ((forall a b,
      ~ (l = Some (runtime.Number a) /\ r = Some (runtime.Number b))) ->
   Execute (S n) (ast.Sub lhs rhs) closure w
   = Throw (runtime_error "Incorrect subtraction")
   /\ Execute (S n) (ast.Mult lhs rhs) closure w
      = Throw (runtime_error "Incorrect multiplication")
   /\ Execute (S n) (ast.Div lhs rhs) closure w
      = Throw (runtime_error "Incorrect division"))
  /\ (forall a b,
        l = Some (runtime.Number a) -> r = Some (runtime.Number b) ->
        reads_only lhs = true -> reads_only rhs = true ->
        (in_int (a - b) = true ->
         Execute (S n) (ast.Sub lhs rhs) closure w
         = Ok (Some (runtime.Number (a - b)), c2, w2))
        /\ (in_int (a * b) = true ->
            Execute (S n) (ast.Mult lhs rhs) closure w
            = Ok (Some (runtime.Number (a * b)), c2, w2))
        /\ (b = 0 ->
            Execute (S n) (ast.Div lhs rhs) closure w
            = Throw (runtime_error "Incorrect division"))
        /\ (b <> 0 -> in_int (a `quot` b) = true ->
            Execute (S n) (ast.Div lhs rhs) closure w
            = Ok (Some (runtime.Number (a `quot` b)), c2, w2)
            /\ Z.abs (a `quot` b) * Z.abs b <= Z.abs a
               < Z.abs (a `quot` b) * Z.abs b + Z.abs b)).
Proof.
  split.
  - intros H. pose proof (Number_operands_other H) as E.
    simpl. rewrite E. done.
  - intros a b Ha Hb Hlhs Hrhs.
    pose proof (Number_operands_both a b Ha Hb) as E.
    rewrite (reads_only_left_owner a Hlhs Hrhs Ha) in E.
    subst r. rewrite (reads_only_owner _ _ _ _ _ _ _ Hrhs Hr) in E.
    simpl. rewrite E. simpl. unfold int_result.
    split; [by intros ->|]. split; [by intros ->|]. split; [by intros ->|].
    intros Hb0 Hq. split; [|by apply quot_truncates].
    apply Z.eqb_neq in Hb0. rewrite Hb0. simpl. by rewrite Hq.
Qed.

End Arithmetic.

Section Scopes.

Lemma bind_Ok {A B} (m : Outcome A) (f : A -> Outcome B) b :
  m ≫= f = Ok b -> exists a, m = Ok a /\ f a = Ok b.
Proof. destruct m; try done. intros H. eauto. Qed.

Ltac invert_Ok :=
  repeat match goal with
    | H : Ok _ = Ok _ |- _ => injection H as H; subst
    | H : Throw _ = Ok _ |- _ => discriminate H
    | H : UB = Ok _ |- _ => discriminate H
    | H : Diverge = Ok _ |- _ => discriminate H
    | H : Undetermined = Ok _ |- _ => discriminate H
    | H : (_ ≫= _) = Ok _ |- _ =>
        let a := fresh "a" in
        let E := fresh "E" in
        apply bind_Ok in H as (a & E & H); try destruct a as [[? ?] ?]
    | H : (match ?x with _ => _ end) = Ok _ |- _ => destruct x eqn:?
    | H : (let '(_, _) := ?x in _) = Ok _ |- _ => destruct x eqn:?
    end.

Lemma insert_is_Some (c : Closure) k k' v :
  is_Some (c !! k) -> is_Some (<[k' := v]> c !! k).
Proof.
  intros H. destruct (decide (k' = k)) as [->|Hne].
  - rewrite lookup_insert_eq. eauto.
  - by rewrite lookup_insert_ne.
Qed.

Lemma bind_params_is_Some params args (c : Closure) k :
  is_Some (c !! k) -> is_Some (bind_params c params args !! k).
Proof.
  revert args c. induction params as [|p params IH]; intros [|a args] c H;
    simpl; try done.
  apply IH. by apply insert_is_Some.
Qed.

Variable exec :
  Statement -> Closure -> World -> Outcome (ObjectHolder * Closure * World).
Hypothesis exec_keeps : keeps_names exec.

Lemma Execute_args_keeps args (c c' : Closure) w w' vs k :
  Execute_args exec args c w = Ok (vs, c', w') ->
  is_Some (c !! k) -> is_Some (c' !! k).
Proof.
  revert c w vs. induction args as [|a args IH]; intros c w vs H Hk;
    simpl in H; invert_Ok; eauto.
Qed.

Lemma Print_args_keeps args (c c' : Closure) w w' k :
  Print_args exec args c w = Ok (c', w') ->
  is_Some (c !! k) -> is_Some (c' !! k).
Proof.
  revert c w. induction args as [|a args IH]; intros c w H Hk;
    simpl in H; invert_Ok; eauto.
Qed.

Lemma Compound_loop_keeps sts (c c' : Closure) w w' k :
  Compound_loop exec sts c w = Ok (c', w') ->
  is_Some (c !! k) -> is_Some (c' !! k).
Proof.
  revert c w. induction sts as [|st sts IH]; intros c w H Hk;
    simpl in H; invert_Ok; eauto.
Qed.

Lemma Execute_step_keeps : keeps_names (Execute_step exec).
Proof.
  intros s c c' w w' v k H Hk.
  destruct s; simpl in H; unfold VariableValue_Execute, Number_operands in H;
    invert_Ok;
    eauto using insert_is_Some, Execute_args_keeps, Print_args_keeps,
                Compound_loop_keeps.
Qed.

End Scopes.


Lemma Execute_keeps n : keeps_names (Execute n).
Proof.
  induction n as [|n IH]; [by intros s c c' w w' v k H|].
  by apply Execute_step_keeps.
Qed.

Section Method_call.

Variables (n this : nat) (inst : Instance) (method : string) (m : Method).
Variables (args : list ObjectHolder) (w w' : World).
Variables (res : ObjectHolder) (closure' : Closure).
Hypothesis Hinst : instances w !! this = Some inst.
Hypothesis Hm : GetMethod (class_ inst) method = Some m.
Hypothesis Harity : length (formal_params m) = length args.
Hypothesis Hbody :
  Execute n (body m)
    (bind_params {["self" := Some (runtime.ClassInstance this)]}
                 (formal_params m) args) w
  = Ok (res, closure', w').

(** C1.  The method exists with the right number of parameters and its
    body ran to [res], leaving the call scope [closure'].  Then [self] is
    still bound in that scope; if the holder it is bound to does not refer
    to the receiver the call returns that holder, and otherwise the call
    returns the value of the body. *)
Theorem Call_self_rebinding :
  exists self,
    closure' !! "self" = Some self
    /\ (self <> Some (runtime.ClassInstance this) ->
        Call (Execute n) this method args w = Ok (self, w'))
    /\ (self = Some (runtime.ClassInstance this) ->
        Call (Execute n) this method args w = Ok (res, w')).
Proof.
  assert (Hhas : HasMethod (class_ inst) method (length args) = true).
  { unfold HasMethod. rewrite Hm. by apply bool_decide_eq_true. }
  destruct (Execute_keeps n _ _ _ _ _ _ "self" Hbody) as [self Hself].
  { apply bind_params_is_Some. by rewrite lookup_singleton_eq. }
  exists self. split; [done|].
  unfold Call. rewrite Hinst, Hhas, Hm. cbn [negb]. rewrite Hbody.
  simpl. unfold at_. rewrite Hself. simpl.
  split.
  - intros Hne. destruct self as [[| | | |p]|]; simpl; try done.
    rewrite bool_decide_false; [done|]. by intros ->.
  - intros ->. simpl. by rewrite bool_decide_true.
Qed.

End Method_call.

Section Comparisons.

Variable n : nat.

Lemma Z_eqb_decide a b : (a =? b) = bool_decide (a = b).
Proof.
  destruct (Z.eqb_spec a b);
    [by rewrite bool_decide_true | by rewrite bool_decide_false].
Qed.

Lemma String_eqb_decide a b : String.eqb a b = bool_decide (a = b).
Proof.
  destruct (String.eqb_spec a b);
    [by rewrite bool_decide_true | by rewrite bool_decide_false].
Qed.

Lemma Bool_eqb_decide a b : Bool.eqb a b = bool_decide (a = b).
Proof. by destruct a, b. Qed.

(** C2.  [Equal] is true on two empty holders and compares the values of
    two Bools, two Integers or two Strings.  For a class instance whose
    class has [__eq__] with one parameter it calls that method on the right
    operand: it is true exactly when the method returned the Bool [True],
    an Integer other than 0 or a String that is not empty, false for
    anything else returned, and it raises what the method raises.  On
    every other pair of operands it raises a runtime error.  On two empty
    holders each of [Less], [Greater], [LessOrEqual], [GreaterOrEqual]
    raises. *)
Theorem Equal_cases (w : World) :
  Equal (Execute n) None None w = Ok (true, w)
  /\ (forall a b,
        Equal (Execute n) (Some (runtime.Bool a)) (Some (runtime.Bool b)) w
        = Ok (bool_decide (a = b), w))
  /\ (forall a b,
        Equal (Execute n) (Some (runtime.Number a))
              (Some (runtime.Number b)) w
        = Ok (bool_decide (a = b), w))
  /\ (forall a b,
        Equal (Execute n) (Some (runtime.String a))
              (Some (runtime.String b)) w
        = Ok (bool_decide (a = b), w))
  /\ (forall this inst rhs,
        instances w !! this = Some inst ->
        HasMethod (class_ inst) "__eq__" 1 = true ->
        (forall r w',
           Call (Execute n) this "__eq__" [rhs] w = Ok (r, w') ->
           exists b,
             Equal (Execute n) (Some (runtime.ClassInstance this)) rhs w
             = Ok (b, w')
             /\ (b = true <->
                 r = Some (runtime.Bool true)
                 \/ (exists k, r = Some (runtime.Number k) /\ k <> 0)
                 \/ (exists t, r = Some (runtime.String t) /\ t <> "")))
        /\ (forall e,
              Call (Execute n) this "__eq__" [rhs] w = Throw e ->
              Equal (Execute n) (Some (runtime.ClassInstance this)) rhs w
              = Throw e))
  /\ (forall lhs rhs,
        ~ (lhs = None /\ rhs = None) ->
        ~ same_primitive_kind lhs rhs ->
        ~ overloads w lhs "__eq__" ->
        live w lhs ->
        Equal (Execute n) lhs rhs w
        = Throw (runtime_error "Equality operator is not applicable"))
  /\ (raises (Less (Execute n) None None w)
      /\ raises (Greater (Execute n) None None w)
      /\ raises (LessOrEqual (Execute n) None None w)
      /\ raises (GreaterOrEqual (Execute n) None None w)).
Proof.
  split; [done|].
  split; [intros a b; simpl; by rewrite Bool_eqb_decide|].
  split; [intros a b; simpl; by rewrite Z_eqb_decide|].
  split; [intros a b; simpl; by rewrite String_eqb_decide|].
  split.
  { intros this inst rhs Hinst Hhas.
    assert (HE : Equal (Execute n) (Some (runtime.ClassInstance this)) rhs w
                 = '(r, w') ← Call (Execute n) this "__eq__" [rhs] w;
                   Ok (IsTrue r, w')).
    { unfold Equal. rewrite Hinst, Hhas. by destruct rhs. }
    split; [|intros e Hcall; by rewrite HE, Hcall].
    intros r w' Hcall. exists (IsTrue r).
    split; [by rewrite HE, Hcall|].
    destruct r as [[k|b|t|c|p]|]; simpl.
    - rewrite negb_true_iff, Z.eqb_neq. split.
      + intros Hk. right. left. eauto.
      + intros [H|[(k' & H & Hk)|(t & H & _)]]; try discriminate H.
        by injection H as ->.
    - split.
      + intros ->. by left.
      + intros [H|[(k' & H & _)|(t & H & _)]]; try discriminate H.
        by injection H as ->.
    - rewrite negb_true_iff. split.
      + intros Ht. right. right. exists t. split; [done|].
        intros ->. by rewrite String.eqb_refl in Ht.
      + intros [H|[(k' & H & _)|(t' & H & Ht)]]; try discriminate H.
        injection H as <-. by apply String.eqb_neq.
    - split; [done|].
      intros [H|[(k' & H & _)|(t & H & _)]]; discriminate H.
    - split; [done|].
      intros [H|[(k' & H & _)|(t & H & _)]]; discriminate H.
    - split; [done|].
      intros [H|[(k' & H & _)|(t & H & _)]]; discriminate H. }
  split.
  { intros lhs rhs Hnone Hkind Hover Hlive. unfold Equal.
    destruct lhs as [[a|a|a|c|this]|].
    - destruct rhs as [[]|]; try done.
      destruct Hkind. right. left. eauto.
    - destruct rhs as [[]|]; try done.
      destruct Hkind. left. eauto.
    - destruct rhs as [[]|]; try done.
      destruct Hkind. right. right. eauto.
    - by destruct rhs.
    - destruct (Hlive this eq_refl) as [inst Hinst]. rewrite Hinst.
      destruct (HasMethod (class_ inst) "__eq__" 1) eqn:Hhas.
      + destruct Hover. by exists this, inst.
      + by destruct rhs.
    - destruct rhs; [done|]. by destruct Hnone. }
  repeat split; eexists; reflexivity.
Qed.

(** C3.  [NotEqual] is the negation of [Equal]; [Greater] calls [Equal],
    then [Less], and is true when both are false; [LessOrEqual] is the
    negation of [Greater] and [GreaterOrEqual] the negation of [Less].
    [Greater] raises as soon as [Equal] raises, and also when [Less]
    raises after [Equal] returned, whatever [Equal] returned. *)
Theorem derived_comparisons (lhs rhs : ObjectHolder) (w : World) :
  (forall e w1,
     Equal (Execute n) lhs rhs w = Ok (e, w1) ->
     NotEqual (Execute n) lhs rhs w = Ok (negb e, w1))
  /\ (forall e w1 l w2,
        Equal (Execute n) lhs rhs w = Ok (e, w1) ->
        Less (Execute n) lhs rhs w1 = Ok (l, w2) ->
        Greater (Execute n) lhs rhs w = Ok (negb l && negb e, w2)
        /\ LessOrEqual (Execute n) lhs rhs w
           = Ok (negb (negb l && negb e), w2))
  /\ (forall l w1,
        Less (Execute n) lhs rhs w = Ok (l, w1) ->
        GreaterOrEqual (Execute n) lhs rhs w = Ok (negb l, w1))
  /\ (raises (Equal (Execute n) lhs rhs w) ->
      raises (Greater (Execute n) lhs rhs w))
  /\ (forall e w1,
        Equal (Execute n) lhs rhs w = Ok (e, w1) ->
        raises (Less (Execute n) lhs rhs w1) ->
        raises (Greater (Execute n) lhs rhs w)).
Proof.
  split; [|split; [|split; [|split]]].
  - intros e w1 He. unfold NotEqual. by rewrite He.
  - intros e w1 l w2 He Hl. unfold LessOrEqual, Greater.
    rewrite He. simpl. rewrite Hl. simpl.
    by rewrite (andb_comm (negb e)).
  - intros l w1 Hl. unfold GreaterOrEqual. by rewrite Hl.
  - intros [x Hx]. exists x. unfold Greater. by rewrite Hx.
  - intros e w1 He [x Hx]. exists x. unfold Greater.
    rewrite He. simpl. by rewrite Hx.
Qed.

End Comparisons.

Section Instances.

Variable n : nat.

Lemma set_fields_same ptr inst w :
  instances w !! ptr = Some inst -> set_fields ptr (fields_ inst) w = w.
Proof.
  intros H. unfold set_fields. rewrite H.
  destruct w as [l out], inst as [c f]. simpl in *. f_equal.
  by apply list_insert_id.
Qed.

(** Fields that exist are walked through without any change. *)
Lemma walk_fields_reaches w obj path this rest :
  reaches w obj path this ->
  walk_fields obj (path ++ rest) w
  = walk_fields (Some (runtime.ClassInstance this)) rest w.
Proof.
  induction 1 as [this inst Hinst | ptr inst id h path this Hinst Hf _ IH];
    [done|].
  simpl. rewrite Hinst. unfold index. rewrite Hf.
  by rewrite set_fields_same.
Qed.

(** C10.  The chain [x.path.field]: [x] is bound, the fields of [path]
    exist and hold class instances, the last of them the instance at
    [this], which has no field [field].  Evaluation returns the empty
    holder and leaves [field] bound to the empty holder in that
    instance. *)
Theorem VariableValue_absent_field x obj path field this inst
  (closure : Closure) (w : World) :
  closure !! x = Some obj ->
  reaches w obj path this ->
  instances w !! this = Some inst ->
  fields_ inst !! field = None ->
  let w' := set_fields this (<[field := None]> (fields_ inst)) w in
  Execute (S n) (ast.VariableValue (x :: path ++ [field])) closure w
  = Ok (None, closure, w')
  /\ instances w' !! this
     = Some (mkInstance (class_ inst) (<[field := None]> (fields_ inst)))
  /\ <[field := None]> (fields_ inst) !! field = Some None.
Proof.
  intros Hx Hpath Hinst Hfield w'. split; [|split].
  - simpl. unfold VariableValue_Execute, count, at_. rewrite Hx.
    rewrite bool_decide_true by eauto. simpl.
    rewrite (walk_fields_reaches w obj path this [field] Hpath).
    simpl. rewrite Hinst. unfold index. by rewrite Hfield.
  - subst w'. unfold set_fields. rewrite Hinst. simpl.
    apply list_lookup_insert_eq. by eapply lookup_lt_Some.
  - apply lookup_insert_eq.
Qed.

(** C5.  A [NewInstance] node allocates an instance of the class with no
    field, at an address not in use.  If [GetMethod] finds no [__init__],
    or one whose number of parameters is not the number of arguments,
    the node evaluates to the new instance and nothing else happens: the
    arguments are not evaluated.  Otherwise the arguments are evaluated in
    order and [__init__] is called on the new instance with their values;
    the node evaluates to what the call returns if that is not the empty
    holder, and to the new instance if it is.  [GetMethod] looks among the
    methods of the class first and in its parent after. *)
Theorem NewInstance_Execute cls args (closure : Closure) (w : World) :
  let ptr := length (instances w) in
  let w0 := mkWorld (instances w ++ [mkInstance cls ∅]) (output w) in
  instances w !! ptr = None
  /\ instances w0 !! ptr = Some (mkInstance cls ∅)
  /\ ((forall m, GetMethod cls "__init__" = Some m ->
                 length (formal_params m) <> length args) ->
      Execute (S n) (ast.NewInstance cls args) closure w
      = Ok (Some (runtime.ClassInstance ptr), closure, w0))
  /\ (forall m actual c1 w1 r w2,
        GetMethod cls "__init__" = Some m ->
        length (formal_params m) = length args ->
        Execute_args (Execute n) args closure w0 = Ok (actual, c1, w1) ->
        Call (Execute n) ptr "__init__" actual w1 = Ok (r, w2) ->
        Execute (S n) (ast.NewInstance cls args) closure w
        = Ok (match r with
              | Some _ => r
              | None => Some (runtime.ClassInstance ptr)
              end, c1, w2))
  /\ (forall nm methods parent x,
        GetMethod (ast.mkClass nm methods (Some parent)) x
        = match name_to_method methods x with
          | Some m => Some m
          | None => GetMethod parent x
          end).
Proof.
  intros ptr w0. split; [|split; [|split; [|split]]]; [| | | |done].
  - by apply lookup_ge_None.
  - subst ptr w0. simpl. by rewrite lookup_app_r, Nat.sub_diag.
  - intros Hno. simpl. fold ptr. fold w0.
    destruct (GetMethod cls "__init__") as [m|] eqn:Hm; [|done].
    rewrite bool_decide_false; [done|]. by apply Hno.
  - intros m actual c1 w1 r w2 Hm Harity Hargs Hcall.
    simpl. fold ptr. fold w0. rewrite Hm.
    rewrite bool_decide_true by done. simpl.
    rewrite Hargs. simpl. rewrite Hcall. simpl. by destruct r.
Qed.

(** A method call on a value that is not a class instance, and an
    assignment to a field of such a value, dereference a null pointer. *)
Lemma MethodCall_non_instance object method args (closure c1 c2 : Closure)
  (w w1 w2 : World) vs obj :
  Execute_args (Execute n) args closure w = Ok (vs, c1, w1) ->
  Execute n object c1 w1 = Ok (obj, c2, w2) ->
  (forall ptr, obj <> Some (runtime.ClassInstance ptr)) ->
  Execute (S n) (ast.MethodCall object method args) closure w = UB.
Proof.
  intros Hargs Hobj Hno. simpl. rewrite Hargs. simpl. rewrite Hobj. simpl.
  destruct obj as [[| | | |ptr]|]; try done. by destruct (Hno ptr).
Qed.

Lemma FieldAssignment_non_instance ids field rv (closure c1 : Closure)
  (w w1 : World) obj :
  VariableValue_Execute ids closure w = Ok (obj, c1, w1) ->
  (forall ptr, obj <> Some (runtime.ClassInstance ptr)) ->
  Execute (S n) (ast.FieldAssignment ids field rv) closure w = UB.
Proof.
  intros Hobj Hno. simpl. rewrite Hobj. simpl.
  destruct obj as [[| | | |ptr]|]; try done. by destruct (Hno ptr).
Qed.

End Instances.

Section Evaluator_samples.

Lemma Call_self_rebinding_witness :
  Call (Execute 5) 0 "become" [Some (runtime.Number 7)] world_Rebinder
  = Ok (Some (runtime.Number 7), world_Rebinder).
Proof.
  destruct (Call_self_rebinding 5 0 (mkInstance Rebinder ∅) "become"
              become [Some (runtime.Number 7)] world_Rebinder
              world_Rebinder (Some (runtime.Number 1)) scope_after_become
              eq_refl eq_refl eq_refl ltac:(vm_compute; reflexivity))
    as (self & Hself & Hrebound & _).
  vm_compute in Hself. injection Hself as <-.
  apply Hrebound. discriminate.
Defined.

Lemma Equal_cases_witness :
  Equal (Execute 5) (Some (runtime.ClassInstance 0))
        (Some (runtime.ClassInstance 0)) world_Boxes
  = Ok (true, world_Boxes)
  /\ Equal (Execute 5) (Some (runtime.ClassInstance 0))
           (Some (runtime.ClassInstance 1)) world_Boxes
     = Ok (false, world_Boxes)
  /\ Equal (Execute 5) (Some (runtime.ClassInstance 0)) None world_Always
     = Ok (true, world_Always)
  /\ Equal (Execute 5) (Some (runtime.Number 1))
           (Some (runtime.String "a")) world_Boxes
     = Throw (runtime_error "Equality operator is not applicable").
Proof.
  destruct (Equal_cases 5 world_Boxes)
    as (_ & _ & _ & _ & Hinst & Hother & _).
  destruct (Equal_cases 5 world_Always) as (_ & _ & _ & _ & Hinst' & _).
  split; [|split; [|split]].
  - destruct (Hinst 0%nat (mkInstance Box {["v" := Some (runtime.Number 1)]})
                (Some (runtime.ClassInstance 0)) eq_refl eq_refl)
      as [Hcall _].
    destruct (Hcall (Some (runtime.Bool true)) world_Boxes
                ltac:(vm_compute; reflexivity)) as (b & -> & Hb).
    assert (b = true) as -> by (apply Hb; left; reflexivity).
    reflexivity.
  - destruct (Hinst 0%nat (mkInstance Box {["v" := Some (runtime.Number 1)]})
                (Some (runtime.ClassInstance 1)) eq_refl eq_refl)
      as [Hcall _].
    destruct (Hcall (Some (runtime.Bool false)) world_Boxes
                ltac:(vm_compute; reflexivity)) as (b & -> & Hb).
    destruct b; [|reflexivity].
    destruct (proj1 Hb eq_refl) as [H|[(k & H & _)|(t & H & _)]];
      discriminate H.
  - destruct (Hinst' 0%nat (mkInstance Always ∅) None eq_refl eq_refl)
      as [Hcall _].
    destruct (Hcall (Some (runtime.Number 2)) world_Always
                ltac:(vm_compute; reflexivity)) as (b & -> & Hb).
    assert (b = true) as ->.
    { apply Hb. right. left. exists 2. split; [reflexivity | discriminate]. }
    reflexivity.
  - apply Hother.
    + intros [? _]. discriminate.
    + intros [(a & b & ? & _) | [(a & b & _ & ?) | (a & b & ? & _)]];
        discriminate.
    + intros (this & inst & ? & _). discriminate.
    + intros this ?. discriminate.
Defined.

Lemma derived_comparisons_witness :
  Greater (Execute 5) (Some (runtime.Number 1)) (Some (runtime.Number 2))
          empty_world
  = Ok (false, empty_world)
  /\ LessOrEqual (Execute 5) (Some (runtime.Number 1))
                 (Some (runtime.Number 2)) empty_world
     = Ok (true, empty_world).
Proof.
  destruct (derived_comparisons 5 (Some (runtime.Number 1))
              (Some (runtime.Number 2)) empty_world)
    as (_ & Hgreater & _).
  apply (Hgreater false empty_world true empty_world); reflexivity.
Defined.

Lemma arithmetic_Execute_witness :
  Execute 2 (ast.Div (ast.NumericConst 7) (ast.NumericConst (-2)))
          ∅ empty_world
  = Ok (Some (runtime.Number (-3)), ∅, empty_world).
Proof.
  destruct (arithmetic_Execute 1 (ast.NumericConst 7)
              (ast.NumericConst (-2)) ∅ ∅ ∅ empty_world empty_world
              empty_world (Some (runtime.Number 7))
              (Some (runtime.Number (-2))) eq_refl eq_refl)
    as (_ & Hnum).
  destruct (Hnum 7 (-2) eq_refl eq_refl eq_refl eq_refl)
    as (_ & _ & _ & Hdiv).
  apply Hdiv; [lia | reflexivity].
Defined.

(** C4 as stated fails: both operands are Integers, no error is raised,
    and the result is not the exact product, which no [int] holds. *)
Lemma product_beyond_int :
  Execute 1 (ast.NumericConst 65536) ∅ empty_world
  = Ok (Some (runtime.Number 65536), ∅, empty_world)
  /\ Execute 2 (ast.Mult (ast.NumericConst 65536) (ast.NumericConst 65536))
             ∅ empty_world
     = UB
  /\ Execute 2 (ast.Mult (ast.NumericConst 65536) (ast.NumericConst 65536))
             ∅ empty_world
     <> Ok (Some (runtime.Number (65536 * 65536)), ∅, empty_world).
Proof. split; [reflexivity|]. split; [reflexivity|]. discriminate. Qed.

Lemma NewInstance_Execute_witness :
  Execute 6 (ast.NewInstance Derived [ast.NumericConst 3]) ∅ empty_world
  = Ok (Some (runtime.ClassInstance 0), ∅, world_Derived_3).
Proof.
  destruct (NewInstance_Execute 5 Derived [ast.NumericConst 3] ∅ empty_world)
    as (_ & _ & _ & Hinit & _).
  apply (Hinit Box_init [Some (runtime.Number 3)] ∅
               (mkWorld [mkInstance Derived ∅] "") None world_Derived_3);
    [reflexivity | reflexivity | reflexivity | vm_compute; reflexivity].
Defined.

Lemma VariableValue_absent_field_witness :
  Execute 1 (ast.VariableValue ["x"; "a"; "f"]) scope_x world_chain
  = Ok (None, scope_x, world_chain_read).
Proof.
  destruct (VariableValue_absent_field 0 "x"
              (Some (runtime.ClassInstance 0)) ["a"] "f" 1
              (mkInstance Rebinder ∅) scope_x world_chain)
    as (H & _); [reflexivity | | reflexivity | reflexivity | exact H].
  eapply reaches_field; [reflexivity | reflexivity |].
  eapply reaches_here. reflexivity.
Defined.

(** C6 fails on the code: [x = 1] followed by [x.f()], or by [x.f = 2],
    raises nothing; the null pointer that [TryAs<ClassInstance>] returns
    is dereferenced. *)
Theorem non_instance_dereferenced n :
  Execute (3 + n) call_on_number ∅ empty_world = UB
  /\ ~ raises (Execute (3 + n) call_on_number ∅ empty_world)
  /\ Execute (3 + n) field_of_number ∅ empty_world = UB
  /\ ~ raises (Execute (3 + n) field_of_number ∅ empty_world).
Proof.
  assert (H1 : Execute (3 + n) call_on_number ∅ empty_world = UB)
    by reflexivity.
  assert (H2 : Execute (3 + n) field_of_number ∅ empty_world = UB)
    by reflexivity.
  rewrite H1, H2. repeat split; try intros [e He]; discriminate.
Qed.

End Evaluator_samples.


(** ** Further properties of the lexer *)

Section Token_equality.

(** X1.  [operator==] on tokens is equality of tokens (same alternative and
    same payload), and [operator!=] is its negation. *)
Theorem Token_eqb_spec (lhs rhs : Token) :
  (Token_eqb lhs rhs = true <-> lhs = rhs)
  /\ Token_neqb lhs rhs = negb (Token_eqb lhs rhs).
Proof.
  split; [|done]. unfold Token_eqb.
  destruct lhs, rhs; simpl; try (split; [discriminate | done]);
    try (split; done).
  - rewrite Z.eqb_eq. split; [by intros -> | by intros [= ->]].
  - rewrite String.eqb_eq. split; [by intros -> | by intros [= ->]].
  - rewrite Ascii.eqb_eq. split; [by intros -> | by intros [= ->]].
  - rewrite String.eqb_eq. split; [by intros -> | by intros [= ->]].
Qed.

End Token_equality.

Section Skipping.
Import parse.

Lemma append_cons c s t :
  String.String c s +:+ t = String.String c (s +:+ t).
Proof. reflexivity. Qed.

Lemma append_assoc s t u : s +:+ t +:+ u = (s +:+ t) +:+ u.
Proof.
  induction s as [|c s IH]; [done|]. rewrite !append_cons. by f_equal.
Qed.

Lemma rest_of_refl s : rest_of s s.
Proof. by exists EmptyString. Qed.

Lemma rest_of_trans s1 s2 s3 : rest_of s1 s2 -> rest_of s2 s3 -> rest_of s1 s3.
Proof.
  intros [p1 ->] [p2 ->]. exists (p2 +:+ p1). apply append_assoc.
Qed.

Lemma rest_of_cons c s : rest_of s (String.String c s).
Proof. by exists (String.String c EmptyString). Qed.

Lemma skip_spaces_rest s : rest_of (skip_spaces s).2 s.
Proof.
  induction s as [|c r IH]; simpl; [apply rest_of_refl|].
  destruct (Ascii.eqb c " "); simpl; [|apply rest_of_refl].
  destruct (skip_spaces r) as [k rest]. simpl in *.
  eapply rest_of_trans; [exact IH | apply rest_of_cons].
Qed.

Lemma ignore_line_rest s : rest_of (ignore_line s) s.
Proof.
  induction s as [|c r IH]; simpl; [apply rest_of_refl|].
  destruct (Ascii.eqb c newline); [apply rest_of_cons|].
  eapply rest_of_trans; [exact IH | apply rest_of_cons].
Qed.

Lemma SkipUselessSymbols__stops fuel lx :
  (String.length (input_ lx) < fuel)%nat ->
  let lx' := SkipUselessSymbols_ fuel lx in
  peek (input_ lx') <> Some " "%char
  /\ peek (input_ lx') <> Some "#"%char
  /\ peek (input_ lx') <> Some newline
  /\ 0 <= indent_ lx'
  /\ indent_diff_ lx' = indent_ lx' - indent_ lx
  /\ token_ lx' = token_ lx
  /\ rest_of (input_ lx') (input_ lx).
Proof.
  revert lx. induction fuel as [|fuel IH]; intros lx Hlen; [lia|].
  simpl. pose proof (skip_spaces_length (input_ lx)) as Hsp.
  pose proof (skip_spaces_peek (input_ lx)) as Hbl.
  pose proof (skip_spaces_rest (input_ lx)) as Hrest.
  destruct (skip_spaces (input_ lx)) as [spaces rest] eqn:E.
  simpl in Hsp, Hbl, Hrest.
  assert (Hq : 0 <= Z.of_nat spaces `quot` 2) by (apply Z.quot_pos; lia).
  destruct rest as [|c rest']; simpl.
  { repeat split; try done. }
  destruct (Ascii.eqb c "#") eqn:Ec.
  - pose proof (ignore_line_length rest').
    pose proof (ignore_line_rest (String.String c rest')) as Hig.
    destruct (IH (set_input lx (ignore_line (String.String c rest'))))
      as (H1 & H2 & H3 & H4 & H5 & H6 & H7).
    { simpl. destruct (Ascii.eqb c newline); simpl in *; lia. }
    repeat split; try done.
    eapply rest_of_trans; [exact H7|]. simpl.
    eapply rest_of_trans; [exact Hig | exact Hrest].
  - destruct (Ascii.eqb c newline) eqn:En.
    + destruct (IH (set_input lx rest')) as (H1 & H2 & H3 & H4 & H5 & H6 & H7).
      { simpl in *. lia. }
      repeat split; try done.
      eapply rest_of_trans; [exact H7|]. simpl.
      eapply rest_of_trans; [apply rest_of_cons | exact Hrest].
    + simpl. repeat split; try done.
      * intros [= ->]. done.
      * intros [= ->]. done.
Qed.

Lemma SkipUselessSymbols_post lx :
  let lx' := SkipUselessSymbols lx in
  peek (input_ lx') <> Some " "%char
  /\ peek (input_ lx') <> Some "#"%char
  /\ peek (input_ lx') <> Some newline
  /\ 0 <= indent_ lx'
  /\ indent_diff_ lx' = indent_ lx' - indent_ lx
  /\ token_ lx' = token_ lx
  /\ rest_of (input_ lx') (input_ lx).
Proof. apply SkipUselessSymbols__stops. lia. Qed.

(** X2.  [SkipUselessSymbols] stops at the end of the stream or at a byte
    that is neither a blank, a [#] nor a line feed; what it leaves is a
    suffix of the stream; the depth it records is not negative, the
    pending difference is that depth less the depth before, and the
    current token is untouched. *)
Theorem SkipUselessSymbols_stops lx :
  let lx' := SkipUselessSymbols lx in
  peek (input_ lx') <> Some " "%char
  /\ peek (input_ lx') <> Some "#"%char
  /\ peek (input_ lx') <> Some newline
  /\ 0 <= indent_ lx'
  /\ indent_diff_ lx' = indent_ lx' - indent_ lx
  /\ token_ lx' = token_ lx
  /\ rest_of (input_ lx') (input_ lx).
Proof. apply SkipUselessSymbols_post. Qed.

End Skipping.

Section Lexer_errors.
Import parse.

Lemma comparison_symbol_cases ch :
  ch ∈ comparison_symbols ->
  ch = "="%char \/ ch = "!"%char \/ ch = "<"%char \/ ch = ">"%char.
Proof.
  unfold comparison_symbols. intros H.
  repeat (apply elem_of_cons in H as [->|H]; [tauto|]).
  by apply elem_of_nil in H.
Qed.

(** Where [NextToken] calls [GetCompOperator] the two bytes are one of the
    four operators. *)
Lemma GetCompOperator_Ok lx ch rest :
  input_ lx = String.String ch rest ->
  ch ∈ comparison_symbols -> peek rest = Some "="%char ->
  exists t, GetCompOperator lx = Ok (t, set_input lx (ignore rest)).
Proof.
  intros Hin Hch Hpeek. destruct rest as [|c rest']; [done|].
  simpl in Hpeek. injection Hpeek as ->.
  unfold GetCompOperator. rewrite Hin.
  destruct (comparison_symbol_cases ch Hch) as [->|[->|[->| ->]]];
    simpl; eauto.
Qed.

(** X3.  The only exceptions [NextToken] throws are the [LexerError] for a
    byte no rule matches, the [std::out_of_range] of [std::stoi], and the
    exception of the string that can grow no more, this one only at a
    literal whose closing quote is missing.  The [LexerError] of
    [GetCompOperator] is never thrown, because [GetCompOperator] is called
    only on the two bytes of an operator, and [std::stoi] always gets at
    least one digit. *)
Theorem NextToken_exceptions lx e :
  NextToken lx = Throw e ->
  e = LexerError "Error occurred in token generation process"
  \/ e = out_of_range "stoi"
  \/ (e = bad_alloc
      /\ exists q body,
           (q = "'"%char \/ q = double_quote)
           /\ (skip_spaces (input_ (at_line lx))).2 = String.String q body
           /\ read_literal q body "" = Datatypes.None).
Proof.
  unfold NextToken, NextToken_.
  destruct (bool_decide (token_ lx = token_type.Eof)); [done|].
  fold (at_line lx). set (lx1 := at_line lx).
  destruct (negb (indent_diff_ lx1 =? 0)).
  { simpl. by destruct (GetIndentDedent lx1). }
  destruct (skip_spaces (input_ lx1)).2 as [|ch rest] eqn:E;
    cbn [input_ set_input token_].
  { by destruct (is_block_token _). }
  destruct (Ascii.eqb ch newline); [done|].
  destruct (isdigit ch) eqn:Hd.
  { unfold GetNumber. cbn [input_ set_input read_digits]. rewrite Hd.
    destruct (read_digits rest) as [ds r]. unfold stoi.
    destruct (_ <=? _); simpl; [done|]. intros [= <-]. right. by left. }
  destruct (Ascii.eqb ch "'" || Ascii.eqb ch double_quote) eqn:Hq.
  { unfold GetStrLiteral. cbn [input_ set_input].
    destruct (read_literal ch rest EmptyString) as [[text r]|] eqn:Hlit;
      [done|].
    intros [= <-]. right. right. split; [done|]. exists ch, rest.
    split; [|done].
    apply orb_prop in Hq as [Hq|Hq]; apply Ascii.eqb_eq in Hq; auto. }
  clear Hq.
  destruct (Ascii.eqb ch "#").
  { destruct (peek _) as [a|]; [|done]. by destruct (Ascii.eqb a "#"). }
  destruct (_ && _); [done|].
  destruct (bool_decide (ch ∈ comparison_symbols) && _) eqn:Hc.
  { apply andb_prop in Hc as [Hc Hp].
    apply bool_decide_eq_true in Hc, Hp.
    destruct (GetCompOperator_Ok (set_input lx1 (String.String ch rest))
                ch rest eq_refl Hc Hp) as [t ->]. done. }
  destruct (_ || _).
  { by destruct (GetName _) as [t l]. }
  destruct (bool_decide (ch ∈ special_symbols));
    [intros H; discriminate H|].
  intros [= <-]. by left.
Qed.

End Lexer_errors.

Section Lexemes.
Import parse.

(** The state after the start of the line is handled, when a token starts
    with the byte [c] after [k] blanks. *)
Lemma at_line_text lx k c s :
  token_may_start lx k ->
  input_ lx = blanks k +:+ String.String c s ->
  Ascii.eqb c " " = false -> Ascii.eqb c "#" = false ->
  Ascii.eqb c newline = false ->
  indent_diff_ (at_line lx) = 0
  /\ (skip_spaces (input_ (at_line lx))).2 = String.String c s
  /\ token_ (at_line lx) = token_ lx
  /\ indent_ (at_line lx) = indent_ lx.
Proof.
  intros [Hne Htok] Hin Hsp Hhash Hnl.
  assert (Hskip : forall j, skip_spaces (blanks j +:+ String.String c s)
                            = (j, String.String c s)).
  { intros j. apply skip_spaces_blanks. simpl. intros [= ->]. done. }
  unfold at_line. destruct Htok as [[Ht Hk] | [Hn Hdiff]].
  - rewrite bool_decide_true by done.
    rewrite (SkipUselessSymbols_text lx k c s) by done.
    cbn [indent_diff_ input_ token_ indent_].
    rewrite (Hskip O : skip_spaces (String.String c s) = _).
    by rewrite Hk, Z.sub_diag.
  - rewrite bool_decide_false by done. by rewrite Hin, Hskip.
Qed.

Lemma word_start_not c c0 :
  word_start c = true -> word_start c0 = false -> Ascii.eqb c c0 = false.
Proof.
  intros Hc Hc0. destruct (Ascii.eqb_spec c c0) as [->|]; [congruence|done].
Qed.

Lemma word_start_not_digit c : word_start c = true -> isdigit c = false.
Proof.
  unfold word_start, isalpha, isdigit. intros H.
  apply orb_prop in H as [H|H].
  - apply orb_prop in H as [H|H]; apply andb_prop in H as [H1 H2];
      apply Nat.leb_le in H1, H2; apply andb_false_iff;
      right; apply Nat.leb_gt; lia.
  - apply Ascii.eqb_eq in H. by subst c.
Qed.

Lemma word_start_not_comparison c :
  word_start c = true -> bool_decide (c ∈ comparison_symbols) = false.
Proof.
  intros H. apply bool_decide_eq_false. intros Hin.
  destruct (comparison_symbol_cases c Hin) as [->|[->|[->| ->]]]; done.
Qed.

Lemma NextToken_name lx ch rest :
  token_ lx <> token_type.Eof ->
  indent_diff_ (at_line lx) = 0 ->
  (skip_spaces (input_ (at_line lx))).2 = String.String ch rest ->
  word_start ch = true ->
  NextToken lx
  = emit_from (Ok (GetName (set_input (at_line lx) (String.String ch rest)))).
Proof.
  intros Hne Hd Hin Hch. unfold NextToken, NextToken_.
  rewrite bool_decide_false by done. fold (at_line lx).
  rewrite Hd, Hin. cbn [Z.eqb negb input_ set_input token_].
  rewrite (word_start_not ch newline Hch eq_refl).
  rewrite (word_start_not_digit ch Hch).
  rewrite (word_start_not ch "'" Hch eq_refl).
  rewrite (word_start_not ch double_quote Hch eq_refl).
  rewrite (word_start_not ch "#" Hch eq_refl).
  rewrite (word_start_not ch "=" Hch eq_refl).
  rewrite (word_start_not_comparison ch Hch).
  cbn [orb andb]. fold (word_start ch). by rewrite Hch.
Qed.

Lemma read_word_app w rest :
  all_word w = true -> no_word_ahead rest = true ->
  read_word (w +:+ rest) = (w, rest).
Proof.
  intros Hw Hrest. induction w as [|c w IH].
  - destruct rest as [|c r]; [done|]. simpl in *.
    unfold is_word_char in Hrest. by destruct (_ || _).
  - simpl in Hw. apply andb_prop in Hw as [Hc Hw].
    rewrite append_cons. simpl. unfold is_word_char in Hc.
    rewrite Hc. by rewrite IH.
Qed.

(** X4.  A name (a letter or [_], then letters, digits and [_], as far as
    they go) read where a token may start lexes to the keyword token of
    [keyword_to_token] when it is one of the reserved words, and to
    [Id] with the name itself otherwise; the stream is left right after
    the name. *)
Theorem NextToken_word lx k w rest :
  token_may_start lx k ->
  input_ lx = blanks k +:+ w +:+ rest ->
  starts_word w = true -> all_word w = true -> no_word_ahead rest = true ->
  exists lx',
    NextToken lx = Ok (default (token_type.Id w) (keyword_to_token !! w), lx')
    /\ token_ lx' = default (token_type.Id w) (keyword_to_token !! w)
    /\ input_ lx' = rest.
Proof.
  intros Hmay Hin Hstart Hw Hrest.
  pose proof (read_word_app w rest Hw Hrest) as Hrd.
  destruct w as [|c w']; [done|]. simpl in Hstart.
  rewrite append_cons in Hin.
  destruct (at_line_text lx k c (w' +:+ rest) Hmay Hin)
    as (Hd & Hsk & _ & _);
    [by apply word_start_not..|].
  rewrite (NextToken_name lx c (w' +:+ rest)) by (done || apply Hmay).
  unfold GetName. cbn [input_ set_input]. rewrite <- append_cons, Hrd.
  destruct (keyword_to_token !! String.String c w') as [t|]; simpl; eauto.
Qed.

End Lexemes.

Section Literals.
Import parse.

Lemma NextToken_quote lx q rest :
  token_ lx <> token_type.Eof ->
  indent_diff_ (at_line lx) = 0 ->
  (skip_spaces (input_ (at_line lx))).2 = String.String q rest ->
  q = "'"%char \/ q = double_quote ->
  NextToken lx
  = emit_from (GetStrLiteral (set_input (at_line lx) (String.String q rest))).
Proof.
  intros Hne Hd Hin Hq. unfold NextToken, NextToken_.
  rewrite bool_decide_false by done. fold (at_line lx).
  rewrite Hd, Hin. cbn [Z.eqb negb input_ set_input token_].
  by destruct Hq as [-> | ->].
Qed.

Lemma read_literal_plain q c r acc :
  Ascii.eqb c q = false -> Ascii.eqb c "\" = false ->
  read_literal q (String.String c r) acc
  = read_literal q r (acc +:+ String.String c "").
Proof. intros Hq Hb. cbn [read_literal]. by rewrite Hq, Hb. Qed.

Lemma read_literal_backslash q e r acc :
  read_literal q (String.String "\" (String.String e r)) acc
  = read_literal q r
      (acc +:+ String.String (if Ascii.eqb e "n" then newline
                              else if Ascii.eqb e "t" then tab else e) "").
Proof.
  cbn [read_literal]. rewrite (Ascii.eqb_refl "\"). cbn [negb].
  by rewrite andb_false_r.
Qed.

Lemma read_literal_close q r acc :
  Ascii.eqb q "\" = false ->
  read_literal q (String.String q r) acc = Some (acc, r).
Proof.
  intros Hb. cbn [read_literal]. by rewrite Ascii.eqb_refl, Hb.
Qed.

Lemma append_nil_r s : s +:+ "" = s.
Proof. induction s as [|c s IH]; [done|]. rewrite append_cons. by f_equal. Qed.

Lemma read_literal_escape q text rest acc :
  q = "'"%char \/ q = double_quote ->
  read_literal q (escape q text +:+ String.String q rest) acc
  = Some (acc +:+ text, rest).
Proof.
  intros Hq.
  assert (Hqb : Ascii.eqb q "\" = false) by (by destruct Hq as [-> | ->]).
  revert acc. induction text as [|c text IH]; intros acc.
  - cbn [escape]. change ("" +:+ String.String q rest)
      with (String.String q rest).
    by rewrite read_literal_close, append_nil_r.
  - assert (Hstep : forall acc', (acc' +:+ String.String c "") +:+ text
                                 = acc' +:+ String.String c text).
    { intros acc'. by rewrite <- append_assoc. }
    cbn [escape]. destruct (Ascii.eqb c newline) eqn:En.
    { apply Ascii.eqb_eq in En. subst c. rewrite !append_cons.
      rewrite read_literal_backslash. cbn [Ascii.eqb Bool.eqb].
      rewrite IH. by rewrite Hstep. }
    destruct (Ascii.eqb c tab) eqn:Et.
    { apply Ascii.eqb_eq in Et. subst c. rewrite !append_cons.
      rewrite read_literal_backslash. cbn [Ascii.eqb Bool.eqb].
      rewrite IH. by rewrite Hstep. }
    destruct (Ascii.eqb c q || Ascii.eqb c "\") eqn:Es.
    + rewrite !append_cons. rewrite read_literal_backslash.
      assert (Ascii.eqb c "n" = false /\ Ascii.eqb c "t" = false) as [-> ->].
      { apply orb_prop in Es as [E|E]; apply Ascii.eqb_eq in E; subst c;
          [by destruct Hq as [-> | ->] | done]. }
      rewrite IH. by rewrite Hstep.
    + apply orb_false_elim in Es as [Eq Eb].
      rewrite append_cons. rewrite read_literal_plain by done.
      rewrite IH. by rewrite Hstep.
Qed.

(** Without the closing quote the loop of [GetStrLiteral] goes on. *)
Lemma read_literal_open q :
  forall n s acc, (String.length s <= n)%nat -> absent q s = true ->
                  read_literal q s acc = None.
Proof.
  induction n as [|n IH]; intros s acc Hlen Habs.
  - destruct s; [done | simpl in Hlen; lia].
  - destruct s as [|c r]; [done|]. simpl in Hlen, Habs.
    apply andb_prop in Habs as [Hc Habs]. apply negb_true_iff in Hc.
    cbn [read_literal]. rewrite Hc. cbn [negb andb].
    destruct (Ascii.eqb c "\") eqn:Eb; cbn [negb].
    + destruct r as [|e r']; [done|]. simpl in Hlen, Habs.
      apply andb_prop in Habs as [_ Habs]. apply IH; [lia|done].
    + apply IH; [lia|done].
Qed.

(** X5.  Every text has a literal that lexes back to it: the text between
    two quotes of one kind, with that quote, the backslash, the line feed
    and the tab written as backslash escapes, read where a token may
    start, gives a [String] token holding the text, and the stream is left
    right after the closing quote. *)
Theorem NextToken_literal lx k q text rest :
  token_may_start lx k ->
  q = "'"%char \/ q = double_quote ->
  input_ lx
  = blanks k +:+ String.String q (escape q text +:+ String.String q rest) ->
  exists lx',
    NextToken lx = Ok (token_type.String text, lx')
    /\ token_ lx' = token_type.String text
    /\ input_ lx' = rest.
Proof.
  intros Hmay Hq Hin.
  destruct (at_line_text lx k q _ Hmay Hin) as (Hd & Hsk & _ & _);
    [by destruct Hq as [-> | ->]..|].
  rewrite (NextToken_quote lx q _) by (done || apply Hmay).
  unfold GetStrLiteral. cbn [input_ set_input].
  rewrite read_literal_escape by done. simpl. eauto.
Qed.

(** X6.  A literal whose opening quote never comes again in the stream
    produces no token: the loop of [GetStrLiteral] has no exit at the end
    of the stream, where [get] returns EOF again and again and each one is
    appended to the text, until the string can grow no more and throws. *)
Theorem NextToken_unterminated lx k q body :
  token_may_start lx k ->
  q = "'"%char \/ q = double_quote ->
  input_ lx = blanks k +:+ String.String q body ->
  absent q body = true ->
  NextToken lx = Throw bad_alloc.
Proof.
  intros Hmay Hq Hin Habs.
  destruct (at_line_text lx k q _ Hmay Hin) as (Hd & Hsk & _ & _);
    [by destruct Hq as [-> | ->]..|].
  rewrite (NextToken_quote lx q _) by (done || apply Hmay).
  unfold GetStrLiteral. cbn [input_ set_input].
  by rewrite (read_literal_open q (String.length body) body "").
Qed.

End Literals.

Section Indentation.
Import parse.

Lemma absent_app c pre s : absent c (pre +:+ s) = true -> absent c s = true.
Proof.
  induction pre as [|a pre IH]; [done|]. rewrite append_cons. simpl.
  intros H. apply andb_prop in H as [_ H]. by apply IH.
Qed.

Lemma absent_rest c s1 s2 :
  rest_of s1 s2 -> absent c s2 = true -> absent c s1 = true.
Proof. intros [pre ->]. apply absent_app. Qed.

Lemma absent_peek c s : absent c s = true -> peek s <> Some c.
Proof.
  destruct s as [|a r]; [done|]. simpl. intros H [= ->].
  by rewrite Ascii.eqb_refl in H.
Qed.

Lemma read_digits_rest s : rest_of (read_digits s).2 s.
Proof.
  induction s as [|c r IH]; simpl; [apply rest_of_refl|].
  destruct (isdigit c); [|apply rest_of_refl].
  destruct (read_digits r) as [ds rest]. simpl in *.
  eapply rest_of_trans; [exact IH | apply rest_of_cons].
Qed.

Lemma read_word_rest s : rest_of (read_word s).2 s.
Proof.
  induction s as [|c r IH]; simpl; [apply rest_of_refl|].
  destruct (_ || _); [|apply rest_of_refl].
  destruct (read_word r) as [w rest]. simpl in *.
  eapply rest_of_trans; [exact IH | apply rest_of_cons].
Qed.

Lemma read_literal_rest q :
  forall n s acc text rest,
    (String.length s <= n)%nat ->
    read_literal q s acc = Some (text, rest) -> rest_of rest s.
Proof.
  induction n as [|n IH]; intros s acc text rest Hlen H.
  - destruct s; [done | simpl in Hlen; lia].
  - destruct s as [|c r]; [done|]. simpl in Hlen. cbn [read_literal] in H.
    destruct (negb (Ascii.eqb c q) && negb (Ascii.eqb c "\")).
    + eapply rest_of_trans; [|apply rest_of_cons].
      eapply IH; [|exact H]. lia.
    + destruct (Ascii.eqb c "\").
      * destruct r as [|e r']; [done|]. simpl in Hlen.
        eapply rest_of_trans; [|apply rest_of_cons].
        eapply rest_of_trans; [|apply rest_of_cons].
        eapply IH; [|exact H]. lia.
      * injection H as _ <-. apply rest_of_cons.
Qed.

(** The values of [keyword_to_token] are the twelve keyword tokens. *)
Lemma keyword_token w t :
  keyword_to_token !! w = Some t ->
  t <> token_type.Indent /\ t <> token_type.Dedent
  /\ t <> token_type.Newline /\ t <> token_type.Eof.
Proof.
  intros H. apply elem_of_list_to_map_2 in H.
  repeat (apply elem_of_cons in H as [[= _ ->]|H];
          [repeat split; discriminate|]).
  by apply elem_of_nil in H.
Qed.

(** A token read inside a line, comments aside: the depth is kept, nothing
    becomes due, the token is neither [Indent] nor [Dedent], and the
    stream moves on. *)
Lemma NextToken_in_line lx t lx' :
  token_ lx <> token_type.Eof ->
  indent_diff_ (at_line lx) = 0 ->
  peek (skip_spaces (input_ (at_line lx))).2 <> Some "#"%char ->
  NextToken lx = Ok (t, lx') ->
  indent_ lx' = indent_ (at_line lx)
  /\ indent_diff_ lx' = 0
  /\ t <> token_type.Indent /\ t <> token_type.Dedent
  /\ token_ lx' = t
  /\ rest_of (input_ lx') (input_ (at_line lx)).
Proof.
  intros Hne Hd Hcom. unfold NextToken, NextToken_.
  rewrite bool_decide_false by done. fold (at_line lx).
  set (lx1 := at_line lx) in *. rewrite Hd. cbn [Z.eqb negb].
  pose proof (skip_spaces_rest (input_ lx1)) as Hrest.
  destruct (skip_spaces (input_ lx1)).2 as [|ch rest] eqn:E;
    cbn [input_ set_input token_].
  { destruct (is_block_token _); intros [= <- <-]; by repeat split. }
  assert (Hrest' : rest_of rest (input_ lx1)).
  { eapply rest_of_trans; [apply rest_of_cons | exact Hrest]. }
  destruct (Ascii.eqb ch newline).
  { intros [= <- <-]; by repeat split. }
  destruct (isdigit ch) eqn:Hdg.
  { unfold GetNumber. cbn [input_ set_input].
    pose proof (read_digits_rest (String.String ch rest)) as Hr.
    destruct (read_digits (String.String ch rest)) as [ds r].
    destruct (stoi ds) as [v| | | |]; simpl; try done.
    intros [= <- <-]. repeat split; try done.
    eapply rest_of_trans; [exact Hr | exact Hrest]. }
  destruct (_ || _).
  { unfold GetStrLiteral. cbn [input_ set_input].
    destruct (read_literal ch rest EmptyString) as [[text r]|] eqn:El;
      simpl; [|done].
    intros [= <- <-]. repeat split; try done.
    eapply rest_of_trans; [|exact Hrest'].
    by eapply (read_literal_rest ch (String.length rest)). }
  destruct (Ascii.eqb ch "#") eqn:Eh.
  { apply Ascii.eqb_eq in Eh. subst ch. by destruct Hcom. }
  destruct (_ && _).
  { intros [= <- <-]; by repeat split. }
  destruct (bool_decide (ch ∈ comparison_symbols) && _) eqn:Hc.
  { apply andb_prop in Hc as [Hc Hp].
    apply bool_decide_eq_true in Hc, Hp.
    destruct (GetCompOperator_Ok (set_input lx1 (String.String ch rest))
                ch rest eq_refl Hc Hp) as [t' Ht'].
    rewrite Ht'. simpl. intros [= <- <-].
    assert (Hk : t' <> token_type.Indent /\ t' <> token_type.Dedent).
    { revert Ht'. unfold GetCompOperator. cbn [input_ set_input].
      destruct rest as [|b r]; [done|].
      repeat (destruct (String.eqb _ _); [by intros [= <-]|]). done. }
    destruct Hk. repeat split; try done.
    eapply rest_of_trans; [|exact Hrest'].
    destruct rest; [apply rest_of_refl | apply rest_of_cons]. }
  destruct (_ || _).
  { unfold GetName. cbn [input_ set_input].
    pose proof (read_word_rest (String.String ch rest)) as Hr.
    destruct (read_word (String.String ch rest)) as [w r].
    assert (Hr' : rest_of r (input_ lx1))
      by (eapply rest_of_trans; [exact Hr | exact Hrest]).
    destruct (keyword_to_token !! w) as [kw|] eqn:Ek; simpl;
      intros [= <- <-]; [|by repeat split].
    destruct (keyword_token w kw Ek) as (? & ? & _). by repeat split. }
  destruct (bool_decide (ch ∈ special_symbols)); [|done].
  intros [= <- <-]; by repeat split.
Qed.

Lemma balance_cons t ts : balance (t :: ts) = balance [t] + balance ts.
Proof. destruct t; simpl; lia. Qed.

Lemma balance_other t :
  t <> token_type.Indent -> t <> token_type.Dedent -> balance [t] = 0.
Proof. by destruct t. Qed.

(** The start of a line keeps the invariant and the announced depth. *)
Lemma at_line_inv lx :
  lexer_inv lx ->
  0 <= indent_ (at_line lx)
  /\ announced (at_line lx) = announced lx
  /\ token_ (at_line lx) = token_ lx
  /\ rest_of (input_ (at_line lx)) (input_ lx).
Proof.
  intros (Hind & Hann & Hnl). unfold at_line.
  destruct (bool_decide_reflect (token_ lx = token_type.Newline)) as [Ht|Ht].
  - destruct (SkipUselessSymbols_post lx) as (_ & _ & _ & H1 & H2 & H3 & H4).
    repeat split; try done. unfold announced. rewrite H2, (Hnl Ht). lia.
  - repeat split; try done. apply rest_of_refl.
Qed.

Lemma NextToken_step_inv lx t lx' :
  lexer_inv lx -> absent "#" (input_ lx) = true ->
  NextToken lx = Ok (t, lx') ->
  lexer_inv lx' /\ absent "#" (input_ lx') = true
  /\ token_ lx' = t
  /\ announced lx' = announced lx + balance [t].
Proof.
  intros Hinv Habs Hstep.
  destruct (decide (token_ lx = token_type.Eof)) as [Heof|Hne].
  { rewrite NextToken_Eof in Hstep by done. injection Hstep as <- <-.
    repeat split; try apply Hinv; try done. simpl. lia. }
  destruct (at_line_inv lx Hinv) as (Hind1 & Hann1 & Htok1 & Hrest1).
  pose proof (absent_rest _ _ _ Hrest1 Habs) as Habs1.
  destruct (decide (indent_diff_ (at_line lx) = 0)) as [Hd|Hd].
  - destruct (NextToken_in_line lx t lx' Hne Hd) as (H1 & H2 & H3 & H4 & H5 & H6);
      [|done|].
    { apply absent_peek. eapply absent_rest; [apply skip_spaces_rest|done]. }
    assert (Hann' : announced lx' = announced lx).
    { rewrite <- Hann1. unfold announced. rewrite H1, H2, Hd. lia. }
    split; [|split; [|split]].
    + unfold lexer_inv. unfold announced in *.
      rewrite H1, H2 in *. repeat split; lia.
    + by eapply absent_rest.
    + done.
    + rewrite balance_other by done. lia.
  - rewrite NextToken_indent in Hstep by done.
    unfold GetIndentDedent in Hstep.
    unfold announced in Hann1.
    destruct Hinv as (_ & Hann & _). unfold announced in Hann.
    destruct (0 <? indent_diff_ (at_line lx)) eqn:Hpos; simpl in Hstep;
      injection Hstep as <- <-; unfold lexer_inv, announced; simpl;
      [apply Z.ltb_lt in Hpos | apply Z.ltb_ge in Hpos];
      (split; [|split; [done|split; [done|lia]]]);
      (split; [done|split; [lia|done]]).
Qed.

Lemma advance_inv n lx ts lx' :
  lexer_inv lx -> absent "#" (input_ lx) = true ->
  advance n lx = Ok (ts, lx') ->
  lexer_inv lx' /\ announced lx' = announced lx + balance ts.
Proof.
  revert lx ts. induction n as [|n IH]; intros lx ts Hinv Habs Hadv.
  - injection Hadv as <- <-. split; [done|]. simpl. lia.
  - simpl in Hadv.
    destruct (NextToken lx) as [[t lx1]| | | |] eqn:Hstep; try done.
    simpl in Hadv.
    destruct (advance n lx1) as [[ts1 lx2]| | | |] eqn:Hrest; try done.
    simpl in Hadv. injection Hadv as <- <-.
    destruct (NextToken_step_inv lx t lx1 Hinv Habs Hstep)
      as (Hinv1 & Habs1 & _ & Hann1).
    destruct (IH lx1 ts1 Hinv1 Habs1 Hrest) as (Hinv2 & Hann2).
    split; [done|]. rewrite (balance_cons t ts1). lia.
Qed.

(** The lexer right after its construction, and after [n] advances. *)
Lemma new_Lexer_inv input lx0 n ts lx' :
  absent "#" input = true ->
  indent_ (SkipUselessSymbols (mkLexer 0 0 (token_type.Number 0) input)) = 0 ->
  new_Lexer input = Ok lx0 ->
  advance n lx0 = Ok (ts, lx') ->
  lexer_inv lx0 /\ absent "#" (input_ lx0) = true
  /\ lexer_inv lx'
  /\ balance (CurrentToken lx0 :: ts) = announced lx'.
Proof.
  intros Habs Hfirst Hnew Hadv. unfold new_Lexer in Hnew.
  set (l0 := SkipUselessSymbols (mkLexer 0 0 (token_type.Number 0) input))
    in *.
  destruct (SkipUselessSymbols_post (mkLexer 0 0 (token_type.Number 0) input))
    as (_ & _ & _ & H1 & H2 & _ & H4). fold l0 in H1, H2, H4.
  simpl in H2, H4.
  assert (Hinv : lexer_inv (set_token l0 token_type.Newline)).
  { unfold lexer_inv, announced. simpl. rewrite H2, Hfirst.
    repeat split; lia. }
  assert (Habs0 : absent "#" (input_ (set_token l0 token_type.Newline)) = true)
    by (by eapply absent_rest).
  destruct (NextToken (set_token l0 token_type.Newline))
    as [[t0 l1]| | | |] eqn:Hstep; try done.
  simpl in Hnew. injection Hnew as <-.
  destruct (NextToken_step_inv _ _ _ Hinv Habs0 Hstep)
    as (Hinv1 & Habs1 & Htok & Hann1).
  destruct (advance_inv n l1 ts lx' Hinv1 Habs1 Hadv) as (Hinv2 & Hann2).
  repeat split; try apply Hinv1; try apply Hinv2; try done.
  unfold CurrentToken. rewrite Htok, (balance_cons t0 ts).
  assert (Hz : announced (set_token l0 token_type.Newline) = 0).
  { unfold announced. simpl. rewrite H2, Hfirst. lia. }
  lia.
Qed.

(** X7.  For a source with no [#] in it whose first line of text is not
    indented, whatever the number of advances made, the tokens produced so
    far (the current token of the new lexer and those [NextToken]
    returned) hold at least as many [Indent] as [Dedent] tokens; the
    difference is the depth of the current line less the [Indent]/[Dedent]
    tokens still due. *)
Theorem balance_never_negative input lx0 n ts lx' :
  absent "#" input = true ->
  indent_ (SkipUselessSymbols (mkLexer 0 0 (token_type.Number 0) input)) = 0 ->
  new_Lexer input = Ok lx0 ->
  advance n lx0 = Ok (ts, lx') ->
  0 <= balance (CurrentToken lx0 :: ts)
  /\ balance (CurrentToken lx0 :: ts) = announced lx'.
Proof.
  intros Habs Hfirst Hnew Hadv.
  destruct (new_Lexer_inv input lx0 n ts lx' Habs Hfirst Hnew Hadv)
    as (_ & _ & (_ & Hpos & _) & Hbal).
  split; [|done]. by rewrite Hbal.
Qed.

Lemma ends_with_newline_cons c r :
  r <> "" -> ends_with_newline (String.String c r) = ends_with_newline r.
Proof. by destruct r. Qed.

Lemma ends_with_newline_app pre s :
  ends_with_newline (pre +:+ s) = true -> ends_with_newline s = true.
Proof.
  induction pre as [|a pre IH]; [done|]. rewrite append_cons.
  destruct (decide (pre +:+ s = "")) as [E|E].
  - destruct pre; [|done]. change (s = "") in E. by subst s.
  - rewrite ends_with_newline_cons by done. apply IH.
Qed.

Lemma ends_with_newline_rest s1 s2 :
  rest_of s1 s2 -> ends_with_newline s2 = true ->
  ends_with_newline s1 = true.
Proof. intros [pre ->]. apply ends_with_newline_app. Qed.

Lemma ends_with_newline_last c :
  ends_with_newline (String.String c "") = true -> c = newline.
Proof. simpl. apply Ascii.eqb_eq. Qed.

(** A stream of blanks only that ends with a line feed is empty. *)
Lemma skip_spaces_all s :
  ends_with_newline s = true -> (skip_spaces s).2 = "" -> s = "".
Proof.
  induction s as [|c r IH]; [done|]. intros He Hs. simpl in Hs.
  destruct (Ascii.eqb c " ") eqn:Ec; [|done].
  apply Ascii.eqb_eq in Ec. subst c.
  destruct (skip_spaces r) as [k rest] eqn:Er. simpl in *. subst rest.
  destruct r as [|c' r']; [done|]. by specialize (IH He eq_refl).
Qed.

Lemma read_digits_more s :
  ends_with_newline s = true -> s <> "" -> (read_digits s).2 <> "".
Proof.
  induction s as [|c r IH]; [done|]. intros He _. simpl.
  destruct (isdigit c) eqn:Hc; [|done].
  destruct (read_digits r) as [ds rest] eqn:Er. simpl in IH |- *.
  destruct r as [|c' r'].
  - apply ends_with_newline_last in He. by subst c.
  - rewrite ends_with_newline_cons in He by done. by apply IH.
Qed.

Lemma read_word_more s :
  ends_with_newline s = true -> s <> "" -> (read_word s).2 <> "".
Proof.
  induction s as [|c r IH]; [done|]. intros He _. simpl.
  destruct (_ || _) eqn:Hc; [|done].
  destruct (read_word r) as [w rest] eqn:Er. simpl in IH |- *.
  destruct r as [|c' r'].
  - apply ends_with_newline_last in He. by subst c.
  - rewrite ends_with_newline_cons in He by done. by apply IH.
Qed.

Lemma read_literal_more q :
  Ascii.eqb q newline = false ->
  forall n s acc text rest,
    (String.length s <= n)%nat -> ends_with_newline s = true ->
    read_literal q s acc = Some (text, rest) -> rest <> "".
Proof.
  intros Hq. induction n as [|n IH]; intros s acc text rest Hlen He H.
  - destruct s; [done | simpl in Hlen; lia].
  - destruct s as [|c r]; [done|]. simpl in Hlen. cbn [read_literal] in H.
    destruct (negb (Ascii.eqb c q) && negb (Ascii.eqb c "\")) eqn:Ec.
    + destruct r as [|c' r']; [done|].
      rewrite ends_with_newline_cons in He by done.
      eapply IH; [|exact He|exact H]. lia.
    + destruct (Ascii.eqb c "\") eqn:Eb.
      * destruct r as [|e r']; [done|].
        rewrite ends_with_newline_cons in He by done.
        destruct r' as [|e' r''].
        { apply ends_with_newline_last in He. subst e.
          simpl in H. done. }
        rewrite ends_with_newline_cons in He by done.
        eapply IH; [|exact He|exact H]. simpl in *. lia.
      * injection H as _ <-. intros ->.
        apply ends_with_newline_last in He.
        cbn [negb] in Ec. rewrite andb_true_r in Ec.
        apply negb_false_iff in Ec. apply Ascii.eqb_eq in Ec.
        subst c q. done.
Qed.

Lemma SkipUselessSymbols__depth fuel lx :
  (String.length (input_ lx) < fuel)%nat ->
  ends_with_newline (input_ lx) = true ->
  input_ (SkipUselessSymbols_ fuel lx) = "" ->
  indent_ (SkipUselessSymbols_ fuel lx) = 0.
Proof.
  revert lx. induction fuel as [|fuel IH]; intros lx Hlen He; [lia|].
  simpl. pose proof (skip_spaces_length (input_ lx)) as Hsp.
  pose proof (skip_spaces_rest (input_ lx)) as Hrest.
  pose proof (skip_spaces_all (input_ lx) He) as Hall.
  destruct (skip_spaces (input_ lx)) as [spaces rest] eqn:E.
  simpl in Hsp, Hrest, Hall.
  destruct rest as [|c rest']; simpl.
  { intros _. rewrite (Hall eq_refl) in E. simpl in E.
    by injection E as <-. }
  pose proof (ends_with_newline_rest _ _ Hrest He) as He'.
  destruct (Ascii.eqb c "#") eqn:Ec.
  - pose proof (ignore_line_length rest').
    apply IH.
    + simpl. destruct (Ascii.eqb c newline); simpl in *; lia.
    + simpl. eapply ends_with_newline_rest; [|exact He'].
      apply (ignore_line_rest (String.String c rest')).
  - destruct (Ascii.eqb c newline) eqn:En; [|done].
    apply IH; [simpl in *; lia|]. simpl.
    eapply ends_with_newline_rest; [apply rest_of_cons | exact He'].
Qed.

Lemma at_line_end lx :
  lexer_end_inv lx ->
  ends_with_newline (input_ (at_line lx)) = true
  /\ (input_ (at_line lx) = "" -> indent_ (at_line lx) = 0).
Proof.
  intros (He & Hempty & _). unfold at_line.
  destruct (bool_decide_reflect (token_ lx = token_type.Newline)) as [Ht|Ht].
  - split.
    + destruct (SkipUselessSymbols_post lx) as (_ & _ & _ & _ & _ & _ & H).
      by eapply ends_with_newline_rest.
    + apply SkipUselessSymbols__depth; [lia|done].
  - split; [done|]. intros Hin. by destruct (Hempty Hin).
Qed.

(** A token read inside a line of a source that ends with a line feed:
    [Eof] comes only from an exhausted stream, and a token other than
    [Newline] leaves something in the stream. *)
Lemma NextToken_in_line_end lx t lx' :
  token_ lx <> token_type.Eof ->
  indent_diff_ (at_line lx) = 0 ->
  peek (skip_spaces (input_ (at_line lx))).2 <> Some "#"%char ->
  ends_with_newline (input_ (at_line lx)) = true ->
  NextToken lx = Ok (t, lx') ->
  (input_ lx' = "" -> t = token_type.Newline \/ input_ (at_line lx) = "")
  /\ (t = token_type.Eof -> input_ (at_line lx) = "").
Proof.
  intros Hne Hd Hcom He. unfold NextToken, NextToken_.
  rewrite bool_decide_false by done. fold (at_line lx).
  set (lx1 := at_line lx) in *. rewrite Hd. cbn [Z.eqb negb].
  pose proof (skip_spaces_rest (input_ lx1)) as Hrest.
  pose proof (skip_spaces_all (input_ lx1) He) as Hall.
  pose proof (ends_with_newline_rest _ _ Hrest He) as He1.
  destruct (skip_spaces (input_ lx1)).2 as [|ch rest] eqn:E;
    cbn [input_ set_input token_].
  { destruct (is_block_token _); intros [= <- <-]; split; auto. }
  assert (Hlast : rest = "" -> ch = newline).
  { intros ->. by apply ends_with_newline_last. }
  assert (He2 : rest <> "" -> ends_with_newline rest = true).
  { intros Hr. by rewrite ends_with_newline_cons in He1. }
  destruct (Ascii.eqb ch newline) eqn:Enl.
  { intros [= <- <-]; split; [auto|done]. }
  assert (Hrest_ne : rest <> "").
  { intros Hr. apply Hlast in Hr. subst ch. done. }
  destruct (isdigit ch) eqn:Hdg.
  { unfold GetNumber. cbn [input_ set_input].
    pose proof (read_digits_more (String.String ch rest) He1) as Hm.
    destruct (read_digits (String.String ch rest)) as [ds r].
    destruct (stoi ds) as [v| | | |]; simpl; try done.
    intros [= <- <-]. split; [|done]. simpl. intros ->. by destruct Hm. }
  destruct (Ascii.eqb ch "'" || Ascii.eqb ch double_quote) eqn:Eq.
  { unfold GetStrLiteral. cbn [input_ set_input].
    destruct (read_literal ch rest EmptyString) as [[text r]|] eqn:El;
      simpl; [|done].
    intros [= <- <-]. split; [|done]. simpl. intros ->. exfalso.
    assert (Hq : Ascii.eqb ch newline = false) by done.
    by apply (read_literal_more ch Hq (String.length rest) rest ""
                text "" (Nat.le_refl _) (He2 Hrest_ne) El). }
  destruct (Ascii.eqb ch "#") eqn:Eh.
  { apply Ascii.eqb_eq in Eh. subst ch. by destruct Hcom. }
  destruct (_ && _).
  { intros [= <- <-]. split; [|done]. simpl. intros ->. done. }
  destruct (bool_decide (ch ∈ comparison_symbols) && _) eqn:Hc.
  { apply andb_prop in Hc as [Hc Hp].
    apply bool_decide_eq_true in Hc, Hp.
    destruct (GetCompOperator_Ok (set_input lx1 (String.String ch rest))
                ch rest eq_refl Hc Hp) as [t' Ht'].
    rewrite Ht'. simpl. intros [= <- <-].
    destruct rest as [|b r]; [done|]. simpl in Hp. injection Hp as ->.
    split.
    - simpl. intros ->. specialize (He2 Hrest_ne). done.
    - revert Ht'. unfold GetCompOperator. cbn [input_ set_input].
      repeat (destruct (String.eqb _ _); [by intros [= <-]|]). done. }
  destruct (isalpha ch || Ascii.eqb ch "_").
  { unfold GetName. cbn [input_ set_input].
    pose proof (read_word_more (String.String ch rest) He1) as Hm.
    destruct (read_word (String.String ch rest)) as [w r].
    assert (Hr : r <> "") by (by apply Hm).
    destruct (keyword_to_token !! w) as [kw|] eqn:Ek; simpl;
      intros [= <- <-]; (split; [by simpl|]); [|done].
    destruct (keyword_token w kw Ek) as (_ & _ & _ & Hk). done. }
  destruct (bool_decide (ch ∈ special_symbols)); [|done].
  intros [= <- <-]. split; [|done]. simpl. intros ->. done.
Qed.

Lemma NextToken_step_end lx t lx' :
  lexer_inv lx -> lexer_end_inv lx -> absent "#" (input_ lx) = true ->
  NextToken lx = Ok (t, lx') ->
  lexer_end_inv lx'.
Proof.
  intros Hinv Hend Habs Hstep.
  destruct (decide (token_ lx = token_type.Eof)) as [Heof|Hne].
  { rewrite NextToken_Eof in Hstep by done. by injection Hstep as <- <-. }
  destruct (at_line_inv lx Hinv) as (Hind1 & Hann1 & Htok1 & Hrest1).
  destruct (at_line_end lx Hend) as (He1 & Hempty1).
  pose proof (absent_rest _ _ _ Hrest1 Habs) as Habs1.
  destruct (decide (indent_diff_ (at_line lx) = 0)) as [Hd|Hd].
  - assert (Hcom : peek (skip_spaces (input_ (at_line lx))).2 <> Some "#"%char).
    { apply absent_peek. eapply absent_rest; [apply skip_spaces_rest|done]. }
    destruct (NextToken_in_line lx t lx' Hne Hd Hcom Hstep)
      as (H1 & H2 & H3 & H4 & H5 & H6).
    destruct (NextToken_in_line_end lx t lx' Hne Hd Hcom He1 Hstep)
      as (H7 & H8).
    split; [|split].
    + by eapply ends_with_newline_rest.
    + intros Hin. destruct (H7 Hin) as [->|Hin1]; [by left|].
      right. rewrite H1. by apply Hempty1.
    + intros Ht. rewrite H5 in Ht. unfold announced.
      rewrite H1, H2, (Hempty1 (H8 Ht)). lia.
  - rewrite NextToken_indent in Hstep by done.
    unfold GetIndentDedent in Hstep.
    destruct (0 <? indent_diff_ (at_line lx)); simpl in Hstep;
      injection Hstep as <- <-; unfold lexer_end_inv; simpl;
      (split; [done|split; [|done]]); intros Hin; right; by apply Hempty1.
Qed.

Lemma advance_end n lx ts lx' :
  lexer_inv lx -> lexer_end_inv lx -> absent "#" (input_ lx) = true ->
  advance n lx = Ok (ts, lx') ->
  lexer_end_inv lx'.
Proof.
  revert lx ts. induction n as [|n IH]; intros lx ts Hinv Hend Habs Hadv.
  - by injection Hadv as <- <-.
  - simpl in Hadv.
    destruct (NextToken lx) as [[t lx1]| | | |] eqn:Hstep; try done.
    simpl in Hadv.
    destruct (advance n lx1) as [[ts1 lx2]| | | |] eqn:Hrest; try done.
    simpl in Hadv. injection Hadv as <- <-.
    destruct (NextToken_step_inv lx t lx1 Hinv Habs Hstep)
      as (Hinv1 & Habs1 & _ & _).
    pose proof (NextToken_step_end lx t lx1 Hinv Hend Habs Hstep) as Hend1.
    by apply (IH lx1 ts1).
Qed.

(** X8.  For a source with no [#] in it that ends with a line feed and
    whose first line of text is not indented: once [Eof] is the current
    token, the tokens produced hold as many [Indent] as [Dedent]
    tokens. *)
Theorem balance_zero_at_Eof input lx0 n ts lx' :
  absent "#" input = true ->
  ends_with_newline input = true ->
  indent_ (SkipUselessSymbols (mkLexer 0 0 (token_type.Number 0) input)) = 0 ->
  new_Lexer input = Ok lx0 ->
  advance n lx0 = Ok (ts, lx') ->
  token_ lx' = token_type.Eof ->
  balance (CurrentToken lx0 :: ts) = 0.
Proof.
  intros Habs Hnl Hfirst Hnew Hadv Heof.
  destruct (new_Lexer_inv input lx0 n ts lx' Habs Hfirst Hnew Hadv)
    as (_ & _ & _ & ->).
  unfold new_Lexer in Hnew.
  set (l0 := SkipUselessSymbols (mkLexer 0 0 (token_type.Number 0) input))
    in *.
  destruct (SkipUselessSymbols_post (mkLexer 0 0 (token_type.Number 0) input))
    as (_ & _ & _ & H1 & H2 & _ & H4). fold l0 in H1, H2, H4.
  simpl in H2, H4.
  assert (Hinv : lexer_inv (set_token l0 token_type.Newline)).
  { unfold lexer_inv, announced. simpl. rewrite H2, Hfirst.
    repeat split; lia. }
  assert (Hend : lexer_end_inv (set_token l0 token_type.Newline)).
  { unfold lexer_end_inv. simpl. split; [|split; [by left|done]].
    by eapply ends_with_newline_rest. }
  assert (Habs0 : absent "#" (input_ (set_token l0 token_type.Newline)) = true)
    by (by eapply absent_rest).
  destruct (NextToken (set_token l0 token_type.Newline))
    as [[t0 l1]| | | |] eqn:Hstep; try done.
  simpl in Hnew. injection Hnew as <-.
  destruct (NextToken_step_inv _ _ _ Hinv Habs0 Hstep)
    as (Hinv1 & Habs1 & _ & _).
  pose proof (NextToken_step_end _ _ _ Hinv Hend Habs0 Hstep) as Hend1.
  pose proof (advance_end n l1 ts lx' Hinv1 Hend1 Habs1 Hadv) as (_ & _ & H).
  by apply H.
Qed.

End Indentation.


(** ** Further properties of the evaluator *)

Ltac invert_outcome :=
  repeat match goal with
    | H : Ok _ = Ok _ |- _ => injection H as H; subst
    | H : Throw _ = Ok _ |- _ => discriminate H
    | H : UB = Ok _ |- _ => discriminate H
    | H : Diverge = Ok _ |- _ => discriminate H
    | H : Undetermined = Ok _ |- _ => discriminate H
    | H : (_ ≫= _) = Ok _ |- _ =>
        let a := fresh "a" in
        let E := fresh "E" in
        apply bind_Ok in H as (a & E & H); try destruct a as [[? ?] ?]
    | H : (match ?x with _ => _ end) = Ok _ |- _ => destruct x eqn:?
    | H : (let '(_, _) := ?x in _) = Ok _ |- _ => destruct x eqn:?
    end.

Section Worlds.

Lemma world_le_refl w : world_le w w.
Proof.
  split; [eauto|]. exists "". by rewrite append_nil_r.
Qed.

Lemma world_le_trans w1 w2 w3 :
  world_le w1 w2 -> world_le w2 w3 -> world_le w1 w3.
Proof.
  intros [H1 [t1 E1]] [H2 [t2 E2]]. split.
  - intros p inst Hp. destruct (H1 p inst Hp) as (i2 & Hp2 & Hc2).
    destruct (H2 p i2 Hp2) as (i3 & Hp3 & Hc3).
    exists i3. split; [done|congruence].
  - exists (t1 +:+ t2). by rewrite E2, E1, append_assoc.
Qed.

Lemma world_le_write text w : world_le w (write text w).
Proof. split; [eauto|]. by exists text. Qed.

Lemma world_le_set_fields p fields w : world_le w (set_fields p fields w).
Proof.
  unfold set_fields. destruct (instances w !! p) as [inst|] eqn:Hp;
    [|apply world_le_refl].
  split; [|exists ""; by rewrite append_nil_r]. simpl.
  intros q i Hq. destruct (decide (p = q)) as [->|Hne].
  - rewrite list_lookup_insert_eq by (by eapply lookup_lt_Some).
    eexists. split; [done|]. simpl. congruence.
  - rewrite list_lookup_insert_ne by done. eauto.
Qed.

Lemma world_le_alloc inst w :
  world_le w (mkWorld (instances w ++ [inst]) (output w)).
Proof.
  split; [|exists ""; by rewrite append_nil_r]. simpl.
  intros p i Hp. exists i. split; [|done].
  by apply lookup_app_l_Some.
Qed.

Lemma walk_fields_forward obj ids w obj' w' :
  walk_fields obj ids w = Ok (obj', w') -> world_le w w'.
Proof.
  revert obj w. induction ids as [|id ids IH]; intros obj w H; simpl in H.
  - injection H as _ <-. apply world_le_refl.
  - destruct obj as [[| | | |ptr]|]; try done.
    destruct (instances w !! ptr) as [inst|]; [|done].
    destruct (index (fields_ inst) id) as [o f].
    eapply world_le_trans; [apply world_le_set_fields | by eapply IH].
Qed.

Variable exec :
  Statement -> Closure -> World -> Outcome (ObjectHolder * Closure * World).
Hypothesis exec_forward : moves_forward exec.

Lemma Call_forward this method args w r w' :
  Call exec this method args w = Ok (r, w') -> world_le w w'.
Proof.
  unfold Call. intros H.
  destruct (instances w !! this); [|done].
  destruct (negb _); [done|].
  destruct (GetMethod _ _); [|done].
  apply bind_Ok in H as ([[res c] w1] & E & H).
  apply bind_Ok in H as (self & _ & H).
  apply exec_forward in E.
  by destruct (negb _); injection H as _ <-.
Qed.

Lemma Object_Print_forward o w text w' :
  Object_Print exec o w = Ok (text, w') -> world_le w w'.
Proof.
  destruct o; simpl; try (intros [= _ <-]; apply world_le_refl).
  destruct (instances w !! this); [|done].
  destruct (GetMethod _ _); [|intros [= _ <-]; apply world_le_refl].
  intros H. apply bind_Ok in H as ([r w1] & E & H).
  apply Call_forward in E.
  destruct r as [[]|]; try done. by injection H as _ <-.
Qed.

Lemma Equal_forward lhs rhs w b w' :
  Equal exec lhs rhs w = Ok (b, w') -> world_le w w'.
Proof.
  unfold Equal. intros H.
  destruct lhs as [[| | | |p]|], rhs as [[]|]; try done;
    try (injection H as _ <-; apply world_le_refl);
    (destruct (instances w !! p); [|done]);
    (destruct (HasMethod _ _ _); [|done]);
    apply bind_Ok in H as ([r w1] & E & H);
    apply Call_forward in E; by injection H as _ <-.
Qed.

Lemma Less_forward lhs rhs w b w' :
  Less exec lhs rhs w = Ok (b, w') -> world_le w w'.
Proof.
  unfold Less. intros H.
  destruct lhs as [[| | | |p]|], rhs as [[]|]; try done;
    try (injection H as _ <-; apply world_le_refl);
    (destruct (instances w !! p); [|done]);
    (destruct (HasMethod _ _ _); [|done]);
    apply bind_Ok in H as ([r w1] & E & H);
    apply Call_forward in E; by injection H as _ <-.
Qed.

Lemma comparator_forward cmp lhs rhs w b w' :
  comparator exec cmp lhs rhs w = Ok (b, w') -> world_le w w'.
Proof.
  destruct cmp; simpl; unfold NotEqual, LessOrEqual, GreaterOrEqual, Greater;
    intros H; invert_outcome;
    eauto using world_le_trans, Equal_forward, Less_forward.
Qed.

Lemma VariableValue_Execute_forward ids (c c' : Closure) w obj w' :
  VariableValue_Execute ids c w = Ok (obj, c', w') -> world_le w w'.
Proof.
  unfold VariableValue_Execute. intros H. invert_outcome.
  by eapply walk_fields_forward.
Qed.

Lemma Execute_args_forward args (c c' : Closure) w w' vs :
  Execute_args exec args c w = Ok (vs, c', w') -> world_le w w'.
Proof.
  revert c w vs. induction args as [|a args IH]; intros c w vs H;
    simpl in H; invert_outcome;
    eauto using world_le_refl, world_le_trans.
Qed.

Lemma Print_args_forward args (c c' : Closure) w w' :
  Print_args exec args c w = Ok (c', w') -> world_le w w'.
Proof.
  revert c w. induction args as [|a args IH]; intros c w H; simpl in H.
  - injection H as _ <-. apply world_le_refl.
  - apply bind_Ok in H as ([[v c1] w1] & E1 & H).
    apply bind_Ok in H as (w2 & E2 & H).
    apply exec_forward in E1. apply IH in H.
    assert (world_le w1 w2).
    { destruct v as [o|].
      - apply bind_Ok in E2 as ([text w3] & E3 & E2). injection E2 as <-.
        apply Object_Print_forward in E3.
        eauto using world_le_trans, world_le_write.
      - injection E2 as <-. apply world_le_write. }
    destruct args;
      eauto using world_le_trans, world_le_write.
Qed.

Lemma Compound_loop_forward sts (c c' : Closure) w w' :
  Compound_loop exec sts c w = Ok (c', w') -> world_le w w'.
Proof.
  revert c w. induction sts as [|st sts IH]; intros c w H;
    simpl in H; invert_outcome;
    eauto using world_le_refl, world_le_trans.
Qed.

Ltac forward_facts :=
  repeat match goal with
    | H : exec _ _ _ = Ok _ |- _ => apply exec_forward in H
    | H : Execute_args exec _ _ _ = Ok _ |- _ =>
        apply Execute_args_forward in H
    | H : Print_args exec _ _ _ = Ok _ |- _ => apply Print_args_forward in H
    | H : Compound_loop exec _ _ _ = Ok _ |- _ =>
        apply Compound_loop_forward in H
    | H : VariableValue_Execute _ _ _ = Ok _ |- _ =>
        apply VariableValue_Execute_forward in H
    | H : Call exec _ _ _ _ = Ok _ |- _ => apply Call_forward in H
    | H : Object_Print exec _ _ = Ok _ |- _ =>
        apply Object_Print_forward in H
    | H : comparator exec _ _ _ _ = Ok _ |- _ =>
        apply comparator_forward in H
    end.

Ltac forward_chain :=
  first [ apply world_le_refl
        | eassumption
        | apply world_le_write
        | apply world_le_set_fields
        | apply world_le_alloc
        | eapply world_le_trans; [eassumption|]; forward_chain
        | eapply world_le_trans; [|apply world_le_write]; forward_chain
        | eapply world_le_trans; [|apply world_le_set_fields];
          forward_chain
        | match goal with
          | H : world_le (mkWorld (instances ?w ++ _) _) _
            |- world_le ?w _ =>
              eapply world_le_trans; [apply world_le_alloc|];
              forward_chain
          end ].

Lemma Execute_step_forward : moves_forward (Execute_step exec).
Proof.
  intros s c c' w w' v H.
  destruct s; simpl in H; unfold Number_operands, int_result in H;
    invert_outcome; forward_facts; forward_chain.
Qed.

End Worlds.

Lemma Execute_forward n : moves_forward (Execute n).
Proof.
  induction n as [|n IH]; [by intros s c c' w w' v H|].
  by apply Execute_step_forward.
Qed.

Section Invariants.



End Invariants.

Section Classes.

Lemma name_to_method_name ms n m :
  name_to_method ms n = Some m -> name m = n.
Proof.
  induction ms as [|a ms IH]; [done|]. simpl.
  destruct (name_to_method ms n) as [m'|].
  - intros [= <-]. by apply IH.
  - destruct (String.eqb_spec (name a) n); [by intros [= <-]|done].
Qed.

Lemma name_to_method_last ms m :
  name_to_method (ms ++ [m]) (name m) = Some m.
Proof.
  induction ms as [|a ms IH]; simpl.
  - by rewrite String.eqb_refl.
  - by rewrite IH.
Qed.

Lemma name_to_method_absent ms n :
  Forall (fun m => name m <> n) ms -> name_to_method ms n = None.
Proof.
  induction 1 as [|a ms Ha _ IH]; [done|]. simpl. rewrite IH.
  by destruct (String.eqb_spec (name a) n).
Qed.

Lemma GetMethod_name : forall c n m, GetMethod c n = Some m -> name m = n.
Proof.
  fix IH 1. intros [nm ms parent] n m. simpl.
  destruct (name_to_method ms n) as [m'|] eqn:E.
  - intros [= <-]. by eapply name_to_method_name.
  - destruct parent as [p|]; [apply IH|done].
Qed.


Lemma bind_params_other params args (c : Closure) p0 :
  p0 ∉ params -> bind_params c params args !! p0 = c !! p0.
Proof.
  revert args c. induction params as [|p params IH]; intros [|a args] c H;
    simpl; try done.
  apply not_elem_of_cons in H as [Hne H].
  rewrite IH by done. by rewrite lookup_insert_ne.
Qed.

(** X12.  The loop of [ClassInstance::Call] that fills the call scope: with
    formal parameters that are all different, each one is bound to the
    argument at its position; a name that is not a formal parameter keeps
    the binding it had, so [self] is the receiver unless a parameter is
    called [self]. *)
Theorem bind_params_lookup params args (c : Closure) :
  NoDup params ->
  (forall i p a, params !! i = Some p -> args !! i = Some a ->
                 bind_params c params args !! p = Some a)
  /\ (forall p0, p0 ∉ params -> bind_params c params args !! p0 = c !! p0).
Proof.
  intros Hnd. split; [|intros p0; apply bind_params_other].
  revert args c. induction Hnd as [|p params Hp Hnd IH];
    intros args c i q a Hq Ha; [done|].
  destruct args as [|a0 args]; [done|]. simpl.
  destruct i as [|i]; simpl in Hq, Ha.
  - injection Hq as <-. injection Ha as <-.
    rewrite bind_params_other by done. apply lookup_insert_eq.
  - by eapply IH.
Qed.

End Classes.

Section Ordering.

Variable n : nat.

Lemma String_compare_refl a : (a ?= a)%string = Eq.
Proof.
  pose proof (String.compare_antisym a a) as H.
  by destruct (a ?= a)%string.
Qed.

Lemma String_ltb_irrefl a b : String.ltb a b = true -> String.eqb a b = false.
Proof.
  unfold String.ltb. intros H.
  destruct (String.eqb_spec a b) as [->|]; [|done].
  by rewrite String_compare_refl in H.
Qed.

Lemma String_ltb_swap a b :
  String.ltb b a = negb (String.ltb a b) && negb (String.eqb a b).
Proof.
  unfold String.ltb. pose proof (String.compare_antisym a b) as Hab.
  destruct (b ?= a)%string eqn:E; rewrite Hab; simpl.
  - apply String.compare_eq_iff in E. subst. by rewrite String.eqb_refl.
  - destruct (String.eqb_spec a b) as [->|]; [|done].
    by rewrite String_compare_refl in E.
  - done.
Qed.

(** X13.  On two Bools, two Integers or two Strings the six comparisons
    raise nothing and leave the world as it is; exactly one of [Less],
    [Equal] and [Greater] holds; [Greater] is [Less] with the operands
    swapped; [LessOrEqual] is [Less] or [Equal], [GreaterOrEqual] is
    [Greater] or [Equal], and [NotEqual] is the negation of [Equal]. *)
Theorem primitive_comparisons (lhs rhs : ObjectHolder) (w : World) :
  same_primitive_kind lhs rhs ->
  exists e l g,
    Equal (Execute n) lhs rhs w = Ok (e, w)
    /\ Less (Execute n) lhs rhs w = Ok (l, w)
    /\ Greater (Execute n) lhs rhs w = Ok (g, w)
    /\ Less (Execute n) rhs lhs w = Ok (g, w)
    /\ NotEqual (Execute n) lhs rhs w = Ok (negb e, w)
    /\ LessOrEqual (Execute n) lhs rhs w = Ok (l || e, w)
    /\ GreaterOrEqual (Execute n) lhs rhs w = Ok (g || e, w)
    /\ ((l = true /\ e = false /\ g = false)
        \/ (l = false /\ e = true /\ g = false)
        \/ (l = false /\ e = false /\ g = true)).
Proof.
  intros [(a & b & -> & ->) | [(a & b & -> & ->) | (a & b & -> & ->)]].
  - exists (Bool.eqb a b), (negb a && b), (negb b && a).
    unfold NotEqual, LessOrEqual, GreaterOrEqual, Greater. simpl.
    destruct a, b; simpl; repeat split; tauto.
  - exists (a =? b), (a <? b), (b <? a).
    unfold NotEqual, LessOrEqual, GreaterOrEqual, Greater. simpl.
    destruct (Z.eqb_spec a b), (Z.ltb_spec a b), (Z.ltb_spec b a);
      try lia; simpl; repeat split; tauto.
  - exists (String.eqb a b), (String.ltb a b), (String.ltb b a).
    unfold NotEqual, LessOrEqual, GreaterOrEqual, Greater. simpl.
    rewrite (String_ltb_swap a b).
    pose proof (String_ltb_irrefl a b) as Hirr.
    destruct (String.ltb a b), (String.eqb a b); simpl;
      try (by specialize (Hirr eq_refl)); repeat split; tauto.
Qed.

End Ordering.

Section Statements.

Lemma Compound_loop_app exec pre rest (c c1 : Closure) w w1 :
  Compound_loop exec pre c w = Ok (c1, w1) ->
  count c1 "returned_value" = false ->
  Compound_loop exec (pre ++ rest) c w = Compound_loop exec rest c1 w1.
Proof.
  revert c w. induction pre as [|st pre IH]; intros c w H Hc; simpl in H.
  - by injection H as <- <-.
  - simpl. destruct (exec st c w) as [[[v c2] w2]| | | |]; try done.
    simpl in *. destruct (count c2 "returned_value") eqn:E.
    + injection H as <- <-. congruence.
    + by apply IH.
Qed.

(** X14.  In a method body, once the statements before a [return] have
    run without returning, the body evaluates to the value of the
    returned expression, and the statements after the [return] are not
    executed, whatever they are. *)
Theorem Return_skips_rest n pre e post (c c1 c2 : Closure) w w1 w2 v :
  Compound_loop (Execute (S n)) pre c w = Ok (c1, w1) ->
  count c1 "returned_value" = false ->
  Execute n e c1 w1 = Ok (v, c2, w2) ->
  Execute (S (S (S n)))
    (ast.MethodBody (ast.Compound (pre ++ ast.Return e :: post))) c w
  = Ok (v, <["returned_value" := v]> c2, w2).
Proof.
  intros Hpre Hc He.
  change (Execute (S (S (S n))) (ast.MethodBody ?b) c w)
    with (Execute_step (Execute (S (S n))) (ast.MethodBody b) c w).
  cbn [Execute_step].
  change (Execute (S (S n)) (ast.Compound ?l) c w)
    with (Execute_step (Execute (S n)) (ast.Compound l) c w).
  cbn [Execute_step].
  rewrite (Compound_loop_app _ pre _ c c1 w w1 Hpre Hc).
  cbn [Compound_loop].
  change (Execute (S n) (ast.Return e) c1 w1)
    with (Execute_step (Execute n) (ast.Return e) c1 w1).
  cbn [Execute_step]. rewrite He. simpl.
  unfold count, at_. rewrite lookup_insert_eq.
  rewrite bool_decide_true by eauto. simpl.
  rewrite !lookup_insert_eq. by rewrite bool_decide_true by eauto.
Qed.

(** X15.  An assignment evaluates to the value of its right-hand side and
    binds the name to it; reading the name right after gives that value
    and changes nothing. *)
Theorem Assignment_then_read n m x rv (c c' : Closure) w w' v :
  Execute n rv c w = Ok (v, c', w') ->
  Execute (S n) (ast.Assignment x rv) c w = Ok (v, <[x := v]> c', w')
  /\ Execute (S m) (ast.VariableValue [x]) (<[x := v]> c') w'
     = Ok (v, <[x := v]> c', w').
Proof.
  intros Hrv. split.
  - simpl. rewrite Hrv. simpl. unfold at_. by rewrite lookup_insert_eq.
  - simpl. unfold VariableValue_Execute, count, at_.
    rewrite lookup_insert_eq. by rewrite bool_decide_true by eauto.
Qed.


(** X17.  Reading a name that is not bound raises a runtime error that
    names it; going on from a bound name whose value is not a class
    instance raises a runtime error that names the field asked for; a
    bound name alone evaluates to its value and changes nothing. *)
Theorem VariableValue_errors n (c : Closure) (w : World) :
  (forall x ids,
     c !! x = None ->
     Execute (S n) (ast.VariableValue (x :: ids)) c w
     = Throw (runtime_error ("Unknown variable - " +:+ x)))
  /\ (forall x obj id ids,
        c !! x = Some obj ->
        (forall p, obj <> Some (runtime.ClassInstance p)) ->
        Execute (S n) (ast.VariableValue (x :: id :: ids)) c w
        = Throw (runtime_error ("Unknown variable - " +:+ id)))
  /\ (forall x obj,
        c !! x = Some obj ->
        Execute (S n) (ast.VariableValue [x]) c w = Ok (obj, c, w)).
Proof.
  split; [|split].
  - intros x ids Hx. simpl. unfold VariableValue_Execute, count.
    rewrite Hx. by rewrite bool_decide_false by (by intros [? ?]).
  - intros x obj id ids Hx Hobj. simpl.
    unfold VariableValue_Execute, count, at_. rewrite Hx.
    rewrite bool_decide_true by eauto. simpl.
    destruct obj as [[| | | |p]|]; try done. by destruct (Hobj p).
  - intros x obj Hx. simpl. unfold VariableValue_Execute, count, at_.
    rewrite Hx. by rewrite bool_decide_true by eauto.
Qed.

End Statements.

Section Printing.

Variable n : nat.

Lemma write_write a b w : write b (write a w) = write (a +:+ b) w.
Proof. unfold write. simpl. by rewrite append_assoc. Qed.

Lemma Object_Print_text exec o text w :
  holder_text (Some o) = Some text -> Object_Print exec o w = Ok (text, w).
Proof. destruct o; simpl; intros ?; by simplify_eq. Qed.

Lemma literal_Execute s v (c : Closure) w :
  literal_value s = Some v -> Execute (S n) s c w = Ok (v, c, w).
Proof. destruct s; simpl; intros ?; by simplify_eq. Qed.

Lemma Stringify_String s (c c' : Closure) w w' v :
  Execute (S n) (ast.Stringify s) c w = Ok (v, c', w') ->
  exists text, v = Some (runtime.String text).
Proof.
  simpl. intros H. invert_outcome; eauto.
Qed.

(** X18.  [str] of a value that is not a class instance is the String of
    the text [print] writes for it ([None], the decimal digits, [True] or
    [False], the string itself, [Class] and the name), and changes nothing
    more; whatever its argument, [str] yields a String, and [str] of [str]
    of an argument is [str] of that argument. *)
Theorem Stringify_Execute s (c : Closure) (w : World) :
  (forall v c' w' text,
     Execute n s c w = Ok (v, c', w') ->
     holder_text v = Some text ->
     Execute (S n) (ast.Stringify s) c w
     = Ok (Some (runtime.String text), c', w'))
  /\ (forall v c' w',
        Execute (S n) (ast.Stringify s) c w = Ok (v, c', w') ->
        (exists text, v = Some (runtime.String text))
        /\ Execute (S (S n)) (ast.Stringify (ast.Stringify s)) c w
           = Ok (v, c', w')).
Proof.
  split.
  - intros v c' w' text Hs Ht. simpl. rewrite Hs. simpl.
    destruct v as [o|]; [|by injection Ht as <-].
    destruct o; simpl in *; by simplify_eq.
  - intros v c' w' Hs. destruct (Stringify_String s c c' w w' v Hs) as [t ->].
    split; [eauto|].
    change (Execute (S (S n)) (ast.Stringify ?a) c w)
      with (Execute_step (Execute (S n)) (ast.Stringify a) c w).
    cbn [Execute_step]. by rewrite Hs.
Qed.

Lemma Print_args_literals args values texts (c : Closure) w :
  Forall2 (fun s v => literal_value s = Some v) args values ->
  Forall2 (fun v t => holder_text v = Some t) values texts ->
  Print_args (Execute (S n)) args c w = Ok (c, write (join_spaces texts) w).
Proof.
  intros Hv. revert texts w.
  induction Hv as [|s v args values Hs Hrest IH]; intros texts w Ht.
  - apply Forall2_nil_inv_l in Ht as ->. simpl. unfold write.
    rewrite append_nil_r. by destruct w.
  - apply Forall2_cons_inv_l in Ht as (t & texts' & Ht & Hts & ->).
    cbn [Print_args]. rewrite (literal_Execute s v c w Hs). simpl.
    assert (Hw : forall k : World -> Outcome (Closure * World),
      (match v with
       | Some o =>
           Object_Print (Execute (S n)) o w
             ≫= (fun '(text, w0) => Ok (write text w0))
       | None => Ok (write "None" w)
       end) ≫= k = k (write t w)).
    { intros k. destruct v as [o|]; [|by simplify_eq/=].
      by rewrite (Object_Print_text _ o t w Ht). }
    etrans; [apply Hw|]. clear Hw.
    destruct Hrest as [|s' v' args' values' Hs' Hrest'].
    + apply Forall2_nil_inv_l in Hts as ->. done.
    + rewrite (IH texts' _ Hts).
      apply Forall2_cons_inv_l in Hts as (t' & texts'' & _ & _ & ->).
      by rewrite !write_write.
Qed.

(** X19.  [print] of literals writes their texts in order with one blank
    between two of them and a line feed at the end, nothing after the last
    text but the line feed; it evaluates to the empty holder and leaves
    the scope as it is. *)
Theorem Print_literals args values texts (c : Closure) (w : World) :
  Forall2 (fun s v => literal_value s = Some v) args values ->
  Forall2 (fun v t => holder_text v = Some t) values texts ->
  Execute (S (S n)) (ast.Print args) c w
  = Ok (None, c,
        write (join_spaces texts +:+ String.String parse.newline "") w).
Proof.
  intros Hv Ht.
  change (Execute (S (S n)) (ast.Print args) c w)
    with (Execute_step (Execute (S n)) (ast.Print args) c w).
  cbn [Execute_step]. rewrite (Print_args_literals args values texts c w Hv Ht).
  simpl. by rewrite write_write.
Qed.

(** X20.  [ClassInstance::Print] on the instance at [this]: without a
    [__str__] in its class it writes the text of the address; with a
    [__str__] that has parameters it raises a runtime error; with one
    that has none it writes the String the call returns, and when the
    call returns anything else the null pointer of [TryAs<String>] is
    dereferenced. *)
Theorem instance_Print this inst (w : World) :
  instances w !! this = Some inst ->
  (GetMethod (class_ inst) "__str__" = None ->
   Object_Print (Execute n) (runtime.ClassInstance this) w
   = Ok (address_text this, w))
  /\ (forall m,
        GetMethod (class_ inst) "__str__" = Some m ->
        formal_params m <> [] ->
        Object_Print (Execute n) (runtime.ClassInstance this) w
        = Throw (runtime_error "Method does not exist"))
  /\ (forall m r w',
        GetMethod (class_ inst) "__str__" = Some m ->
        Call (Execute n) this "__str__" [] w = Ok (r, w') ->
        (forall text, r = Some (runtime.String text) ->
           Object_Print (Execute n) (runtime.ClassInstance this) w
           = Ok (text, w'))
        /\ ((forall text, r <> Some (runtime.String text)) ->
            Object_Print (Execute n) (runtime.ClassInstance this) w = UB)).
Proof.
  intros Hinst. split; [|split].
  - intros Hm. simpl. by rewrite Hinst, Hm.
  - intros m Hm Hp. simpl. rewrite Hinst, Hm. unfold Call.
    rewrite Hinst. unfold HasMethod. rewrite Hm.
    rewrite bool_decide_false; [done|]. by destruct (formal_params m).
  - intros m r w' Hm Hcall. simpl. rewrite Hinst, Hm, Hcall. simpl. split.
    + by intros text ->.
    + intros Hr. destruct r as [[| |text| |]|]; try done.
      by destruct (Hr text).
Qed.

End Printing.

Section Addition.

Variables (n : nat) (lhs rhs : Statement).
Variables (closure c1 c2 : Closure) (w w1 w2 : World) (l r : ObjectHolder).
Hypothesis Hl : Execute n lhs closure w = Ok (l, c1, w1).
Hypothesis Hr : Execute n rhs c1 w1 = Ok (r, c2, w2).

(** X21.  An [Add] node evaluates both operands, left then right.  Two
    Strings give their concatenation; two Integers give their sum when it
    fits an [int]; a class instance on the left whose class has [__add__]
    with one parameter gives what that method returns for the right
    operand.  A String or an Integer on the left with anything else on the
    right, an instance without such an [__add__], and an empty holder, a
    Bool or a class on the left raise a runtime error. *)
Theorem Add_Execute :
  (forall a b,
     l = Some (runtime.String a) -> r = Some (runtime.String b) ->
     Execute (S n) (ast.Add lhs rhs) closure w
     = Ok (Some (runtime.String (a +:+ b)), c2, w2))
  /\ (forall a b,
        l = Some (runtime.Number a) -> r = Some (runtime.Number b) ->
        in_int (a + b) = true ->
        Execute (S n) (ast.Add lhs rhs) closure w
        = Ok (Some (runtime.Number (a + b)), c2, w2))
  /\ (forall this inst,
        l = Some (runtime.ClassInstance this) ->
        instances w2 !! this = Some inst ->
        (HasMethod (class_ inst) "__add__" 1 = true ->
         Execute (S n) (ast.Add lhs rhs) closure w
         = '(v, w3) ← Call (Execute n) this "__add__" [r] w2;
           Ok (v, c2, w3))
        /\ (HasMethod (class_ inst) "__add__" 1 = false ->
            Execute (S n) (ast.Add lhs rhs) closure w
            = Throw (runtime_error "Incorrect addition")))
  /\ ((exists a, l = Some (runtime.String a)
                 /\ forall b, r <> Some (runtime.String b))
      \/ (exists a, l = Some (runtime.Number a)
                    /\ forall b, r <> Some (runtime.Number b))
      \/ l = None
      \/ (exists b, l = Some (runtime.Bool b))
      \/ (exists cls, l = Some (runtime.Class cls)) ->
      Execute (S n) (ast.Add lhs rhs) closure w
      = Throw (runtime_error "Incorrect addition")).
Proof.
  simpl. rewrite Hl. simpl. rewrite Hr. simpl.
  split; [by intros a b -> ->|].
  split.
  { intros a b -> -> Hfit. unfold int_result.
    rewrite (Z.add_comm b a), Hfit. done. }
  split.
  { intros this inst -> Hinst. rewrite Hinst.
    split; intros ->; [|done].
    by destruct (Call (Execute n) this "__add__" [r] w2) as [[v w3]| | | |]. }
  intros [(a & -> & Hb) | [(a & -> & Hb) | [-> | [(b & ->) | (cls & ->)]]]];
    try done.
  - destruct r as [[| |b| |]|]; try done. by destruct (Hb b).
  - destruct r as [[b| | | |]|]; try done. by destruct (Hb b).
Qed.

End Addition.

Section Logic.

Variables (n : nat) (lhs rhs : Statement).
Variables (c c1 : Closure) (w w1 : World) (l : ObjectHolder).
Hypothesis Hl : Execute n lhs c w = Ok (l, c1, w1).

(** X22.  [or] and [and] evaluate the right operand only when the left one
    does not decide: a true left operand makes [or] true, a false one
    makes [and] false, with the right operand not evaluated (it may be one
    that would raise); otherwise the result is the truth value of the
    right operand.  The results are Bools, and [not not x] is the truth
    value of [x]. *)
Theorem logic_Execute :
  (IsTrue l = true ->
   Execute (S n) (ast.Or lhs rhs) c w
   = Ok (Some (runtime.Bool true), c1, w1))
  /\ (IsTrue l = false ->
      Execute (S n) (ast.And lhs rhs) c w
      = Ok (Some (runtime.Bool false), c1, w1))
  /\ (forall r c2 w2,
        Execute n rhs c1 w1 = Ok (r, c2, w2) ->
        (IsTrue l = false ->
         Execute (S n) (ast.Or lhs rhs) c w
         = Ok (Some (runtime.Bool (IsTrue r)), c2, w2))
        /\ (IsTrue l = true ->
            Execute (S n) (ast.And lhs rhs) c w
            = Ok (Some (runtime.Bool (IsTrue r)), c2, w2)))
  /\ Execute (S (S n)) (ast.Not (ast.Not lhs)) c w
     = Ok (Some (runtime.Bool (IsTrue l)), c1, w1).
Proof.
  split; [|split; [|split]].
  - intros Ht. simpl. rewrite Hl. simpl. by rewrite Ht.
  - intros Ht. simpl. rewrite Hl. simpl. by rewrite Ht.
  - intros r c2 w2 Hr. split; intros Ht; simpl; rewrite Hl; simpl;
      rewrite Ht; simpl; by rewrite Hr.
  - change (Execute (S (S n)) (ast.Not ?a) c w)
      with (Execute_step (Execute (S n)) (ast.Not a) c w).
    cbn [Execute_step].
    change (Execute (S n) (ast.Not lhs) c w)
      with (Execute_step (Execute n) (ast.Not lhs) c w).
    cbn [Execute_step]. rewrite Hl. simpl. by rewrite negb_involutive.
Qed.

End Logic.

Section Temporaries.

Variables (n : nat) (lhs rhs : Statement).
Variables (closure c1 c2 : Closure) (w w1 w2 : World) (a b : Z).
Hypothesis Hl :
  Execute n lhs closure w = Ok (Some (runtime.Number a), c1, w1).
Hypothesis Hr :
  Execute n rhs c1 w1 = Ok (Some (runtime.Number b), c2, w2).

Lemma Number_operands_reads :
  Number_operands (Execute n) lhs rhs closure w
  = Ok (Some (read (left_owner (Execute n) lhs rhs closure w) a,
              read (owner (Execute n) rhs c1 w1) b), c2, w2).
Proof. unfold Number_operands. rewrite Hl. simpl. by rewrite Hr. Qed.

Lemma left_owner_alone :
  owner (Execute n) lhs closure w = holder_alone ->
  left_owner (Execute n) lhs rhs closure w = holder_alone.
Proof. unfold left_owner. by intros ->. Qed.

(** X24.  [Sub], [Mult] and [Div] read their operands through raw pointers
    once the temporary holders [Execute] returned are destroyed.  With
    both operands Integers, one of them an object that only its temporary
    holder owned (the result of an addition of Integers, of a subtraction,
    of a multiplication or of a division), [Sub] and [Mult] raise nothing
    and deliver nothing: they read a destroyed object.  [Div] reads the
    divisor first: it does so on a divisor that is destroyed and, past a
    divisor other than 0 that a literal or a name keeps, on a dividend that
    is destroyed; on a divisor 0 that is kept it raises its runtime error,
    whatever the dividend. *)
Theorem arithmetic_on_temporaries :
  (owner (Execute n) lhs closure w = holder_alone
   \/ owner (Execute n) rhs c1 w1 = holder_alone ->
   Execute (S n) (ast.Sub lhs rhs) closure w = UB
   /\ Execute (S n) (ast.Mult lhs rhs) closure w = UB)
  /\ (owner (Execute n) rhs c1 w1 = holder_alone ->
      Execute (S n) (ast.Div lhs rhs) closure w = UB)
  /\ (owner (Execute n) lhs closure w = holder_alone ->
      reads_only rhs = true -> b <> 0 ->
      Execute (S n) (ast.Div lhs rhs) closure w = UB)
  /\ (reads_only rhs = true -> b = 0 ->
      Execute (S n) (ast.Div lhs rhs) closure w
      = Throw (runtime_error "Incorrect division")).
Proof.
  pose proof Number_operands_reads as E.
  split; [|split; [|split]].
  - intros [Ho|Ho]; simpl; rewrite E; simpl.
    + rewrite (left_owner_alone Ho). simpl. by split.
    + rewrite Ho. simpl.
      by destruct (read (left_owner (Execute n) lhs rhs closure w) a).
  - intros Ho. simpl. rewrite E. simpl. by rewrite Ho.
  - intros Ho Hrhs Hb. simpl. rewrite E. simpl.
    rewrite (reads_only_owner _ _ _ _ _ _ _ Hrhs Hr). simpl.
    apply Z.eqb_neq in Hb. rewrite Hb. simpl.
    by rewrite (left_owner_alone Ho).
  - intros Hrhs ->. simpl. rewrite E. simpl.
    by rewrite (reads_only_owner _ _ _ _ _ _ _ Hrhs Hr).
Qed.

End Temporaries.

Section Either_order.

Lemma index_read_after (f : Closure) j k :
  (index (index f j).2 k).1 = (index f k).1.
Proof.
  unfold index. destruct (f !! j) as [h|] eqn:Ej; simpl; [done|].
  destruct (decide (j = k)) as [->|Hne].
  - by rewrite lookup_insert_eq, Ej.
  - rewrite lookup_insert_ne by done. by destruct (f !! k).
Qed.

Lemma index_touch_commute (f : Closure) j k :
  (index (index f j).2 k).2 = (index (index f k).2 j).2.
Proof.
  unfold index.
  destruct (f !! j) as [hj|] eqn:Ej, (f !! k) as [hk|] eqn:Ek; simpl;
    rewrite ?Ej, ?Ek; simpl; try done.
  - destruct (decide (k = j)) as [->|Hne]; [congruence|].
    by rewrite lookup_insert_ne, Ej.
  - destruct (decide (j = k)) as [->|Hne]; [congruence|].
    by rewrite lookup_insert_ne, Ek.
  - destruct (decide (j = k)) as [->|Hne].
    + by rewrite lookup_insert_eq.
    + rewrite !lookup_insert_ne, Ej, Ek by done. simpl.
      by apply insert_insert_ne.
Qed.

Lemma set_fields_lookup_eq q F w iq :
  instances w !! q = Some iq ->
  instances (set_fields q F w) !! q = Some (mkInstance (class_ iq) F).
Proof.
  intros H. unfold set_fields. rewrite H. simpl.
  apply list_lookup_insert_eq. by eapply lookup_lt_Some.
Qed.

Lemma set_fields_lookup_ne p q F w :
  p <> q -> instances (set_fields q F w) !! p = instances w !! p.
Proof.
  intros H. unfold set_fields. destruct (instances w !! q); [|done].
  simpl. apply list_lookup_insert_ne. by intros ->.
Qed.

Lemma set_fields_twice q X Y w :
  set_fields q X (set_fields q Y w) = set_fields q X w.
Proof.
  destruct (instances w !! q) as [iq|] eqn:E.
  - unfold set_fields at 1. rewrite (set_fields_lookup_eq q Y w iq E).
    unfold set_fields. rewrite E. simpl. by rewrite list_insert_insert_eq.
  - unfold set_fields at 2. by rewrite E.
Qed.

Lemma set_fields_commute p q X Y w :
  p <> q ->
  set_fields p X (set_fields q Y w) = set_fields q Y (set_fields p X w).
Proof.
  intros H. unfold set_fields at 1 3.
  rewrite (set_fields_lookup_ne p q Y w H).
  rewrite (set_fields_lookup_ne q p X w (not_eq_sym H)).
  unfold set_fields.
  destruct (instances w !! p) as [ip|], (instances w !! q) as [iq|];
    simpl; try done.
  f_equal. by apply list_insert_insert_ne.
Qed.

Lemma walk_after_touch ids : forall o w q j iq,
  instances w !! q = Some iq ->
  match walk_fields o ids w with
  | Ok (v, w1) =>
      exists iq1,
        instances w1 !! q = Some iq1
        /\ (index (fields_ iq1) j).1 = (index (fields_ iq) j).1
        /\ walk_fields o ids (set_fields q (index (fields_ iq) j).2 w)
           = Ok (v, set_fields q (index (fields_ iq1) j).2 w1)
  | Throw e =>
      walk_fields o ids (set_fields q (index (fields_ iq) j).2 w) = Throw e
  | UB => walk_fields o ids (set_fields q (index (fields_ iq) j).2 w) = UB
  | _ => True
  end.
Proof.
  induction ids as [|id ids IH]; intros o w q j iq Hq.
  { simpl. by exists iq. }
  cbn [walk_fields].
  destruct o as [[| | | |p]|]; try done.
  destruct (decide (p = q)) as [->|Hne].
  - rewrite Hq. rewrite (set_fields_lookup_eq q _ w iq Hq). cbn [fields_].
    destruct (index (fields_ iq) id) as [o' f'] eqn:Ei.
    destruct (index (index (fields_ iq) j).2 id) as [o'' f''] eqn:Ej.
    assert (o'' = o') as ->.
    { pose proof (index_read_after (fields_ iq) j id) as H.
      by rewrite Ei, Ej in H. }
    assert (Hf : f'' = (index f' j).2).
    { pose proof (index_touch_commute (fields_ iq) j id) as H.
      by rewrite Ei, Ej in H. }
    rewrite set_fields_twice.
    pose proof (IH o' (set_fields q f' w) q j (mkInstance (class_ iq) f')
                  (set_fields_lookup_eq q f' w iq Hq)) as H.
    cbn [fields_] in H. rewrite set_fields_twice, <- Hf in H.
    destruct (walk_fields o' ids (set_fields q f' w)) as [[v w1]| | | |];
      try done.
    destruct H as (iq1 & H1 & H2 & H3). exists iq1.
    split; [done|]. split; [|done].
    rewrite H2. pose proof (index_read_after (fields_ iq) id j) as H.
    by rewrite Ei in H.
  - rewrite (set_fields_lookup_ne p q _ w Hne).
    destruct (instances w !! p) as [ip|] eqn:Ep; [|done].
    destruct (index (fields_ ip) id) as [o' f'] eqn:Ei.
    rewrite set_fields_commute by done.
    assert (Hq' : instances (set_fields p f' w) !! q = Some iq).
    { by rewrite set_fields_lookup_ne by (by apply not_eq_sym). }
    apply (IH o' (set_fields p f' w) q j iq Hq').
Qed.

Lemma walk_lookup_None ids : forall o w v w1 q,
  walk_fields o ids w = Ok (v, w1) ->
  instances w !! q = None -> instances w1 !! q = None.
Proof.
  induction ids as [|id ids IH]; intros o w v w1 q H Hq.
  { simpl in H. by injection H as _ <-. }
  cbn [walk_fields] in H. destruct o as [[| | | |p]|]; try done.
  destruct (instances w !! p) as [ip|] eqn:Ep; [|done].
  destruct (index (fields_ ip) id) as [o' f'].
  apply (IH _ _ _ _ q H).
  rewrite set_fields_lookup_ne; [done|]. intros ->. congruence.
Qed.

Lemma walk_then_walk ids2 : forall o2 o1 ids1 w v1 w1,
  walk_fields o1 ids1 w = Ok (v1, w1) ->
  match walk_fields o2 ids2 w with
  | Ok (v2, w2) =>
      exists w12,
        walk_fields o2 ids2 w1 = Ok (v2, w12)
        /\ walk_fields o1 ids1 w2 = Ok (v1, w12)
  | Throw e => walk_fields o2 ids2 w1 = Throw e
  | UB => walk_fields o2 ids2 w1 = UB
  | _ => True
  end.
Proof.
  induction ids2 as [|id ids2 IH]; intros o2 o1 ids1 w v1 w1 H1.
  { simpl. by exists w1. }
  cbn [walk_fields]. destruct o2 as [[| | | |q]|]; try done.
  destruct (instances w !! q) as [iq|] eqn:Eq.
  - pose proof (walk_after_touch ids1 o1 w q id iq Eq) as H.
    rewrite H1 in H. destruct H as (iq1 & Hq1 & Hread & Hwalk).
    rewrite Hq1.
    destruct (index (fields_ iq) id) as [o' f'] eqn:Ei.
    destruct (index (fields_ iq1) id) as [o'' f''] eqn:Ei1.
    simpl in Hread, Hwalk. subst o''.
    apply (IH o' o1 ids1 _ v1 _ Hwalk).
  - by rewrite (walk_lookup_None ids1 o1 w v1 w1 q H1 Eq).
Qed.

Lemma walk_fails_after ids2 : forall o2 o1 ids1 w v2 w2,
  walk_fields o2 ids2 w = Ok (v2, w2) ->
  (forall e, walk_fields o1 ids1 w = Throw e ->
             walk_fields o1 ids1 w2 = Throw e)
  /\ (walk_fields o1 ids1 w = UB -> walk_fields o1 ids1 w2 = UB).
Proof.
  induction ids2 as [|id ids2 IH]; intros o2 o1 ids1 w v2 w2 H2.
  { simpl in H2. by injection H2 as _ <-. }
  cbn [walk_fields] in H2. destruct o2 as [[| | | |q]|]; try done.
  destruct (instances w !! q) as [iq|] eqn:Eq; [|done].
  pose proof (walk_after_touch ids1 o1 w q id iq Eq) as H.
  destruct (index (fields_ iq) id) as [o' f'] eqn:Ei. simpl in H.
  destruct (IH o' o1 ids1 _ v2 w2 H2) as [IHt IHu].
  split.
  - intros e He. rewrite He in H. by apply IHt.
  - intros He. rewrite He in H. by apply IHu.
Qed.

Lemma walk_fields_outcome ids : forall o w,
  walk_fields o ids w <> Diverge /\ walk_fields o ids w <> Undetermined.
Proof.
  induction ids as [|id ids IH]; intros o w; [done|].
  cbn [walk_fields]. destruct o as [[| | | |p]|]; try done.
  destruct (instances w !! p) as [ip|]; [|done].
  destruct (index (fields_ ip) id) as [o' f']. apply IH.
Qed.

(** Reading two names one after the other gives the same values and
    leaves the same world in either order, unless both fail and fail in
    two different ways. *)
Lemma names_either_order n ids1 ids2 (c : Closure) (w : World) :
  agree (Execute (S n) (ast.VariableValue ids1) c w)
        (Execute (S n) (ast.VariableValue ids2) c w) = true ->
  ('(l, c1, w1) ← Execute (S n) (ast.VariableValue ids1) c w;
   '(r, c2, w2) ← Execute (S n) (ast.VariableValue ids2) c1 w1;
   Ok (l, r, c2, w2))
  = ('(r, c1, w1) ← Execute (S n) (ast.VariableValue ids2) c w;
     '(l, c2, w2) ← Execute (S n) (ast.VariableValue ids1) c1 w1;
     Ok (l, r, c2, w2)).
Proof.
  change (Execute (S n) (ast.VariableValue ?i)) with (VariableValue_Execute i).
  unfold VariableValue_Execute.
  destruct ids1 as [|x1 ids1], ids2 as [|x2 ids2]; try done.
  - destruct (negb (count c x2)); [done|].
    destruct (at_ c x2) as [o2| | | |]; try done. cbn [mbind Outcome_bind].
    by destruct (walk_fields o2 ids2 w) as [[v2 w2]| | | |].
  - destruct (negb (count c x1)); [done|].
    destruct (at_ c x1) as [o1| | | |]; try done. cbn [mbind Outcome_bind].
    by destruct (walk_fields o1 ids1 w) as [[v1 w1]| | | |].
  - assert (Hat : forall x, negb (count c x) = false ->
                             exists o, at_ c x = Ok o).
    { intros x E. apply negb_false_iff, bool_decide_eq_true in E as [o H].
      exists o. unfold at_. by rewrite H. }
    destruct (negb (count c x1)) eqn:E1, (negb (count c x2)) eqn:E2;
      cbn [mbind Outcome_bind agree].
    + intros H. apply bool_decide_eq_true_1 in H. by rewrite H.
    + destruct (Hat x2 E2) as [o2 ->]. cbn [mbind Outcome_bind].
      destruct (walk_fields o2 ids2 w) as [[v2 w2]|e2| | |];
        cbn [mbind Outcome_bind agree]; intros H; try done.
      * by rewrite E1.
      * apply bool_decide_eq_true_1 in H. by rewrite H.
    + destruct (Hat x1 E1) as [o1 ->]. cbn [mbind Outcome_bind].
      destruct (walk_fields o1 ids1 w) as [[v1 w1]|e1| | |];
        cbn [mbind Outcome_bind agree]; intros H; try done.
      * by rewrite E2.
      * apply bool_decide_eq_true_1 in H. by rewrite H.
    + destruct (Hat x1 E1) as [o1 A1], (Hat x2 E2) as [o2 A2].
      rewrite A1, A2. cbn [mbind Outcome_bind].
      destruct (walk_fields_outcome ids1 o1 w) as [Hd1 Hu1].
      destruct (walk_fields_outcome ids2 o2 w) as [Hd2 Hu2].
      destruct (walk_fields o1 ids1 w) as [[v1 w1]|e1| | |] eqn:W1;
        destruct (walk_fields o2 ids2 w) as [[v2 w2]|e2| | |] eqn:W2;
        cbn [mbind Outcome_bind agree]; intros H; try done;
        rewrite ?E1, ?E2, ?A1, ?A2; cbn [mbind Outcome_bind].
      * pose proof (walk_then_walk ids2 o2 o1 ids1 w v1 w1 W1) as H'.
        rewrite W2 in H'. destruct H' as (w12 & -> & ->). done.
      * pose proof (walk_then_walk ids2 o2 o1 ids1 w v1 w1 W1) as H'.
        rewrite W2 in H'. by rewrite H'.
      * pose proof (walk_then_walk ids2 o2 o1 ids1 w v1 w1 W1) as H'.
        rewrite W2 in H'. by rewrite H'.
      * destruct (walk_fails_after ids2 o2 o1 ids1 w v2 w2 W2) as [Ht _].
        by rewrite (Ht e1 W1).
      * apply bool_decide_eq_true_1 in H. by rewrite H.
      * destruct (walk_fails_after ids2 o2 o1 ids1 w v2 w2 W2) as [_ Hu].
        by rewrite (Hu W1).
Qed.


Lemma constant_Execute n s :
  constant s = true ->
  exists v, forall (c : Closure) (w : World),
    Execute (S n) s c w = Ok (v, c, w).
Proof. destruct s; try discriminate; intros _; eexists; reflexivity. Qed.

(** X25.  Whenever a [Comparison] node is given an outcome, that is when
    one operand is a constant or both are names that do not fail in two
    different ways, evaluating the right operand first gives the same
    outcome as evaluating the left one first: the same values reach the
    comparison, in the same scope and the same world. *)
Theorem Comparison_either_order n cmp lhs rhs (c : Closure) (w : World) :
  order_free (Execute n) lhs rhs c w = true ->
  Execute (S n) (ast.Comparison cmp lhs rhs) c w
  = ('(r, c1, w1) ← Execute n rhs c w;
     '(l, c2, w2) ← Execute n lhs c1 w1;
     '(b, w3) ← comparator (Execute n) cmp l r w2;
     Ok (Some (runtime.Bool b), c2, w3)).
Proof.
  intros Hfree.
  change (Execute (S n) (ast.Comparison cmp lhs rhs) c w)
    with (Execute_step (Execute n) (ast.Comparison cmp lhs rhs) c w).
  cbn [Execute_step]. rewrite Hfree.
  destruct n as [|n]; [done|].
  assert (Hl : constant lhs = true ->
    ('(l, c1, w1) ← Execute (S n) lhs c w;
     '(r, c2, w2) ← Execute (S n) rhs c1 w1;
     '(b, w3) ← comparator (Execute (S n)) cmp l r w2;
     Ok (Some (runtime.Bool b), c2, w3))
    = ('(r, c1, w1) ← Execute (S n) rhs c w;
       '(l, c2, w2) ← Execute (S n) lhs c1 w1;
       '(b, w3) ← comparator (Execute (S n)) cmp l r w2;
       Ok (Some (runtime.Bool b), c2, w3))).
  { intros H. destruct (constant_Execute n lhs H) as [v Hv].
    rewrite Hv. cbn [mbind Outcome_bind].
    destruct (Execute (S n) rhs c w) as [[[r c1] w1]| | | |]; try done.
    cbn [mbind Outcome_bind]. by rewrite Hv. }
  assert (Hr : constant rhs = true ->
    ('(l, c1, w1) ← Execute (S n) lhs c w;
     '(r, c2, w2) ← Execute (S n) rhs c1 w1;
     '(b, w3) ← comparator (Execute (S n)) cmp l r w2;
     Ok (Some (runtime.Bool b), c2, w3))
    = ('(r, c1, w1) ← Execute (S n) rhs c w;
       '(l, c2, w2) ← Execute (S n) lhs c1 w1;
       '(b, w3) ← comparator (Execute (S n)) cmp l r w2;
       Ok (Some (runtime.Bool b), c2, w3))).
  { intros H. destruct (constant_Execute n rhs H) as [v Hv].
    rewrite Hv. cbn [mbind Outcome_bind].
    destruct (Execute (S n) lhs c w) as [[[l c1] w1]| | | |]; try done.
    cbn [mbind Outcome_bind]. by rewrite Hv. }
  unfold order_free in Hfree.
  destruct (constant lhs) eqn:Cl; [by apply Hl|].
  destruct (constant rhs) eqn:Cr; [by apply Hr|].
  cbn [orb] in Hfree. apply andb_prop in Hfree as [Hro Hagree].
  apply andb_prop in Hro as [Hrl Hrr]. unfold reads_only in Hrl, Hrr.
  rewrite Cl in Hrl. rewrite Cr in Hrr. cbn [orb] in Hrl, Hrr.
  destruct lhs as [| | | |ids1| | | | | | | | | | | | | | | | | | |];
    try discriminate Hrl.
  destruct rhs as [| | | |ids2| | | | | | | | | | | | | | | | | | |];
    try discriminate Hrr.
  pose proof (names_either_order n ids1 ids2 c w Hagree) as Hn.
  set (k := fun x : ObjectHolder * ObjectHolder * Closure * World =>
              let '(l, r, c2, w2) := x in
              '(b, w3) ← comparator (Execute (S n)) cmp l r w2;
              Ok (Some (runtime.Bool b), c2, w3)).
  apply (f_equal (fun m => m ≫= k)) in Hn.
  etrans; [|etrans; [exact Hn|]].
  - destruct (Execute (S n) (ast.VariableValue ids1) c w)
      as [[[l c1] w1]| | | |]; try done. cbn [mbind Outcome_bind].
    by destruct (Execute (S n) (ast.VariableValue ids2) c1 w1)
      as [[[r c2] w2]| | | |].
  - destruct (Execute (S n) (ast.VariableValue ids2) c w)
      as [[[r c1] w1]| | | |]; try done. cbn [mbind Outcome_bind].
    by destruct (Execute (S n) (ast.VariableValue ids1) c1 w1)
      as [[[l c2] w2]| | | |].
Qed.

End Either_order.

Section Round_trip.
Import parse.

Lemma decimal_app a b acc :
  decimal acc (a +:+ b) = decimal (decimal acc a) b.
Proof.
  revert acc. induction a as [|c a IH]; intros acc; [done|].
  rewrite append_cons. simpl. apply IH.
Qed.

Lemma all_digits_app a b :
  all_digits (a +:+ b) = all_digits a && all_digits b.
Proof.
  induction a as [|c a IH]; [done|].
  rewrite append_cons. simpl. rewrite IH. by rewrite andb_assoc.
Qed.

Lemma pretty_N_char_digit d :
  (d < 10)%N ->
  isdigit (pretty_N_char d) = true
  /\ digit_value (pretty_N_char d) = Z.of_N d.
Proof.
  intros H.
  assert (d = 0 \/ d = 1 \/ d = 2 \/ d = 3 \/ d = 4 \/ d = 5 \/ d = 6
          \/ d = 7 \/ d = 8 \/ d = 9)%N as Hd by lia.
  repeat (destruct Hd as [-> | Hd]; [by vm_compute|]). subst d.
  by vm_compute.
Qed.

Lemma pretty_N_go_app x s : pretty_N_go x s = pretty_N_go x "" +:+ s.
Proof.
  revert s. induction (N.lt_wf_0 x) as [x _ IH]. intros s.
  destruct (decide (x = 0)%N) as [-> | Hx]; [by rewrite !pretty_N_go_0|].
  rewrite (pretty_N_go_step x s), (pretty_N_go_step x "") by lia.
  assert (Hlt : (x `div` 10 < x)%N) by (apply N.div_lt; lia).
  rewrite (IH _ Hlt (String.String (pretty_N_char (x `mod` 10)) s)).
  rewrite (IH _ Hlt (String.String (pretty_N_char (x `mod` 10)) "")).
  by rewrite <- append_assoc.
Qed.

Lemma pretty_N_go_value x :
  all_digits (pretty_N_go x "") = true
  /\ decimal 0 (pretty_N_go x "") = Z.of_N x.
Proof.
  induction (N.lt_wf_0 x) as [x _ IH].
  destruct (decide (x = 0)%N) as [-> | Hx]; [done|].
  rewrite pretty_N_go_step by lia. rewrite pretty_N_go_app.
  destruct (IH (x `div` 10)%N ltac:(apply N.div_lt; lia)) as [Hd Hv].
  destruct (pretty_N_char_digit (x `mod` 10)%N
              ltac:(apply N.mod_lt; lia)) as [Hc Hcv].
  rewrite all_digits_app, decimal_app, Hd, Hv. simpl. rewrite Hc, Hcv.
  split; [done|].
  rewrite (N.div_mod x 10) at 3 by lia. lia.
Qed.

Lemma pretty_digits v :
  0 <= v ->
  (exists d ds, pretty v = String.String d ds /\ isdigit d = true)
  /\ all_digits (pretty v) = true
  /\ decimal 0 (pretty v) = v.
Proof.
  intros Hv. destruct v as [|p|p]; [| |lia].
  { split; [by exists "0"%char, ""|done]. }
  change (pretty (Z.pos p)) with (pretty_N_go (N.pos p) "").
  destruct (pretty_N_go_value (N.pos p)) as [Hd Hval].
  split; [|done].
  destruct (pretty_N_go (N.pos p) "") as [|d ds] eqn:E.
  - simpl in Hval. lia.
  - exists d, ds. split; [done|]. simpl in Hd.
    by apply andb_prop in Hd as [-> _].
Qed.

(** X23.  What [print] writes for an Integer from 0 to [INT_MAX], read
    where a token may start and not followed by one more digit, lexes
    back to the [Number] token of that Integer, and the stream is left
    right after the digits. *)
Theorem Number_print_then_lex exec lx k v w text w' rest :
  Object_Print exec (runtime.Number v) w = Ok (text, w') ->
  0 <= v <= INT_MAX ->
  token_may_start lx k ->
  input_ lx = blanks k +:+ text +:+ rest ->
  no_digit_ahead rest = true ->
  w' = w
  /\ exists lx',
       NextToken lx = Ok (token_type.Number v, lx')
       /\ token_ lx' = token_type.Number v
       /\ input_ lx' = rest.
Proof.
  intros [= <- <-] [Hv0 Hv] Hmay Hin Hrest. split; [done|].
  destruct (pretty_digits v Hv0) as ((d & ds & Hp & Hd) & Hdig & Hval).
  pose proof (read_digits_app (pretty v) rest Hdig Hrest) as Hrd.
  rewrite Hp in Hin, Hrd. rewrite append_cons in Hin.
  destruct (at_line_text lx k d (ds +:+ rest) Hmay Hin)
    as (Hdiff & Hsk & _ & _);
    [by apply isdigit_not..|].
  rewrite (NextToken_digit lx d (ds +:+ rest)) by (done || apply Hmay).
  unfold GetNumber. cbn [input_ set_input]. rewrite <- append_cons, Hrd.
  unfold stoi. rewrite <- Hp, Hval.
  apply Z.leb_le in Hv. rewrite Hv. simpl. eauto.
Qed.

End Round_trip.

Section Further_samples.
Import parse.

Lemma NextToken_exceptions_witness :
  NextToken lexer_before_dollar
  = Throw (LexerError "Error occurred in token generation process")
  /\ (LexerError "Error occurred in token generation process"
      = LexerError "Error occurred in token generation process"
      \/ LexerError "Error occurred in token generation process"
         = out_of_range "stoi"
      \/ (LexerError "Error occurred in token generation process"
          = bad_alloc
          /\ exists q body,
               (q = "'"%char \/ q = double_quote)
               /\ (skip_spaces (input_ (at_line lexer_before_dollar))).2
                  = String.String q body
               /\ read_literal q body "" = Datatypes.None)).
Proof.
  split; [reflexivity|].
  apply (NextToken_exceptions lexer_before_dollar). reflexivity.
Defined.

Lemma NextToken_word_witness :
  exists lx',
    NextToken lexer_before_return = Ok (token_type.Return, lx')
    /\ token_ lx' = token_type.Return
    /\ input_ lx' = " x1".
Proof.
  apply (NextToken_word lexer_before_return 2 "return" " x1");
    [split; [discriminate | left; split; reflexivity] | reflexivity..].
Defined.

Lemma NextToken_literal_witness :
  exists lx',
    NextToken lexer_before_literal = Ok (token_type.String "it's", lx')
    /\ token_ lx' = token_type.String "it's"
    /\ input_ lx' = " ".
Proof.
  apply (NextToken_literal lexer_before_literal 1 "'" "it's" " ");
    [split; [discriminate | right; split; [discriminate | reflexivity]]
    | left; reflexivity | reflexivity].
Defined.

Lemma NextToken_unterminated_witness :
  NextToken lexer_before_open_literal = Throw bad_alloc.
Proof.
  apply (NextToken_unterminated lexer_before_open_literal 1 "'" "abc");
    [split; [discriminate | right; split; [discriminate | reflexivity]]
    | left; reflexivity | reflexivity | reflexivity].
Defined.

Lemma balance_never_negative_witness :
  exists lx0 lx',
    new_Lexer source_open_block = Ok lx0
    /\ advance 3 lx0
       = Ok ([token_type.Newline; token_type.Indent; token_type.Id "b"], lx')
    /\ 0 <= balance [token_type.Id "a"; token_type.Newline;
                     token_type.Indent; token_type.Id "b"]
    /\ balance [token_type.Id "a"; token_type.Newline;
                token_type.Indent; token_type.Id "b"]
       = announced lx'.
Proof.
  exists (mkLexer 0 0 (token_type.Id "a") "
  b"), (mkLexer 1 0 (token_type.Id "b") "").
  split; [reflexivity|]. split; [reflexivity|].
  apply (balance_never_negative source_open_block
           (mkLexer 0 0 (token_type.Id "a") "
  b") 3 [token_type.Newline; token_type.Indent; token_type.Id "b"]
           (mkLexer 1 0 (token_type.Id "b") ""));
    reflexivity.
Defined.

Lemma balance_zero_at_Eof_witness :
  exists lx',
    advance 8 (mkLexer 0 0 token_type.If " x:
  y
")
    = Ok ([token_type.Id "x"; token_type.Char ":"; token_type.Newline;
           token_type.Indent; token_type.Id "y"; token_type.Newline;
           token_type.Dedent; token_type.Eof], lx')
    /\ balance [token_type.If; token_type.Id "x"; token_type.Char ":";
                token_type.Newline; token_type.Indent; token_type.Id "y";
                token_type.Newline; token_type.Dedent; token_type.Eof]
       = 0.
Proof.
  exists (mkLexer 0 0 token_type.Eof "").
  split; [reflexivity|].
  apply (balance_zero_at_Eof source_block
           (mkLexer 0 0 token_type.If " x:
  y
") 8
           [token_type.Id "x"; token_type.Char ":"; token_type.Newline;
            token_type.Indent; token_type.Id "y"; token_type.Newline;
            token_type.Dedent; token_type.Eof]
           (mkLexer 0 0 token_type.Eof ""));
    reflexivity.
Defined.




Lemma bind_params_lookup_witness :
  bind_params scope_x ["a"; "b"]
    [Some (runtime.Number 1); Some (runtime.Number 2)] !! "b"
  = Some (Some (runtime.Number 2))
  /\ bind_params scope_x ["a"; "b"]
       [Some (runtime.Number 1); Some (runtime.Number 2)] !! "x"
     = scope_x !! "x".
Proof.
  destruct (bind_params_lookup ["a"; "b"]
              [Some (runtime.Number 1); Some (runtime.Number 2)] scope_x)
    as (Hbound & Hother).
  - apply NoDup_cons. split.
    + intros H. apply list_elem_of_singleton in H. discriminate.
    + apply NoDup_singleton.
  - split.
    + apply (Hbound 1%nat); reflexivity.
    + apply Hother. intros H.
      apply elem_of_cons in H as [H|H]; [discriminate|].
      apply list_elem_of_singleton in H. discriminate.
Defined.

Lemma primitive_comparisons_witness :
  exists e l g,
    Equal (Execute 0) (Some (runtime.String "a")) (Some (runtime.String "b"))
          empty_world = Ok (e, empty_world)
    /\ Less (Execute 0) (Some (runtime.String "a"))
            (Some (runtime.String "b")) empty_world = Ok (l, empty_world)
    /\ Greater (Execute 0) (Some (runtime.String "a"))
               (Some (runtime.String "b")) empty_world = Ok (g, empty_world)
    /\ Less (Execute 0) (Some (runtime.String "b"))
            (Some (runtime.String "a")) empty_world = Ok (g, empty_world)
    /\ NotEqual (Execute 0) (Some (runtime.String "a"))
                (Some (runtime.String "b")) empty_world
       = Ok (negb e, empty_world)
    /\ LessOrEqual (Execute 0) (Some (runtime.String "a"))
                   (Some (runtime.String "b")) empty_world
       = Ok (l || e, empty_world)
    /\ GreaterOrEqual (Execute 0) (Some (runtime.String "a"))
                      (Some (runtime.String "b")) empty_world
       = Ok (g || e, empty_world)
    /\ ((l = true /\ e = false /\ g = false)
        \/ (l = false /\ e = true /\ g = false)
        \/ (l = false /\ e = false /\ g = true)).
Proof.
  apply (primitive_comparisons 0 (Some (runtime.String "a"))
           (Some (runtime.String "b")) empty_world).
  right. right. exists "a", "b". split; reflexivity.
Defined.

Lemma Return_skips_rest_witness :
  Execute 4
    (ast.MethodBody
       (ast.Compound
          ([ast.Assignment "y" (ast.NumericConst 1)]
           ++ ast.Return (ast.VariableValue ["y"])
              :: [ast.MethodCall (ast.VariableValue ["y"]) "f" []])))
    ∅ empty_world
  = Ok (Some (runtime.Number 1), scope_y_returned, empty_world).
Proof.
  apply (Return_skips_rest 1 [ast.Assignment "y" (ast.NumericConst 1)]
           (ast.VariableValue ["y"])
           [ast.MethodCall (ast.VariableValue ["y"]) "f" []]
           ∅ scope_y scope_y empty_world empty_world empty_world
           (Some (runtime.Number 1)));
    vm_compute; reflexivity.
Defined.

Lemma Assignment_then_read_witness :
  Execute 2 (ast.Assignment "y" (ast.NumericConst 1)) scope_x empty_world
  = Ok (Some (runtime.Number 1), scope_x_y, empty_world)
  /\ Execute 1 (ast.VariableValue ["y"]) scope_x_y empty_world
     = Ok (Some (runtime.Number 1), scope_x_y, empty_world).
Proof.
  apply (Assignment_then_read 1 0 "y" (ast.NumericConst 1) scope_x scope_x
           empty_world empty_world (Some (runtime.Number 1))).
  reflexivity.
Defined.


Lemma VariableValue_errors_witness :
  Execute 1 (ast.VariableValue ["y"; "f"]) scope_x_y world_chain
  = Throw (runtime_error "Unknown variable - f")
  /\ Execute 1 (ast.VariableValue ["z"]) scope_x_y world_chain
     = Throw (runtime_error "Unknown variable - z").
Proof.
  destruct (VariableValue_errors 0 scope_x_y world_chain)
    as (Hunbound & Hfield & _).
  split.
  - apply (Hfield "y" (Some (runtime.Number 1)) "f" []);
      [reflexivity | discriminate].
  - apply (Hunbound "z" []). reflexivity.
Defined.

Lemma Stringify_Execute_witness :
  Execute 2 (ast.Stringify (ast.NumericConst 42)) ∅ empty_world
  = Ok (Some (runtime.String "42"), ∅, empty_world).
Proof.
  destruct (Stringify_Execute 1 (ast.NumericConst 42) ∅ empty_world)
    as (Htext & _).
  apply (Htext (Some (runtime.Number 42)) ∅ empty_world "42");
    vm_compute; reflexivity.
Defined.

Lemma Print_literals_witness :
  Execute 2
    (ast.Print [ast.NumericConst 1; ast.StringConst "a"; ast.None;
                ast.BoolConst true])
    ∅ empty_world
  = Ok (None, ∅, world_printed).
Proof.
  apply (Print_literals 0
           [ast.NumericConst 1; ast.StringConst "a"; ast.None;
            ast.BoolConst true]
           [Some (runtime.Number 1); Some (runtime.String "a"); None;
            Some (runtime.Bool true)]
           ["1"; "a"; "None"; "True"] ∅ empty_world);
    repeat constructor.
Defined.

Lemma instance_Print_witness :
  Object_Print (Execute 0) (runtime.ClassInstance 0) world_Boxes
  = Ok (address_text 0, world_Boxes).
Proof.
  destruct (instance_Print 0 0
              (mkInstance Box {["v" := Some (runtime.Number 1)]})
              world_Boxes eq_refl)
    as (Hnone & _).
  apply Hnone. reflexivity.
Defined.

Lemma Add_Execute_witness :
  Execute 2 (ast.Add (ast.StringConst "ab") (ast.StringConst "cd"))
          ∅ empty_world
  = Ok (Some (runtime.String "abcd"), ∅, empty_world)
  /\ Execute 2 (ast.Add (ast.StringConst "ab") (ast.NumericConst 1))
             ∅ empty_world
     = Throw (runtime_error "Incorrect addition").
Proof.
  split.
  - destruct (Add_Execute 1 (ast.StringConst "ab") (ast.StringConst "cd")
                ∅ ∅ ∅ empty_world empty_world empty_world
                (Some (runtime.String "ab")) (Some (runtime.String "cd"))
                eq_refl eq_refl)
      as (Hcat & _).
    apply (Hcat "ab" "cd"); reflexivity.
  - destruct (Add_Execute 1 (ast.StringConst "ab") (ast.NumericConst 1)
                ∅ ∅ ∅ empty_world empty_world empty_world
                (Some (runtime.String "ab")) (Some (runtime.Number 1))
                eq_refl eq_refl)
      as (_ & _ & _ & Herr).
    apply Herr. left. exists "ab". split; [reflexivity | discriminate].
Defined.

Lemma logic_Execute_witness :
  Execute 2 (ast.Or (ast.BoolConst true) call_on_number) ∅ empty_world
  = Ok (Some (runtime.Bool true), ∅, empty_world).
Proof.
  destruct (logic_Execute 1 (ast.BoolConst true) call_on_number
              ∅ ∅ empty_world empty_world (Some (runtime.Bool true))
              eq_refl)
    as (Hor & _).
  apply Hor. reflexivity.
Defined.

Lemma Number_print_then_lex_witness :
  exists lx',
    NextToken lexer_before_number = Ok (token_type.Number 42, lx')
    /\ token_ lx' = token_type.Number 42
    /\ input_ lx' = " ".
Proof.
  apply (proj2 (Number_print_then_lex (Execute 0) lexer_before_number 1 42
                  empty_world "42" empty_world " "
                  ltac:(vm_compute; reflexivity)
                  ltac:(unfold INT_MAX; lia)
                  ltac:(split; [discriminate
                               | right; split; [discriminate | reflexivity]])
                  eq_refl eq_refl)).
Defined.

Lemma arithmetic_on_temporaries_witness :
  Execute 3
    (ast.Sub (ast.Add (ast.NumericConst 1) (ast.NumericConst 2))
             (ast.Add (ast.NumericConst 3) (ast.NumericConst 4)))
    ∅ empty_world
  = UB
  /\ Execute 3
       (ast.Div (ast.Mult (ast.NumericConst 2) (ast.NumericConst 3))
                (ast.NumericConst 0))
       ∅ empty_world
     = Throw (runtime_error "Incorrect division").
Proof.
  split.
  - destruct (arithmetic_on_temporaries 2
                (ast.Add (ast.NumericConst 1) (ast.NumericConst 2))
                (ast.Add (ast.NumericConst 3) (ast.NumericConst 4))
                ∅ ∅ ∅ empty_world empty_world empty_world 3 7
                eq_refl eq_refl)
      as (Hsub & _).
    apply Hsub. left. reflexivity.
  - destruct (arithmetic_on_temporaries 2
                (ast.Mult (ast.NumericConst 2) (ast.NumericConst 3))
                (ast.NumericConst 0)
                ∅ ∅ ∅ empty_world empty_world empty_world 6 0
                eq_refl eq_refl)
      as (_ & _ & _ & Hzero).
    apply Hzero; reflexivity.
Defined.

Lemma Comparison_either_order_witness :
  Execute 2
    (ast.Comparison ast.cmp_Equal (ast.VariableValue ["x"; "a"; "f"])
                    (ast.VariableValue ["x"; "b"]))
    scope_x world_chain
  = Ok (Some (runtime.Bool true), scope_x, world_chain_both).
Proof.
  rewrite (Comparison_either_order 1 ast.cmp_Equal
             (ast.VariableValue ["x"; "a"; "f"])
             (ast.VariableValue ["x"; "b"]) scope_x world_chain);
    vm_compute; reflexivity.
Defined.

End Further_samples.
